(** * WorkflowGraph: graph model and layered layout

    A shallow embedding of the core of [workflow_graph/workflow.js]
    (class [WorkflowGraph]): loading and validating the raw workflow
    ([setData], [_validateAndBuildGraph]), Kahn's topological sort
    ([topoSort]), layer depths ([_computeDepths]) and the layout pass
    ([relayout], [_ensurePositionsForMissing]); then the handlers of a
    drag ([_attachDrag]), the simulated run ([run], [setActive],
    [clearLog]), [escapeHtml], and the zoom controls ([zoomIn], [zoomOut],
    [resetView], [fitToView] and the wheel listener).

    The instance fields the core reads and writes are gathered in the
    record [State]; every method is a function from the state before the
    call to its outcome and the state after it.  A thrown JavaScript
    exception is an outcome of its own and keeps the state as mutated up
    to the [throw]. *)

From Stdlib Require Import ZArith PrimFloat Uint63 Ascii String.
From Stdlib Require FloatAxioms SpecFloat.
From stdpp Require Import gmap strings list.

(** ** Raw input data *)

(** A property that holds a string or is [undefined]: node ids, dependency
    references and the keys of the [Map]s built from them. *)
Abbreviation key := (option string).

(** An entry of [depends_on]: [{ node_id }]. *)
Module DependencyRef.
Record t := { node_id : key }.
End DependencyRef.

(** A node record.  [id] is [None] when [typeof n.id !== "string"];
    [depends_on] is [None] when it is not an array; an entry of the array
    is [None] when it is falsy ([null]).  The display fields ([type],
    [title], [url]) are not read by the core. *)
Module Node.
Record t := {
  id : key;
  depends_on : option (list (option DependencyRef.t))
}.
End Node.

(** The workflow object: [nodes] is [None] when it is not an array, an
    element of the array is [None] when it is falsy. *)
Record Workflow := { nodes : option (list (option Node.t)) }.

(** [{ from, to }]: [from] must complete before [to]. *)
Record Edge := { from : key; to : key }.

#[global] Instance Edge_eq_dec : EqDecision Edge.
Proof. solve_decision. Defined.

Module Pos.
Record t := { x : float; y : float }.
End Pos.

(** ** Exceptions and outcomes *)

Inductive Error :=
| MissingId                               (* Each node must have a non-empty string id. *)
| DuplicateId (i : string)                (* Duplicate node id: i *)
| UnknownDep (n : key) (dep : key)        (* Node n depends_on unknown node dep. *)
| TypeError.                              (* property read on null or undefined *)

(** The outcome of a call: it returns, or it throws.  [OutOfFuel] is the
    outcome of a loop cut off by its bound; [topoSort_terminates] and
    [relayout_terminates] show that it never comes out. *)
Inductive result (A : Type) :=
| Ret (a : A)
| Throw (e : Error)
| OutOfFuel.
Arguments Ret {A} a.
Arguments Throw {A} e.
Arguments OutOfFuel {A}.

#[global] Instance result_bind : MBind result := λ A B f m,
  match m with Ret a => f a | Throw e => Throw e | OutOfFuel => OutOfFuel end.

(** ** The instance state *)

Record State := {
  NODE_W : float;
  NODE_H : float;
  GAP_X : float;
  GAP_Y : float;
  clientWidth : float;              (* this.stage.clientWidth *)
  logEl : option string;            (* logEl.textContent; None without a log element *)
  data : Workflow;
  byId : gmap key Node.t;
  edges : list Edge;
  positions : gmap key Pos.t;
  dragged : gset key
}.

Definition set_logEl (v : option string) (st : State) : State :=
  {| NODE_W := NODE_W st; NODE_H := NODE_H st; GAP_X := GAP_X st; GAP_Y := GAP_Y st;
     clientWidth := clientWidth st; logEl := v; data := data st; byId := byId st;
     edges := edges st; positions := positions st; dragged := dragged st |}.

Definition set_data (v : Workflow) (st : State) : State :=
  {| NODE_W := NODE_W st; NODE_H := NODE_H st; GAP_X := GAP_X st; GAP_Y := GAP_Y st;
     clientWidth := clientWidth st; logEl := logEl st; data := v; byId := byId st;
     edges := edges st; positions := positions st; dragged := dragged st |}.

Definition set_byId (v : gmap key Node.t) (st : State) : State :=
  {| NODE_W := NODE_W st; NODE_H := NODE_H st; GAP_X := GAP_X st; GAP_Y := GAP_Y st;
     clientWidth := clientWidth st; logEl := logEl st; data := data st; byId := v;
     edges := edges st; positions := positions st; dragged := dragged st |}.

Definition set_edges (v : list Edge) (st : State) : State :=
  {| NODE_W := NODE_W st; NODE_H := NODE_H st; GAP_X := GAP_X st; GAP_Y := GAP_Y st;
     clientWidth := clientWidth st; logEl := logEl st; data := data st; byId := byId st;
     edges := v; positions := positions st; dragged := dragged st |}.

Definition set_positions (v : gmap key Pos.t) (st : State) : State :=
  {| NODE_W := NODE_W st; NODE_H := NODE_H st; GAP_X := GAP_X st; GAP_Y := GAP_Y st;
     clientWidth := clientWidth st; logEl := logEl st; data := data st; byId := byId st;
     edges := edges st; positions := v; dragged := dragged st |}.

Definition set_dragged (v : gset key) (st : State) : State :=
  {| NODE_W := NODE_W st; NODE_H := NODE_H st; GAP_X := GAP_X st; GAP_Y := GAP_Y st;
     clientWidth := clientWidth st; logEl := logEl st; data := data st; byId := byId st;
     edges := edges st; positions := positions st; dragged := v |}.

(** [Array.isArray(this.data.nodes) ? this.data.nodes : []] *)
Definition nodes_of (st : State) : list (option Node.t) :=
  default [] (nodes (data st)).

(** [Array.isArray(n.depends_on) ? n.depends_on : []] *)
Definition deps_of (n : Node.t) : list (option DependencyRef.t) :=
  default [] (Node.depends_on n).

(** [Map.prototype.has] *)
Definition has {V : Type} (m : gmap key V) (k : key) : bool :=
  bool_decide (is_Some (m !! k)).

(** [log(msg)]: appends [msg + "\n"] to the log element, when there is one. *)
Definition newline : string := String (ascii_of_nat 10) EmptyString.

Definition log (msg : string) (st : State) : State :=
  match logEl st with
  | None => st
  | Some text => set_logEl (Some (text +:+ msg +:+ newline)%string) st
  end.

(** ** Loading: [setData] and [_validateAndBuildGraph] *)

(** White space as [String.prototype.trim] strips it, for strings whose
    code units are below 256: TAB, LF, VT, FF, CR, SP and NBSP. *)
Definition is_white_space (c : ascii) : bool :=
  bool_decide (nat_of_ascii c ∈ [9; 10; 11; 12; 13; 32; 160]).

Fixpoint trim_start (s : list ascii) : list ascii :=
  match s with
  | [] => []
  | c :: r => if is_white_space c then trim_start r else s
  end.

Definition trim (s : string) : string :=
  string_of_list_ascii
    (reverse (trim_start (reverse (trim_start (list_ascii_of_string s))))).

(** First loop of [_validateAndBuildGraph]: every node gets checked and
    registered in [this.byId]; the map is mutated as the scan goes and
    keeps what was registered when the scan throws. *)
Fixpoint register_nodes (ns : list (option Node.t)) (byId : gmap key Node.t)
  : result unit * gmap key Node.t :=
  match ns with
  | [] => (Ret tt, byId)
  | None :: _ => (Throw MissingId, byId)
  | Some n :: rest =>
      match Node.id n with
      | None => (Throw MissingId, byId)
      | Some s =>
          if bool_decide (trim s = EmptyString) then (Throw MissingId, byId)
          else if has byId (Some s) then (Throw (DuplicateId s), byId)
          else register_nodes rest (<[Some s := n]> byId)
      end
  end.

(** [dep && typeof dep.node_id === "string" ? dep.node_id : null] *)
Definition depId_of (dep : option DependencyRef.t) : key :=
  match dep with
  | Some d => DependencyRef.node_id d
  | None => None
  end.

(** [!depId || !this.byId.has(depId)]: [null] and the empty string are falsy. *)
Definition unknown_dep (byId : gmap key Node.t) (depId : key) : bool :=
  bool_decide (depId = None) || bool_decide (depId = Some EmptyString)
  || negb (has byId depId).

(** Inner loop of the second pass: the dependencies of one node, each
    pushed on [this.edges] as it is accepted. *)
Fixpoint link_deps (byId : gmap key Node.t) (n_id : key)
    (deps : list (option DependencyRef.t)) (edges : list Edge)
  : result unit * list Edge :=
  match deps with
  | [] => (Ret tt, edges)
  | dep :: rest =>
      let depId := depId_of dep in
      if unknown_dep byId depId then (Throw (UnknownDep n_id depId), edges)
      else link_deps byId n_id rest (edges ++ [{| from := depId; to := n_id |}])
  end.

(** Second loop: one edge per dependency reference. *)
Fixpoint link_nodes (byId : gmap key Node.t) (ns : list (option Node.t))
    (edges : list Edge) : result unit * list Edge :=
  match ns with
  | [] => (Ret tt, edges)
  | None :: _ => (Throw TypeError, edges)
  | Some n :: rest =>
      match link_deps byId (Node.id n) (deps_of n) edges with
      | (Ret _, edges') => link_nodes byId rest edges'
      | failure => failure
      end
  end.

(** [this.byId.clear(); this.edges = [];] and the two loops. *)
Definition _validateAndBuildGraph (st : State) : result unit * State :=
  let ns := nodes_of st in
  match register_nodes ns ∅ with
  | (Ret _, byId') =>
      let '(r, edges') := link_nodes byId' ns [] in
      (r, set_edges edges' (set_byId byId' st))
  | (failure, byId') => (failure, set_edges [] (set_byId byId' st))
  end.

(** [workflow] is [None] when the argument is falsy or not an object. *)
Definition setData (workflow : option Workflow) (st : State) : result unit * State :=
  _validateAndBuildGraph (set_data (default {| nodes := Some [] |} workflow) st).

(** ** Insertion-ordered maps

    [indeg] is a JavaScript [Map] that [topoSort] iterates with
    [entries()], so its insertion order matters: [set] on a present key
    replaces the value in place, [set] on a new key appends. *)
Section omap.
Context {V : Type}.

Fixpoint omap_get (m : list (key * V)) (k : key) : option V :=
  match m with
  | [] => None
  | (k', v) :: r => if decide (k = k') then Some v else omap_get r k
  end.

Fixpoint omap_set (k : key) (v : V) (m : list (key * V)) : list (key * V) :=
  match m with
  | [] => [(k, v)]
  | (k', v') :: r =>
      if decide (k = k') then (k, v) :: r else (k', v') :: omap_set k v r
  end.
End omap.

(** The numbers stored in [indeg]: integers, or [NaN] (what
    [undefined - 1] evaluates to). *)
Inductive jsnum := Num (z : Z) | NaN.

(** [(v || 0) + 1]: [undefined], [NaN] and [0] are falsy. *)
Definition or0_succ (v : option jsnum) : jsnum :=
  match v with
  | Some (Num z) => Num (z + 1)
  | _ => Num 1
  end.

(** [v - 1] *)
Definition jsnum_pred (v : option jsnum) : jsnum :=
  match v with
  | Some (Num z) => Num (z - 1)
  | _ => NaN
  end.

(** [v === 0] *)
Definition jsnum_is_zero (v : jsnum) : bool :=
  match v with
  | Num z => bool_decide (z = 0%Z)
  | NaN => false
  end.

(** ** Topological order: [topoSort] *)

Record TopoResult := { ok : bool; order : list key }.

(** [for (const n of nodes) { indeg.set(n.id, 0); out.set(n.id, []); }] *)
Fixpoint init_tables (ns : list (option Node.t))
    (indeg : list (key * jsnum)) (out : gmap key (list key))
  : result (list (key * jsnum) * gmap key (list key)) :=
  match ns with
  | [] => Ret (indeg, out)
  | None :: _ => Throw TypeError
  | Some n :: rest =>
      init_tables rest (omap_set (Node.id n) (Num 0) indeg) (<[Node.id n := []]> out)
  end.

(** [for (const e of this.edges) { indeg.set(e.to, ...); out.get(e.from).push(e.to); }] *)
Fixpoint count_edges (es : list Edge)
    (indeg : list (key * jsnum)) (out : gmap key (list key))
  : result (list (key * jsnum) * gmap key (list key)) :=
  match es with
  | [] => Ret (indeg, out)
  | e :: rest =>
      let indeg' := omap_set (to e) (or0_succ (omap_get indeg (to e))) indeg in
      match out !! from e with
      | None => Throw TypeError
      | Some succs => count_edges rest indeg' (<[from e := succs ++ [to e]]> out)
      end
  end.

(** [for (const [id, d] of indeg.entries()) if (d === 0) q.push(id);] *)
Fixpoint seed_queue (indeg : list (key * jsnum)) : list key :=
  match indeg with
  | [] => []
  | (k, d) :: r => if jsnum_is_zero d then k :: seed_queue r else seed_queue r
  end.

(** [for (const nxt of out.get(id)) { ... }] *)
Fixpoint release (succs : list key) (indeg : list (key * jsnum)) (q : list key)
  : list (key * jsnum) * list key :=
  match succs with
  | [] => (indeg, q)
  | nxt :: rest =>
      let d := jsnum_pred (omap_get indeg nxt) in
      release rest (omap_set nxt d indeg) (if jsnum_is_zero d then q ++ [nxt] else q)
  end.

(** [while (q.length) { const id = q.shift(); order.push(id); ... }]
    [fuel] bounds the number of iterations; the number of entries of
    [indeg] is enough ([drain_fuel], [seed_measure]). *)
Fixpoint drain (fuel : nat) (out : gmap key (list key))
    (indeg : list (key * jsnum)) (q order : list key) : result (list key) :=
  match q with
  | [] => Ret order
  | id :: q' =>
      match fuel with
      | O => OutOfFuel
      | S fuel' =>
          match out !! id with
          | None => Throw TypeError
          | Some succs =>
              let '(indeg', q'') := release succs indeg q' in
              drain fuel' out indeg' q'' (order ++ [id])
          end
      end
  end.

Definition topoSort (st : State) : result TopoResult :=
  let ns := nodes_of st in
  '(indeg, out) ← init_tables ns [] ∅;
  '(indeg, out) ← count_edges (edges st) indeg out;
  order ← drain (length indeg) out indeg (seed_queue indeg) [];
  if bool_decide (length order ≠ length ns)
  then Ret {| ok := false; order := [] |}
  else Ret {| ok := true; order := order |}.

(** ** Layer depth: [_computeDepths] *)

(** [for (const dep of deps) d = Math.max(d, (depth.get(dep.node_id) || 0) + 1);] *)
Fixpoint deepest (deps : list (option DependencyRef.t)) (depth : gmap key nat) (d : nat)
  : result nat :=
  match deps with
  | [] => Ret d
  | None :: _ => Throw TypeError
  | Some dep :: rest =>
      deepest rest depth (Nat.max d (default 0 (depth !! DependencyRef.node_id dep) + 1))
  end.

Fixpoint depth_pass (ids : list key) (byId : gmap key Node.t) (depth : gmap key nat)
  : result (gmap key nat) :=
  match ids with
  | [] => Ret depth
  | id :: rest =>
      match byId !! id with
      | None => Throw TypeError
      | Some node =>
          d ← deepest (deps_of node) depth 0;
          depth_pass rest byId (<[id := d]> depth)
      end
  end.

Definition _computeDepths (order : list key) (st : State) : result (gmap key nat) :=
  depth_pass order (byId st) (foldl (λ depth id, <[id := 0]> depth) ∅ order).

(** ** Layout: [relayout] and [_ensurePositionsForMissing] *)

(** Loop counters and depths are integer-valued JavaScript numbers (the
    conversion is exact below [2^53]). *)
Definition nat_to_float (n : nat) : float :=
  PrimFloat.of_uint63 (Uint63.of_Z (Z.of_nat n)).

(** [Math.max] on two numbers: [NaN] if either is, and [+0] above [-0]. *)
Definition Math_max (a b : float) : float :=
  if PrimFloat.is_nan a || PrimFloat.is_nan b then PrimFloat.nan
  else if (a <? b)%float then b
  else if (b <? a)%float then a
  else if PrimFloat.get_sign a then b else a.

(** Grouping of [order] into [layers], with the running [maxDepth]. *)
Fixpoint group_layers (ids : list key) (depth : gmap key nat)
    (layers : gmap nat (list key)) (maxDepth : nat) : gmap nat (list key) * nat :=
  match ids with
  | [] => (layers, maxDepth)
  | id :: rest =>
      let d := default 0 (depth !! id) in
      group_layers rest depth
        (<[d := default [] (layers !! d) ++ [id]]> layers) (Nat.max maxDepth d)
  end.

(** [for (let i = 0; i < count; i++) { ... }] over [ids], from index [i] on. *)
Fixpoint place_row (resetDragged : bool) (st : State) (startX : float) (d i : nat)
    (ids : list key) (pos : gmap key Pos.t) : gmap key Pos.t :=
  match ids with
  | [] => pos
  | id :: rest =>
      if negb resetDragged && bool_decide (id ∈ dragged st)
      then place_row resetDragged st startX d (S i) rest pos
      else
        let x := (startX + nat_to_float i * (NODE_W st + GAP_X st))%float in
        let y := (60 + nat_to_float d * (NODE_H st + GAP_Y st))%float in
        place_row resetDragged st startX d (S i) rest (<[id := {| Pos.x := x; Pos.y := y |}]> pos)
  end.

(** Body of [for (let d = 0; d <= maxDepth; d++)]. *)
Definition place_layer (resetDragged : bool) (st : State) (layers : gmap nat (list key))
    (pos : gmap key Pos.t) (d : nat) : gmap key Pos.t :=
  let ids := default [] (layers !! d) in
  let count := length ids in
  if bool_decide (count = 0) then pos
  else
    let totalW := (nat_to_float count * NODE_W st
                   + nat_to_float (count - 1) * GAP_X st)%float in
    let startX := Math_max 40 ((clientWidth st - totalW) / 2)%float in
    place_row resetDragged st startX d 0 ids pos.

(** [for (let d = 0; d <= maxDepth; d++) { ... }] *)
Definition place_layers (resetDragged : bool) (st : State) (layers : gmap nat (list key))
    (maxDepth : nat) (pos : gmap key Pos.t) : gmap key Pos.t :=
  foldl (place_layer resetDragged st layers) pos (seq 0 (S maxDepth)).

(** [for (const n of nodes) if (!this.positions.has(n.id)) missing.push(n.id);] *)
Fixpoint collect_missing (ns : list (option Node.t)) (pos : gmap key Pos.t)
    (missing : list key) : result (list key) :=
  match ns with
  | [] => Ret missing
  | None :: _ => Throw TypeError
  | Some n :: rest =>
      collect_missing rest pos
        (if has pos (Node.id n) then missing else missing ++ [Node.id n])
  end.

(** [for (const id of missing) { ... }] with the running [x]. *)
Fixpoint pack (st : State) (missing : list key) (x : float) (pos : gmap key Pos.t)
  : gmap key Pos.t :=
  match missing with
  | [] => pos
  | id :: rest =>
      let x := if (clientWidth st - 40 <? x + NODE_W st)%float then 40%float else x in
      pack st rest (x + (NODE_W st + 20))%float
        (<[id := {| Pos.x := x; Pos.y := 40%float |}]> pos)
  end.

Definition _ensurePositionsForMissing (st : State) : result unit * State :=
  match collect_missing (nodes_of st) (positions st) [] with
  | Ret missing =>
      if bool_decide (length missing = 0) then (Ret tt, st)
      else (Ret tt, set_positions (pack st missing 40%float (positions st)) st)
  | Throw e => (Throw e, st)
  | OutOfFuel => (OutOfFuel, st)
  end.

Definition cycle_message : string :=
  "ERROR: cycle detected; layout based on dependencies is not possible.".

Definition relayout (resetDragged : bool) (st : State) : result unit * State :=
  let st := if resetDragged then set_dragged ∅ st else st in
  match topoSort st with
  | Throw e => (Throw e, st)
  | OutOfFuel => (OutOfFuel, st)
  | Ret res =>
      if negb (ok res) then (Ret tt, log cycle_message st)
      else
        match _computeDepths (order res) st with
        | Throw e => (Throw e, st)
        | OutOfFuel => (OutOfFuel, st)
        | Ret depth =>
            let '(layers, maxDepth) := group_layers (order res) depth ∅ 0 in
            let st := if resetDragged then set_positions ∅ st else st in
            let pos := place_layers resetDragged st layers maxDepth (positions st) in
            _ensurePositionsForMissing (set_positions pos st)
        end
  end.

(** Direct manipulation ([_attachDrag]): [pointerdown] pins a node that has
    a position, [pointermove] overwrites its position. *)
Definition pointerdown (id : key) (st : State) : State :=
  match positions st !! id with
  | None => st
  | Some _ => set_dragged ({[id]} ∪ dragged st) st
  end.

Definition pointermove (id : key) (p : Pos.t) (st : State) : State :=
  set_positions (<[id := p]> (positions st)) st.

(** The state the constructor leaves, for given style constants, viewport
    width and log element. *)
Definition initial (node_w node_h gap_x gap_y width : float) (logEl : option string) : State :=
  {| NODE_W := node_w; NODE_H := node_h; GAP_X := gap_x; GAP_Y := gap_y;
     clientWidth := width; logEl := logEl; data := {| nodes := Some [] |};
     byId := ∅; edges := []; positions := ∅; dragged := ∅ |}.

(** ** Dragging: the handlers [_attachDrag] installs on a node element *)

(** What the handlers read of a pointer event.  [on_icon] tells whether
    [ev.target.closest(".clickable-icon")] finds an element (the check of
    the version with clickable icons; [false] where icons do not exist). *)
Module PointerEvent.
Record t := { clientX : float; clientY : float; on_icon : bool }.
End PointerEvent.

(** The variables the handlers of one element close over. *)
Module Drag.
Record t := {
  startX : float; startY : float;
  originX : float; originY : float;
  dragging : bool
}.
Definition idle : t :=
  {| startX := 0; startY := 0; originX := 0; originY := 0; dragging := false |}.
End Drag.

Definition on_pointerdown (id : key) (ev : PointerEvent.t) (dr : Drag.t) (st : State)
  : Drag.t * State :=
  if PointerEvent.on_icon ev then (dr, st)
  else
    match positions st !! id with
    | None => (dr, st)
    | Some p =>
        ({| Drag.startX := PointerEvent.clientX ev; Drag.startY := PointerEvent.clientY ev;
            Drag.originX := Pos.x p; Drag.originY := Pos.y p; Drag.dragging := true |},
         pointerdown id st)
    end.

Definition on_pointermove (id : key) (ev : PointerEvent.t) (dr : Drag.t) (st : State)
  : Drag.t * State :=
  if negb (Drag.dragging dr) then (dr, st)
  else
    let dx := (PointerEvent.clientX ev - Drag.startX dr)%float in
    let dy := (PointerEvent.clientY ev - Drag.startY dr)%float in
    let x := (Drag.originX dr + dx)%float in
    let y := (Drag.originY dr + dy)%float in
    (dr, pointermove id {| Pos.x := x; Pos.y := y |} st).

(** [pointerup] and [pointercancel] *)
Definition on_pointerend (dr : Drag.t) : Drag.t :=
  if negb (Drag.dragging dr) then dr
  else {| Drag.startX := Drag.startX dr; Drag.startY := Drag.startY dr;
          Drag.originX := Drag.originX dr; Drag.originY := Drag.originY dr;
          Drag.dragging := false |}.

(** A run of [pointermove] events on one element. *)
Fixpoint on_pointermoves (id : key) (evs : list PointerEvent.t) (dr : Drag.t) (st : State)
  : Drag.t * State :=
  match evs with
  | [] => (dr, st)
  | ev :: rest =>
      let '(dr', st') := on_pointermove id ev dr st in on_pointermoves id rest dr' st'
  end.

(** ** The simulated run: [run], [setActive], [clearLog] *)

(** The instance with the two fields the run writes besides the log.
    [activeId] is [None] for [null]. *)
Record Session := { core : State; activeId : option key; running : bool }.

Definition set_core (v : State) (s : Session) : Session :=
  {| core := v; activeId := activeId s; running := running s |}.

Definition set_running (v : bool) (s : Session) : Session :=
  {| core := core s; activeId := activeId s; running := v |}.

(** [setActive(idOrNull)], as far as the instance goes (the class toggling
    on the elements is left to the page). *)
Definition setActive (idOrNull : option key) (s : Session) : Session :=
  {| core := core s; activeId := idOrNull; running := running s |}.

(** [clearLog()] *)
Definition clearLog (st : State) : State :=
  match logEl st with
  | None => st
  | Some _ => set_logEl (Some EmptyString) st
  end.

(** An id inside [Array.prototype.join]: [undefined] gives the empty string. *)
Definition join_item (k : key) : string := default EmptyString k.

(** [order.join(" -> ")] *)
Fixpoint join_arrow (ids : list key) : string :=
  match ids with
  | [] => EmptyString
  | [k] => join_item k
  | k :: rest => (join_item k +:+ " -> " +:+ join_arrow rest)%string
  end.

(** An id under string concatenation: [undefined] gives ["undefined"]. *)
Definition concat_item (k : key) : string := default "undefined"%string k.

(** Where a call of [run] stands when it gives up control: it is over, or
    it waits in [await sleep(stepMs)] with the ids still to visit. *)
Inductive Pending := Finished | Sleeping (rest : list key).

(** One turn of the loop [for (const id of order)], up to its [await], or
    the statements after the loop. *)
Definition run_visit (rest : list key) (s : Session) : Pending * Session :=
  match rest with
  | id :: rest' =>
      let s := setActive (Some id) s in
      (Sleeping rest', set_core (log ("Running: " +:+ concat_item id)%string (core s)) s)
  | [] =>
      let s := setActive None s in
      let s := set_core (log (newline +:+ "Done.")%string (core s)) s in
      (Finished, set_running false s)
  end.

(** [run()], up to its first [await] or to its end. *)
Definition run (s : Session) : result Pending * Session :=
  if running s then (Ret Finished, s)
  else
    let s := set_running true s in
    let s := set_core (clearLog (core s)) s in
    match topoSort (core s) with
    | Throw e => (Throw e, s)
    | OutOfFuel => (OutOfFuel, s)
    | Ret res =>
        if negb (ok res)
        then
          let s := set_core (log "ERROR: cycle detected. Cannot run a cyclic workflow."
                               (core s)) s in
          (Ret Finished, set_running false s)
        else
          let s := set_core (log "Run order:" (core s)) s in
          let s := set_core (log ("  " +:+ join_arrow (order res))%string (core s)) s in
          let s := set_core (log EmptyString (core s)) s in
          let '(p, s) := run_visit (order res) s in (Ret p, s)
    end.

(** The timers fire one after the other with nothing in between. *)
Fixpoint run_on (rest : list key) (s : Session) : Session :=
  match rest with
  | [] => (run_visit [] s).2
  | _ :: rest' => run_on rest' (run_visit rest s).2
  end.

(** The values [activeId] takes while the timers fire. *)
Fixpoint run_actives (rest : list key) (s : Session) : list (option key) :=
  activeId (run_visit rest s).2 ::
  match rest with
  | [] => []
  | _ :: rest' => run_actives rest' (run_visit rest s).2
  end.

(** ** [escapeHtml] *)

(** [s.replaceAll(c, r)] for a pattern of one character. *)
Fixpoint replaceAll (c : ascii) (r : string) (s : string) : string :=
  match s with
  | EmptyString => EmptyString
  | String a s' =>
      if decide (a = c) then (r +:+ replaceAll c r s')%string
      else String a (replaceAll c r s')
  end.

Definition chr_amp : ascii := "&"%char.
Definition chr_lt : ascii := "<"%char.
Definition chr_gt : ascii := ">"%char.
Definition chr_quot : ascii := "034"%char.
Definition chr_apos : ascii := "'"%char.

Definition escapeHtml (s : string) : string :=
  replaceAll chr_apos "&#039;"
    (replaceAll chr_quot "&quot;"
       (replaceAll chr_gt "&gt;"
          (replaceAll chr_lt "&lt;"
             (replaceAll chr_amp "&amp;" s)))).

(** ** Zooming: [zoomIn], [zoomOut], [resetView] and the wheel handler *)

(** The literals [1.2], [0.3], [0.9] and [1.1], as the doubles they denote. *)
Definition lit_1_2 : float := 0x1.3333333333333p+0%float.
Definition lit_0_3 : float := 0x1.3333333333333p-2%float.
Definition lit_0_9 : float := 0x1.ccccccccccccdp-1%float.
Definition lit_1_1 : float := 0x1.199999999999ap+0%float.

Module View.
Record t := { scale : float; panX : float; panY : float }.
End View.

(** [Math.min] on two numbers: [NaN] if either is, and [-0] below [+0]. *)
Definition Math_min (a b : float) : float :=
  if PrimFloat.is_nan a || PrimFloat.is_nan b then PrimFloat.nan
  else if (a <? b)%float then a
  else if (b <? a)%float then b
  else if PrimFloat.get_sign b then b else a.

Definition zoomIn (v : View.t) : View.t :=
  {| View.scale := Math_min 2 (View.scale v * lit_1_2)%float;
     View.panX := View.panX v; View.panY := View.panY v |}.

Definition zoomOut (v : View.t) : View.t :=
  {| View.scale := Math_max lit_0_3 (View.scale v / lit_1_2)%float;
     View.panX := View.panX v; View.panY := View.panY v |}.

Definition resetView (v : View.t) : View.t :=
  {| View.scale := 1; View.panX := 0; View.panY := 0 |}.

(** The [wheel] listener; [rect_left] and [rect_top] are the corner of
    [this.stage.getBoundingClientRect()]. *)
Definition on_wheel (deltaY clientX clientY rect_left rect_top : float) (v : View.t)
  : View.t :=
  let delta := if (0 <? deltaY)%float then lit_0_9 else lit_1_1 in
  let newScale := Math_min 2 (Math_max lit_0_3 (View.scale v * delta)%float) in
  let mouseX := (clientX - rect_left)%float in
  let mouseY := (clientY - rect_top)%float in
  let scaleChange := (newScale / View.scale v)%float in
  {| View.scale := newScale;
     View.panX := (mouseX - (mouseX - View.panX v) * scaleChange)%float;
     View.panY := (mouseY - (mouseY - View.panY v) * scaleChange)%float |}.

(** The bounding box loop of [fitToView]. *)
Fixpoint bounding_box (st : State) (ns : list (option Node.t))
    (minX minY maxX maxY : float) : result (float * float * float * float) :=
  match ns with
  | [] => Ret (minX, minY, maxX, maxY)
  | None :: _ => Throw TypeError
  | Some n :: rest =>
      match positions st !! Node.id n with
      | None => bounding_box st rest minX minY maxX maxY
      | Some pos =>
          bounding_box st rest
            (Math_min minX (Pos.x pos)) (Math_min minY (Pos.y pos))
            (Math_max maxX (Pos.x pos + NODE_W st)%float)
            (Math_max maxY (Pos.y pos + NODE_H st)%float)
      end
  end.

(** [fitToView()]; [clientHeight] is [this.stage.clientHeight]. *)
Definition fitToView (clientHeight : float) (st : State) (v : View.t) : result View.t :=
  let ns := nodes_of st in
  if bool_decide (length ns = 0) then Ret v
  else
    '(minX, minY, maxX, maxY) ←
      bounding_box st ns infinity infinity neg_infinity neg_infinity;
    if (minX =? infinity)%float then Ret v
    else
      let contentW := (maxX - minX)%float in
      let contentH := (maxY - minY)%float in
      let stageW := clientWidth st in
      let stageH := clientHeight in
      let scaleX := ((stageW - 60 * 2) / contentW)%float in
      let scaleY := ((stageH - 60 * 2) / contentH)%float in
      let scale := Math_min 1 (Math_min scaleX scaleY) in
      let scaledW := (contentW * scale)%float in
      let scaledH := (contentH * scale)%float in
      Ret {| View.scale := scale;
             View.panX := ((stageW - scaledW) / 2 - minX * scale)%float;
             View.panY := ((stageH - scaledH) / 2 - minY * scale)%float |}.

(** [edgeCount()] *)
(** [edgeCount()] *)
Definition edgeCount (st : State) : nat := length (edges st).

(** ** Specification vocabulary *)

(** The ids of a node array, in declaration order ([undefined] for an
    element without one). *)
Definition ids_of (ns : list (option Node.t)) : list key :=
  (λ n, n ≫= Node.id) <$> ns.

Definition node_ids (st : State) : list key := ids_of (nodes_of st).

(** The edges one node contributes: one per dependency reference. *)
Definition node_edges (n : Node.t) : list Edge :=
  (λ dep, {| from := depId_of dep; to := Node.id n |}) <$> deps_of n.

Definition edges_of (ns : list (option Node.t)) : list Edge :=
  ns ≫= from_option node_edges [].

(** A node that passes the first loop. *)
Definition good_node (n : option Node.t) : Prop :=
  ∃ n' s, n = Some n' ∧ Node.id n' = Some s ∧ trim s ≠ EmptyString.

(** The Graph invariant of a validly loaded state. *)
Record valid_graph (st : State) : Prop := {
  valid_nodes : Forall good_node (nodes_of st);
  valid_nodup : NoDup (node_ids st);
  valid_byId : ∀ k n, byId st !! k = Some n ↔ Some n ∈ nodes_of st ∧ Node.id n = k;
  valid_deps : ∀ n dep, Some n ∈ nodes_of st → dep ∈ deps_of n →
               ∃ d, dep = Some d ∧ DependencyRef.node_id d ∈ node_ids st;
  valid_edges : edges st = edges_of (nodes_of st)
}.

(** [reach E u v]: a path of at least one edge leads from [u] to [v]. *)
Inductive reach (E : list Edge) : key → key → Prop :=
| reach_edge e : e ∈ E → reach E (from e) (to e)
| reach_step e w : e ∈ E → reach E (to e) w → reach E (from e) w.

Definition cyclic (E : list Edge) : Prop := ∃ v, reach E v v.
Definition acyclic (E : list Edge) : Prop := ∀ v, ¬ reach E v v.

(** [order] lists every node id exactly once and every edge goes forward. *)
Record topological (st : State) (order : list key) : Prop := {
  topo_nodup : NoDup order;
  topo_nodes : ∀ k, k ∈ order ↔ k ∈ node_ids st;
  topo_edges : ∀ e, e ∈ edges st →
               ∃ i j, order !! i = Some (from e) ∧ order !! j = Some (to e) ∧ i < j
}.

(** [depth.get(id) || 0] *)
Definition depth_at (depth : gmap key nat) (k : key) : nat := default 0 (depth !! k).

(** The successors of [u], in edge order: what [out.get(u)] holds. *)
Definition successors (E : list Edge) (u : key) : list key :=
  to <$> filter (λ e, from e = u) E.

(** The number of edges into [v] whose source is not in [done]. *)
Definition pending (E : list Edge) (done : list key) (v : key) : nat :=
  length (filter (λ e, to e = v ∧ from e ∉ done) E).

Definition occ (v : key) (l : list key) : nat := length (filter (λ k, k = v) l).

(** [indeg] holds the count [f v] for every node [v], in declaration order. *)
Definition indeg_ok (N : list key) (indeg : list (key * jsnum)) (f : key → nat) : Prop :=
  indeg.*1 = N ∧ ∀ v, v ∈ N → omap_get indeg v = Some (Num (Z.of_nat (f v))).

(** Every edge into a listed node comes from a node listed before it. *)
Definition forward (E : list Edge) (order : list key) : Prop :=
  ∀ i e, e ∈ E → order !! i = Some (to e) → ∃ j, j < i ∧ order !! j = Some (from e).

(** Consecutive elements of the list are joined by an edge. *)
Fixpoint walk (E : list Edge) (l : list key) : Prop :=
  match l with
  | a :: (b :: _) as r => (∃ e, e ∈ E ∧ from e = a ∧ to e = b) ∧ walk E r
  | _ => True
  end.

(** The measure of the queue loop: entries of [indeg] still above zero. *)
Definition positive (d : jsnum) : bool :=
  match d with Num z => bool_decide (0 < z)%Z | NaN => false end.

Definition positives (m : list (key * jsnum)) : nat :=
  length (filter (λ p, positive p.2 = true) m).

(** [1 + max(depth(dep) for dep in depends_on)], and [0] without
    dependencies, read off a depth table. *)
Definition layer_depth (depth : gmap key nat) (n : Node.t) : nat :=
  match deps_of n with
  | [] => 0
  | deps => 1 + max_list_with (λ d, depth_at depth (depId_of d)) deps
  end.

(** The nodes processed so far by [_computeDepths] hold their final depth. *)
Definition settled (byId : gmap key Node.t) (done : list key) (depth : gmap key nat) : Prop :=
  ∀ id n, id ∈ done → byId !! id = Some n → depth !! id = Some (layer_depth depth n).

(** The fields the placement loops read. *)
Definition same_frame (st st' : State) : Prop :=
  dragged st = dragged st' ∧ NODE_W st = NODE_W st' ∧ NODE_H st = NODE_H st' ∧
  GAP_X st = GAP_X st' ∧ GAP_Y st = GAP_Y st' ∧ clientWidth st = clientWidth st'.

(** The state in which [relayout] runs its placement loops. *)
Definition reset_state (resetDragged : bool) (st : State) : State :=
  if resetDragged then set_positions ∅ (set_dragged ∅ st) else st.

(** The table after the layered pass, before the fallback pass. *)
Definition layered (resetDragged : bool) (st : State) (order : list key)
    (depth : gmap key nat) : gmap key Pos.t :=
  let st2 := reset_state resetDragged st in
  let '(layers, maxDepth) := group_layers order depth ∅ 0 in
  place_layers resetDragged st2 layers maxDepth (positions st2).

(** The row of layer [d]: the ids at depth [d], in topological order. *)
Definition layer_row (order : list key) (depth : gmap key nat) (d : nat) : list key :=
  filter (λ id, depth_at depth id = d) order.

(** The slot of the node at index [i] in a row of [count] nodes of layer [d]. *)
Definition layer_slot (st : State) (count d i : nat) : Pos.t :=
  let totalW := (nat_to_float count * NODE_W st
                 + nat_to_float (count - 1) * GAP_X st)%float in
  let startX := Math_max 40 ((clientWidth st - totalW) / 2)%float in
  {| Pos.x := (startX + nat_to_float i * (NODE_W st + GAP_X st))%float;
     Pos.y := (60 + nat_to_float d * (NODE_H st + GAP_Y st))%float |}.

(** *** Vocabulary for the further properties *)

(** The inputs the two validation loops let through. *)
Definition well_formed (ns : list (option Node.t)) : Prop :=
  Forall good_node ns ∧ NoDup (ids_of ns) ∧
  ∀ n d, Some n ∈ ns → d ∈ deps_of n → depId_of d ∈ ids_of ns.

(** The nodes no edge leads to. *)
Definition sources (st : State) : list key :=
  filter (λ k, Forall (λ e, to e ≠ k) (edges st)) (node_ids st).

(** The graph and the style constants of two states agree. *)
Definition same_graph (st st' : State) : Prop :=
  data st' = data st ∧ byId st' = byId st ∧ edges st' = edges st ∧
  NODE_W st' = NODE_W st ∧ NODE_H st' = NODE_H st ∧ GAP_X st' = GAP_X st ∧
  GAP_Y st' = GAP_Y st ∧ clientWidth st' = clientWidth st.

(** Every pinned id has an entry in the table. *)
Definition pinned_placed (st : State) : Prop :=
  ∀ k, k ∈ dragged st → is_Some (positions st !! k).

(** The states of the instance: what the constructor leaves, and what the
    methods and handlers that write to the instance make of a state.  The
    [pointermove] handler is taken with any position. *)
Inductive reachable : State → Prop :=
| reachable_initial w h gx gy width l : reachable (initial w h gx gy width l)
| reachable_setData w st : reachable st → reachable (setData w st).2
| reachable_relayout r st : reachable st → reachable (relayout r st).2
| reachable_pointerdown id st : reachable st → reachable (pointerdown id st)
| reachable_pointermove id p st : reachable st → reachable (pointermove id p st)
| reachable_log msg st : reachable st → reachable (log msg st)
| reachable_clearLog st : reachable st → reachable (clearLog st).

(** Where a drag that started at [ev0] with the node at [p] puts the node
    when the pointer is at [ev]. *)
Definition dragged_to (p : Pos.t) (ev0 ev : PointerEvent.t) : Pos.t :=
  {| Pos.x := (Pos.x p + (PointerEvent.clientX ev - PointerEvent.clientX ev0))%float;
     Pos.y := (Pos.y p + (PointerEvent.clientY ev - PointerEvent.clientY ev0))%float |}.

(** The run carried on from where it gave up control, to its end. *)
Definition resume (p : Pending) (s : Session) : Session :=
  match p with Finished => s | Sleeping rest => run_on rest s end.

(** The values [activeId] takes from there on. *)
Definition actives (p : Pending) (s : Session) : list (option key) :=
  match p with Finished => [] | Sleeping rest => run_actives rest s end.

(** The lines [Running: id], one for each id. *)
Fixpoint running_lines (ids : list key) : string :=
  match ids with
  | [] => EmptyString
  | id :: rest => ("Running: " +:+ concat_item id +:+ newline +:+ running_lines rest)%string
  end.

(** The text a complete run over [order] leaves in the log element. *)
Definition run_log (order : list key) : string :=
  ("Run order:" +:+ newline +:+ "  " +:+ join_arrow order +:+ newline +:+ newline
   +:+ running_lines order +:+ newline +:+ "Done." +:+ newline)%string.

Definition cycle_log : string :=
  ("ERROR: cycle detected. Cannot run a cyclic workflow." +:+ newline)%string.

(** A state that differs from [st] in the log element only. *)
Definition with_log (text : option string) (st : State) : State := set_logEl text st.

(** What becomes of one character. *)
Definition escape_char (a : ascii) : string :=
  if decide (a = chr_amp) then "&amp;"%string
  else if decide (a = chr_lt) then "&lt;"%string
  else if decide (a = chr_gt) then "&gt;"%string
  else if decide (a = chr_quot) then "&quot;"%string
  else if decide (a = chr_apos) then "&#039;"%string
  else String a EmptyString.

(** The characters of a string. *)
Fixpoint chars (s : string) : list ascii :=
  match s with
  | EmptyString => []
  | String a s' => a :: chars s'
  end.

(** [a <= b] on numbers. *)
Definition fle (a b : float) : Prop := (a <=? b)%float = true.

(** A node of the array that is an object without a position. *)
Definition unplaced (st : State) (on : option Node.t) : Prop :=
  match on with
  | Some n => positions st !! Node.id n = None
  | None => False
  end.

#[global] Instance unplaced_dec st on : Decision (unplaced st on).
Proof. destruct on; simpl; apply _. Defined.

(** The fallback band, said by position in the row: a node that would end
    beyond the right margin, [40] short of the viewport width, goes back
    to the left margin [40]; the first node is tried at [x], every further
    one [NODE_W + 20] to the right of the one before it. *)
Definition band_wrap (st : State) (x : float) : float :=
  if (clientWidth st - 40 <? x + NODE_W st)%float then 40%float else x.

Fixpoint band_from (st : State) (x : float) (i : nat) : float :=
  match i with
  | 0 => band_wrap st x
  | S j => band_wrap st (band_from st x j + (NODE_W st + 20))%float
  end.

(** The abscissa of the [i]-th node of the band, which starts at the left
    margin. *)
Definition band_x (st : State) (i : nat) : float := band_from st 40 i.

(** ** Sample workflows *)

Definition dep (s : string) : option DependencyRef.t :=
  Some {| DependencyRef.node_id := Some s |}.

Definition node (s : string) (ds : list string) : option Node.t :=
  Some {| Node.id := Some s; Node.depends_on := Some (dep <$> ds) |}.

Definition workflow (ns : list (option Node.t)) : option Workflow :=
  Some {| nodes := Some ns |}.

Definition fresh : State := initial 180 56 40 60 1000 (Some EmptyString).

(** [A], [B] after [A]. *)
Definition chain : option Workflow := workflow [node "A" []; node "B" ["A"]].
Definition chain_state : State := (setData chain fresh).2.

(** [A] after [B], [B] after [A]. *)
Definition loop2 : option Workflow := workflow [node "A" ["B"]; node "B" ["A"]].
Definition loop2_state : State := (setData loop2 fresh).2.

(** [A] declared twice. *)
Definition twice : option Workflow := workflow [node "A" []; node "A" []].

(** [A] after itself. *)
Definition selfdep : option Workflow := workflow [node "A" ["A"]].

(** [chain] after a full layout, and after [A] was then dragged to (7, 7). *)
Definition at77 : Pos.t := {| Pos.x := 7; Pos.y := 7 |}.
Definition chain_laid : State := (relayout true chain_state).2.
Definition chain_dragged : State :=
  pointermove (Some "A"%string) at77 (pointerdown (Some "A"%string) chain_laid).

(** [loop2] loaded over the laid-out [chain]: the table still holds the
    positions of [A] and [B]; and the same after [A] was dragged. *)
Definition loop2_over_chain : State := (setData loop2 chain_laid).2.
Definition loop2_dragged : State :=
  pointermove (Some "A"%string) at77 (pointerdown (Some "A"%string) loop2_over_chain).

(** [A] with a dependency on an id that no node has, loaded over the
    dragged [chain]: the load fails and leaves the node in [data] and
    [byId]. *)
Definition dangling : option Workflow := workflow [node "A" ["Z"]].
Definition dangling_dragged : State := (setData dangling chain_dragged).2.

(** [chain] loaded into an instance with a viewport of width [400]: too
    narrow for two nodes side by side in the band. *)
Definition narrow : State := initial 180 56 40 60 400 (Some EmptyString).
Definition chain_narrow : State := (setData chain narrow).2.

(** [B] alone, loaded over the laid-out [chain]: the entry of [A] is stale. *)
Definition solo : option Workflow := workflow [node "B" []].
Definition solo_over_chain : State := (setData solo chain_laid).2.

Definition ev_at (x y : float) : PointerEvent.t :=
  {| PointerEvent.clientX := x; PointerEvent.clientY := y; PointerEvent.on_icon := false |}.

Definition idle_on (st : State) : Session :=
  {| core := st; activeId := None; running := false |}.

(** A node array that holds [null], loaded into a new instance: the load
    throws and leaves the array in [data]. *)
Definition holed : option Workflow := workflow [None].
Definition holed_state : State := (setData holed fresh).2.

(** * Loading *)

Lemma has_true {V} (m : gmap key V) k : has m k = true ↔ is_Some (m !! k).
Proof. unfold has. by rewrite bool_decide_eq_true. Qed.

Lemma has_false {V} (m : gmap key V) k : has m k = false ↔ m !! k = None.
Proof. unfold has. by rewrite bool_decide_eq_false, eq_None_not_Some. Qed.

Lemma unknown_dep_false m k :
  unknown_dep m k = false → ∃ s, k = Some s ∧ s ≠ EmptyString ∧ is_Some (m !! k).
Proof.
  unfold unknown_dep. intros H.
  apply orb_false_iff in H as [H Hhas]. apply orb_false_iff in H as [Hn He].
  apply bool_decide_eq_false in Hn, He. apply negb_false_iff, has_true in Hhas.
  destruct k as [s|]; [|done]. exists s. split_and!; [done| |done]. congruence.
Qed.


Lemma register_nodes_ok ns : ∀ m m',
  register_nodes ns m = (Ret tt, m') →
  Forall good_node ns ∧ NoDup (ids_of ns) ∧
  (∀ k, k ∈ ids_of ns → m !! k = None) ∧
  (∀ k n, m' !! k = Some n ↔ m !! k = Some n ∨ (Some n ∈ ns ∧ Node.id n = k)).
Proof.
  induction ns as [|[n|] ns IH]; intros m m' H; simpl in H.
  - simplify_eq. split_and!; [constructor|constructor|set_solver|].
    intros k n. split; [by left|]. intros [?|[Hin _]]; [done|]. by apply elem_of_nil in Hin.
  - destruct (Node.id n) as [s|] eqn:Hid; [|done].
    destruct (bool_decide (trim s = EmptyString)) eqn:Hblank; [done|].
    destruct (has m (Some s)) eqn:Hhas; [done|].
    apply bool_decide_eq_false in Hblank. apply has_false in Hhas.
    destruct (IH _ _ H) as (Hgood & Hnd & Hfresh & Hiff).
    assert (Hnotin : Some s ∉ ids_of ns).
    { intros Hin. apply Hfresh in Hin. by rewrite lookup_insert_eq in Hin. }
    split_and!.
    + constructor; [by exists n, s|done].
    + unfold ids_of. rewrite fmap_cons. simpl. rewrite Hid. by constructor.
    + intros k. unfold ids_of. rewrite fmap_cons. simpl. rewrite Hid.
      intros [->|Hin]%elem_of_cons; [done|].
      specialize (Hfresh _ Hin). rewrite lookup_insert in Hfresh. by case_decide.
    + intros k n0. rewrite Hiff, lookup_insert. rewrite elem_of_cons. split.
      * intros [Hm|[Hin Hn]]; [|by right; split; [right|]].
        case_decide; simplify_eq; [right; split; [by left|done]|by left].
      * intros [Hm|[[Heq|Hin] Hn]].
        -- left. case_decide; [congruence|done].
        -- left. simplify_eq. rewrite Hid. by rewrite decide_True.
        -- by right.
  - done.
Qed.


Lemma link_deps_ok m nid deps : ∀ es es',
  link_deps m nid deps es = (Ret tt, es') →
  es' = es ++ ((λ dep, {| from := depId_of dep; to := nid |}) <$> deps) ∧
  Forall (λ dep, unknown_dep m (depId_of dep) = false) deps.
Proof.
  induction deps as [|d deps IH]; intros es es' H; simpl in H.
  - simplify_eq. by rewrite app_nil_r.
  - destruct (unknown_dep m (depId_of d)) eqn:Hu; [done|].
    destruct (IH _ _ H) as [-> Hall]. split; [by rewrite <- app_assoc|by constructor].
Qed.


Lemma link_nodes_ok m ns : ∀ es es',
  link_nodes m ns es = (Ret tt, es') →
  es' = es ++ edges_of ns ∧
  ∀ n d, Some n ∈ ns → d ∈ deps_of n → unknown_dep m (depId_of d) = false.
Proof.
  induction ns as [|[n|] ns IH]; intros es es' H; simpl in H.
  - simplify_eq. split; [by rewrite app_nil_r|]. intros n d Hn. by apply elem_of_nil in Hn.
  - destruct (link_deps m (Node.id n) (deps_of n) es) as [r1 es1] eqn:Hl.
    destruct r1 as [[]| |]; [|done..].
    apply link_deps_ok in Hl as [-> Hall].
    destruct (IH _ _ H) as [-> Hrest]. split.
    + unfold edges_of. rewrite bind_cons. simpl. by rewrite <- app_assoc.
    + intros n0 d [Heq|Hin]%elem_of_cons Hd.
      * simplify_eq. by eapply Forall_forall in Hall.
      * by eapply Hrest.
  - done.
Qed.

Lemma setData_valid w st st' : setData w st = (Ret tt, st') → valid_graph st'.
Proof.
  unfold setData, _validateAndBuildGraph.
  set (st1 := set_data _ st). set (ns := nodes_of st1).
  destruct (register_nodes ns ∅) as [r m] eqn:Hreg.
  destruct r as [[]| |]; [|intros; simplify_eq..].
  destruct (link_nodes m ns []) as [r es] eqn:Hlink. intros H. simplify_eq.
  apply register_nodes_ok in Hreg as (Hgood & Hnd & _ & Hiff).
  apply link_nodes_ok in Hlink as [-> Hdeps].
  assert (Hns : nodes_of (set_edges ([] ++ edges_of ns) (set_byId m st1)) = ns) by done.
  split; unfold node_ids; rewrite ?Hns; simpl; try done.
  - intros k n. rewrite Hiff, lookup_empty. split; [by intros [?|?]|by right].
  - intros n d Hn Hd. specialize (Hdeps _ _ Hn Hd).
    apply unknown_dep_false in Hdeps as (s & Hs & _ & [n0 Hn0]).
    destruct d as [d|]; [|done]. exists d. split; [done|]. simpl in Hn0.
    apply Hiff in Hn0 as [Hn0|[Hn0 Hid]]; [by rewrite lookup_empty in Hn0|].
    unfold ids_of. apply list_elem_of_fmap. by exists (Some n0).
Qed.

(** * Insertion-ordered maps *)

Section omap_facts.
Context {V : Type}.
Implicit Types (m : list (key * V)) (k : key) (v : V).

Lemma omap_get_set m k v k' :
  omap_get (omap_set k v m) k' = if decide (k' = k) then Some v else omap_get m k'.
Proof.
  induction m as [|[k0 v0] m IH]; simpl.
  - by destruct (decide (k' = k)).
  - destruct (decide (k = k0)) as [->|Hne]; simpl.
    + by destruct (decide (k' = k0)).
    + destruct (decide (k' = k0)) as [->|Hne'].
      * rewrite decide_False; [done|congruence].
      * done.
Qed.

Lemma omap_get_None m k : omap_get m k = None ↔ k ∉ m.*1.
Proof.
  induction m as [|[k0 v0] m IH]; simpl.
  - split; [intros _; apply not_elem_of_nil|done].
  - rewrite not_elem_of_cons. destruct (decide (k = k0)) as [->|Hne].
    + split; [done|by intros [? _]].
    + rewrite IH. split; [done|by intros [_ ?]].
Qed.

Lemma omap_set_keys m k v : k ∈ m.*1 → (omap_set k v m).*1 = m.*1.
Proof.
  induction m as [|[k0 v0] m IH]; simpl.
  - by intros ?%elem_of_nil.
  - intros Hin. destruct (decide (k = k0)) as [->|Hne]; simpl; [done|].
    f_equal. apply IH. apply elem_of_cons in Hin as [?|?]; [done|done].
Qed.

Lemma omap_set_new m k v : k ∉ m.*1 → omap_set k v m = m ++ [(k, v)].
Proof.
  induction m as [|[k0 v0] m IH]; simpl; [done|].
  intros [Hne Hin]%not_elem_of_cons. rewrite decide_False by done. by rewrite IH.
Qed.

Lemma omap_get_elem m k v : NoDup m.*1 → omap_get m k = Some v ↔ (k, v) ∈ m.
Proof.
  induction m as [|[k0 v0] m IH]; simpl.
  - intros _. split; [done|by intros ?%elem_of_nil].
  - intros [Hk0 Hnd]%NoDup_cons. rewrite elem_of_cons.
    destruct (decide (k = k0)) as [->|Hne].
    + split; [intros [= ->]; by left|].
      intros [[= ->]|Hin]; [done|]. destruct Hk0.
      apply list_elem_of_fmap. by exists (k0, v).
    + rewrite IH by done. split; [by right|]. by intros [[= -> ->]|?].
Qed.
End omap_facts.

(** * Termination of the queue loop *)

Lemma positives_set m k d :
  positives (omap_set k d m) + (if default false (positive <$> omap_get m k) then 1 else 0)
  = positives m + (if positive d then 1 else 0).
Proof.
  unfold positives. induction m as [|[k0 d0] m IH]; simpl.
  - rewrite filter_cons, filter_nil. simpl. destruct (positive d); simpl; lia.
  - destruct (decide (k = k0)) as [->|Hne]; simpl.
    + rewrite !filter_cons. simpl.
      destruct (positive d), (positive d0); simpl; lia.
    + rewrite !filter_cons. simpl.
      destruct (decide (positive d0 = true)); simpl; lia.
Qed.

Lemma release_measure succs : ∀ indeg q,
  length (release succs indeg q).2 + positives (release succs indeg q).1
  ≤ length q + positives indeg.
Proof.
  induction succs as [|nxt rest IH]; intros indeg q; simpl; [done|].
  etrans; [apply IH|].
  pose proof (positives_set indeg nxt (jsnum_pred (omap_get indeg nxt))) as Hp.
  destruct (omap_get indeg nxt) as [[z|]|]; simpl in *.
  - destruct (bool_decide (z - 1 = 0)%Z) eqn:Hz.
    + apply bool_decide_eq_true in Hz. rewrite length_app. simpl.
      rewrite (bool_decide_eq_true_2 (0 < z)%Z) in Hp by lia.
      rewrite (bool_decide_eq_false_2 (0 < z - 1)%Z) in Hp by lia. lia.
    + apply bool_decide_eq_false in Hz.
      destruct (bool_decide (0 < z)%Z) eqn:Hz1.
      * apply bool_decide_eq_true in Hz1.
        rewrite (bool_decide_eq_true_2 (0 < z - 1)%Z) in Hp by lia. lia.
      * apply bool_decide_eq_false in Hz1.
        rewrite (bool_decide_eq_false_2 (0 < z - 1)%Z) in Hp by lia. lia.
  - lia.
  - lia.
Qed.

Lemma drain_fuel out fuel : ∀ indeg q order,
  length q + positives indeg ≤ fuel → drain fuel out indeg q order ≠ OutOfFuel.
Proof.
  induction fuel as [|fuel IH]; intros indeg q order Hm.
  - destruct q; [done|simpl in Hm; lia].
  - destruct q as [|id q]; [done|]. simpl.
    destruct (out !! id) as [succs|]; [|done].
    pose proof (release_measure succs indeg q) as Hr.
    destruct (release succs indeg q) as [indeg' q'']. apply IH. simpl in *. lia.
Qed.

Lemma seed_measure indeg : length (seed_queue indeg) + positives indeg ≤ length indeg.
Proof.
  unfold positives. induction indeg as [|[k d] m IH]; simpl; [done|].
  rewrite filter_cons. simpl. destruct d as [z|]; simpl.
  - destruct (bool_decide (z = 0)%Z) eqn:Hz.
    + apply bool_decide_eq_true in Hz. subst. simpl. lia.
    + destruct (decide (bool_decide (0 < z)%Z = true)); simpl; lia.
  - lia.
Qed.

Lemma topoSort_terminates st : topoSort st ≠ OutOfFuel.
Proof.
  unfold topoSort.
  assert (Hinit : ∀ ns indeg out, init_tables ns indeg out ≠ OutOfFuel).
  { induction ns as [|[n|] ns IH]; intros; simpl; [done|apply IH|done]. }
  assert (Hcount : ∀ es indeg out, count_edges es indeg out ≠ OutOfFuel).
  { induction es as [|e es IH]; intros; simpl; [done|].
    destruct (out !! from e); [apply IH|done]. }
  specialize (Hinit (nodes_of st) [] ∅).
  destruct (init_tables (nodes_of st) [] ∅) as [[indeg out]| |]; simpl; [|done..].
  specialize (Hcount (edges st) indeg out).
  destruct (count_edges (edges st) indeg out) as [[indeg' out']| |]; simpl; [|done..].
  pose proof (drain_fuel out' (length indeg') indeg' (seed_queue indeg') []
                (seed_measure indeg')) as Hd.
  destruct (drain (length indeg') out' indeg' (seed_queue indeg') []); simpl; [|done..].
  by case_bool_decide.
Qed.

(** * Kahn's algorithm on a well-formed graph *)

Lemma occ_cons_eq v l : occ v (v :: l) = S (occ v l).
Proof. unfold occ. rewrite filter_cons. by rewrite decide_True. Qed.

Lemma occ_cons_ne v k l : k ≠ v → occ v (k :: l) = occ v l.
Proof. intros. unfold occ. rewrite filter_cons. by rewrite decide_False. Qed.

Lemma pending_split E done id v :
  id ∉ done →
  pending E done v = pending E (done ++ [id]) v + occ v (successors E id).
Proof.
  intros Hid. unfold pending, successors, occ.
  induction E as [|e E IH]; [done|].
  rewrite !filter_cons.
  destruct (decide (from e = id)) as [Hf|Hf].
  - rewrite (decide_False (P := _ ∧ from e ∉ done ++ [id])).
    2:{ intros [_ Hn]. apply Hn. apply elem_of_app. right. rewrite Hf. by left. }
    rewrite fmap_cons, filter_cons.
    destruct (decide (to e = v)) as [Ht|Ht].
    + rewrite decide_True by (split; [done|by rewrite Hf]). simpl. lia.
    + rewrite decide_False by (by intros [? _]). done.
  - destruct (decide (to e = v ∧ from e ∉ done)) as [[Ht Hd]|Hn].
    + rewrite decide_True.
      2:{ split; [done|]. rewrite elem_of_app, list_elem_of_singleton. by intros [?|?]. }
      simpl. lia.
    + rewrite decide_False; [done|].
      intros [Ht Hd]. apply Hn. split; [done|]. intros ?. apply Hd, elem_of_app. by left.
Qed.

Lemma pending_zero E done v :
  pending E done v = 0 ↔ ∀ e, e ∈ E → to e = v → from e ∈ done.
Proof.
  unfold pending. rewrite length_zero_iff_nil. split.
  - intros Hnil e He Ht. destruct (decide (from e ∈ done)) as [|Hn]; [done|].
    exfalso. eapply (filter_nil_not_elem_of _ _ e Hnil); done.
  - intros H. induction E as [|e E IH]; [done|].
    rewrite filter_cons. rewrite decide_False.
    + apply IH. intros e' He'. apply H. by right.
    + intros [Ht Hn]. apply Hn, H; [by left|done].
Qed.

Lemma pending_pos E done v :
  pending E done v ≠ 0 → ∃ e, e ∈ E ∧ to e = v ∧ from e ∉ done.
Proof.
  unfold pending. intros Hne.
  destruct (filter (λ e, to e = v ∧ from e ∉ done) E) as [|e l] eqn:Hf; [done|].
  assert (e ∈ filter (λ e, to e = v ∧ from e ∉ done) E) as Hin by (rewrite Hf; left).
  apply list_elem_of_filter in Hin as [[? ?] ?]. by exists e.
Qed.

Section kahn.
Variables (N : list key) (E : list Edge) (out : gmap key (list key)).
Hypothesis N_nodup : NoDup N.
Hypothesis E_closed : ∀ e, e ∈ E → from e ∈ N ∧ to e ∈ N.
Hypothesis out_succs : ∀ u, u ∈ N → out !! u = Some (successors E u).

Lemma successors_closed u : successors E u ⊆ N.
Proof.
  intros v (e & -> & He)%list_elem_of_fmap.
  apply list_elem_of_filter in He as [_ He]. by apply E_closed.
Qed.

Lemma release_inv done succs : ∀ indeg q,
  indeg_ok N indeg (λ v, pending E done v + occ v succs) →
  NoDup (done ++ q) →
  (∀ v, v ∈ done ++ q ↔ v ∈ N ∧ pending E done v + occ v succs = 0) →
  succs ⊆ N →
  ∃ indeg' q', release succs indeg q = (indeg', q') ∧
    indeg_ok N indeg' (pending E done) ∧ NoDup (done ++ q') ∧
    (∀ v, v ∈ done ++ q' ↔ v ∈ N ∧ pending E done v = 0).
Proof.
  induction succs as [|nxt rest IH]; intros indeg q [Hkeys Hval] Hnd Hq Hsub.
  - exists indeg, q. simpl. split_and!; [done| |done|].
    + split; [done|]. intros v Hv. rewrite Hval by done. do 3 f_equal. unfold occ. simpl. lia.
    + intros v. rewrite Hq. unfold occ. simpl. by rewrite Nat.add_0_r.
  - simpl.
    assert (HnxtN : nxt ∈ N) by (apply Hsub; left).
    rewrite (Hval _ HnxtN). rewrite occ_cons_eq. simpl.
    set (p := pending E done nxt + occ nxt rest).
    replace (Z.of_nat (pending E done nxt + S (occ nxt rest)) - 1)%Z with (Z.of_nat p)
      by (unfold p; lia).
    assert (Hnotin : nxt ∉ done ++ q).
    { intros Hin. apply Hq in Hin as [_ Hin]. rewrite occ_cons_eq in Hin. lia. }
    apply IH.
    + split.
      * rewrite omap_set_keys; [done|]. by rewrite Hkeys.
      * intros v Hv. rewrite omap_get_set. destruct (decide (v = nxt)) as [->|Hne]; [done|].
        rewrite Hval by done. by rewrite occ_cons_ne.
    + case_bool_decide; [|done].
      rewrite app_assoc. apply NoDup_app. split_and!; [done| |apply NoDup_singleton].
      intros x Hx ->%list_elem_of_singleton. done.
    + intros v. destruct (decide (v = nxt)) as [->|Hne].
      * fold p. case_bool_decide as Hp.
        -- split; [intros _; split; [done|lia]|]. intros _.
           rewrite app_assoc. apply elem_of_app. right. by left.
        -- split; [done|]. intros [_ Hz]. lia.
      * rewrite <- (occ_cons_ne v nxt rest) by done. rewrite <- Hq.
        case_bool_decide; [|done].
        rewrite app_assoc, elem_of_app, list_elem_of_singleton. split; [by intros [?|?]|by left].
    + intros v Hv. apply Hsub. by right.
Qed.

Lemma forward_snoc done id :
  forward E done → pending E done id = 0 → forward E (done ++ [id]).
Proof.
  intros Hfw Hz i e He Hi.
  apply lookup_snoc_Some in Hi as [[Hlt Hi]|[Hlen Hid]].
  - destruct (Hfw i e He Hi) as (j & Hj & Hjl). exists j. split; [done|].
    by apply lookup_app_l_Some.
  - assert (from e ∈ done) as Hin by (eapply pending_zero; [done..|by symmetry]).
    apply list_elem_of_lookup in Hin as [j Hj]. exists j. split.
    + apply lookup_lt_Some in Hj. lia.
    + by apply lookup_app_l_Some.
Qed.

Lemma drain_inv fuel : ∀ indeg q done,
  length q + positives indeg ≤ fuel →
  indeg_ok N indeg (pending E done) →
  NoDup (done ++ q) →
  (∀ v, v ∈ done ++ q ↔ v ∈ N ∧ pending E done v = 0) →
  forward E done →
  ∃ order, drain fuel out indeg q done = Ret order ∧ NoDup order ∧
    (∀ v, v ∈ order ↔ v ∈ N ∧ pending E order v = 0) ∧ forward E order.
Proof.
  induction fuel as [|fuel IH]; intros indeg q done Hfuel Hok Hnd Hq Hfw.
  - destruct q; [|simpl in Hfuel; lia]. exists done. simpl.
    rewrite app_nil_r in *. done.
  - destruct q as [|id q].
    { exists done. simpl. rewrite app_nil_r in *. done. }
    simpl.
    assert (Hid : id ∈ N ∧ pending E done id = 0).
    { apply Hq. apply elem_of_app. right. left. }
    destruct Hid as [HidN Hidz].
    rewrite (out_succs _ HidN).
    assert (Hidnot : id ∉ done).
    { apply NoDup_app in Hnd as (_ & Hdisj & _). intros Hin. apply (Hdisj _ Hin). left. }
    destruct (release_inv (done ++ [id]) (successors E id) indeg q)
      as (indeg' & q' & Hrel & Hok' & Hnd' & Hq').
    + destruct Hok as [Hkeys Hval]. split; [done|]. intros v Hv.
      rewrite Hval by done. by rewrite <- pending_split.
    + rewrite <- app_assoc. done.
    + intros v. rewrite <- pending_split by done. rewrite <- Hq.
      rewrite <- app_assoc. done.
    + apply successors_closed.
    + pose proof (release_measure (successors E id) indeg q) as Hm.
      rewrite Hrel in *. simpl in Hm, Hfuel.
      apply IH; [lia|done|done|done|by apply forward_snoc].
Qed.
End kahn.

(** * The tables [topoSort] builds *)

Lemma init_tables_ok ns : ∀ indeg out,
  Forall good_node ns → NoDup (indeg.*1 ++ ids_of ns) →
  ∃ out', init_tables ns indeg out = Ret (indeg ++ ((λ k, (k, Num 0)) <$> ids_of ns), out') ∧
    ∀ u, out' !! u = if decide (u ∈ ids_of ns) then Some [] else out !! u.
Proof.
  induction ns as [|n ns IH]; intros indeg out Hgood Hnd.
  - exists out. split; [simpl; by rewrite app_nil_r|]. intros u.
    destruct (decide (u ∈ ids_of [])) as [Hin|]; [by apply elem_of_nil in Hin|done].
  - apply Forall_cons in Hgood as [(n' & s & -> & Hid & _) Hgood].
    change (ids_of (Some n' :: ns)) with (Node.id n' :: ids_of ns) in *.
    cbn [init_tables].
    assert (Hnew : Node.id n' ∉ indeg.*1).
    { apply NoDup_app in Hnd as (_ & Hdisj & _). intros Hin. apply (Hdisj _ Hin). left. }
    rewrite omap_set_new by done.
    destruct (IH (indeg ++ [(Node.id n', Num 0)]) (<[Node.id n' := []]> out) Hgood)
      as (out' & Heq & Hout).
    + rewrite fmap_app. simpl. rewrite <- app_assoc. done.
    + exists out'. split.
      * rewrite Heq. rewrite fmap_cons. by rewrite <- app_assoc.
      * intros u. rewrite Hout.
        destruct (decide (u ∈ ids_of ns)) as [Hin|Hin].
        -- rewrite decide_True; [done|by right].
        -- rewrite lookup_insert. destruct (decide (Node.id n' = u)) as [<-|Hne].
           ++ rewrite decide_True; [done|by left].
           ++ rewrite decide_False; [done|]. rewrite not_elem_of_cons. split; [done|done].
Qed.

Lemma successors_snoc E e u :
  successors (E ++ [e]) u = successors E u ++ (if decide (from e = u) then [to e] else []).
Proof.
  unfold successors. rewrite filter_app, fmap_app. f_equal.
  rewrite filter_cons, filter_nil. by destruct (decide (from e = u)).
Qed.

Lemma pending_snoc E e v :
  pending (E ++ [e]) [] v = pending E [] v + (if decide (to e = v) then 1 else 0).
Proof.
  unfold pending. rewrite filter_app, length_app. f_equal.
  rewrite filter_cons, filter_nil. destruct (decide (to e = v)) as [Ht|Ht].
  - rewrite decide_True; [done|]. split; [done|apply not_elem_of_nil].
  - rewrite decide_False; [done|]. by intros [? _].
Qed.

Section tables.
Variable N : list key.

Lemma count_edges_ok es : ∀ pre indeg out,
  (∀ e, e ∈ es → from e ∈ N ∧ to e ∈ N) →
  indeg_ok N indeg (pending pre []) →
  (∀ u, u ∈ N → out !! u = Some (successors pre u)) →
  ∃ indeg' out', count_edges es indeg out = Ret (indeg', out') ∧
    indeg_ok N indeg' (pending (pre ++ es) []) ∧
    (∀ u, u ∈ N → out' !! u = Some (successors (pre ++ es) u)).
Proof.
  induction es as [|e es IH]; intros pre indeg out Hcl Hok Hout.
  - exists indeg, out. rewrite app_nil_r. done.
  - simpl. destruct (Hcl e) as [Hf Ht]; [left|].
    rewrite (Hout _ Hf). destruct Hok as [Hkeys Hval].
    rewrite (Hval _ Ht). simpl.
    replace (pre ++ e :: es) with ((pre ++ [e]) ++ es) by (by rewrite <- app_assoc).
    apply IH.
    + intros e' He'. apply Hcl. by right.
    + split.
      * rewrite omap_set_keys; [done|]. by rewrite Hkeys.
      * intros v Hv. rewrite omap_get_set, pending_snoc.
        destruct (decide (v = to e)) as [->|Hne].
        -- rewrite decide_True by done. do 2 f_equal. lia.
        -- rewrite decide_False by done. rewrite Hval by done. do 3 f_equal. lia.
    + intros u Hu. rewrite successors_snoc, lookup_insert.
      destruct (decide (from e = u)) as [<-|Hne]; [done|].
      rewrite Hout by done. by rewrite app_nil_r.
Qed.

Lemma seed_queue_ok indeg f :
  NoDup N → indeg_ok N indeg f →
  NoDup (seed_queue indeg) ∧ ∀ v, v ∈ seed_queue indeg ↔ v ∈ N ∧ f v = 0.
Proof.
  intros Hnd [Hkeys Hval].
  assert (Hmem : ∀ m v, v ∈ seed_queue m ↔ ∃ d, (v, d) ∈ m ∧ jsnum_is_zero d = true).
  { induction m as [|[k d] m IH]; intros v; simpl.
    - split; [by intros ?%elem_of_nil|]. by intros (d & ?%elem_of_nil & _).
    - destruct (jsnum_is_zero d) eqn:Hd.
      + rewrite elem_of_cons, IH. split.
        * intros [->|(d' & Hin & Hz)]; [exists d; split; [left|done]|].
          exists d'. split; [by right|done].
        * intros (d' & [[= -> ->]|Hin]%elem_of_cons & Hz); [by left|].
          right. by exists d'.
      + rewrite IH. split.
        * intros (d' & Hin & Hz). exists d'. split; [by right|done].
        * intros (d' & [[= -> ->]|Hin]%elem_of_cons & Hz); [congruence|]. by exists d'. }
  assert (Hnodup : ∀ m, NoDup m.*1 → NoDup (seed_queue m)).
  { induction m as [|[k d] m IH]; simpl; [constructor|].
    intros [Hk Hm]%NoDup_cons. destruct (jsnum_is_zero d); [|by apply IH].
    apply NoDup_cons. split; [|by apply IH].
    intros (d' & Hin & _)%Hmem. apply Hk. apply list_elem_of_fmap. by exists (k, d'). }
  split; [apply Hnodup; by rewrite Hkeys|].
  intros v. rewrite Hmem. split.
  - intros (d & Hin & Hz).
    assert (HvN : v ∈ N).
    { rewrite <- Hkeys. apply list_elem_of_fmap. by exists (v, d). }
    split; [done|].
    apply omap_get_elem in Hin; [|by rewrite Hkeys].
    rewrite Hval in Hin by done. simplify_eq. simpl in Hz.
    apply bool_decide_eq_true in Hz. lia.
  - intros [HvN Hz]. exists (Num 0). split; [|done].
    apply omap_get_elem; [by rewrite Hkeys|]. rewrite Hval by done. by rewrite Hz.
Qed.
End tables.

(** * Cycles *)

Lemma walk_app_r E l1 l2 : walk E (l1 ++ l2) → walk E l2.
Proof.
  induction l1 as [|a l1 IH]; [done|]. simpl.
  destruct (l1 ++ l2) eqn:Heq; [|intros [_ ?]; by apply IH].
  intros _. apply app_eq_nil in Heq as [_ ->]. done.
Qed.

Lemma walk_reach E l : ∀ a b l', walk E (a :: l ++ b :: l') → reach E a b.
Proof.
  induction l as [|c l IH]; intros a b l'; simpl.
  - intros [(e & He & <- & <-) _]. by constructor.
  - intros [(e & He & <- & Hc) Hw]. eapply reach_step; [done|].
    rewrite Hc. by eapply IH.
Qed.

Lemma repeated_element (l : list key) :
  ¬ NoDup l → ∃ l1 a l2 l3, l = l1 ++ a :: l2 ++ a :: l3.
Proof.
  induction l as [|a l IH]; intros Hn.
  - destruct Hn. constructor.
  - destruct (decide (a ∈ l)) as [Hin|Hnotin].
    + apply list_elem_of_split in Hin as (l2 & l3 & ->). by exists [], a, l2, l3.
    + destruct IH as (l1 & b & l2 & l3 & ->).
      * intros Hnd. apply Hn. by constructor.
      * by exists (a :: l1), b, l2, l3.
Qed.

Lemma no_source_cyclic E (S : list key) v0 :
  v0 ∈ S → (∀ v, v ∈ S → ∃ e, e ∈ E ∧ to e = v ∧ from e ∈ S) → cyclic E.
Proof.
  intros Hv0 Hpred.
  assert (Hwalk : ∀ n, ∃ l, length l = Datatypes.S n ∧ (∀ v, v ∈ l → v ∈ S) ∧ walk E l).
  { induction n as [|n (l & Hlen & Hsub & Hw)].
    - exists [v0]. split_and!; [done| |done]. by intros v ->%list_elem_of_singleton.
    - destruct l as [|h t]; [done|].
      destruct (Hpred h) as (e & He & Ht & Hf); [apply Hsub; left|].
      exists (from e :: h :: t). split_and!.
      + simpl in *. lia.
      + intros v [->|Hv]%elem_of_cons; [done|by apply Hsub].
      + simpl. split; [by exists e|done]. }
  destruct (Hwalk (length S)) as (l & Hlen & Hsub & Hw).
  destruct (repeated_element l) as (l1 & a & l2 & l3 & ->).
  - intros Hnd. pose proof (submseteq_length _ _ (NoDup_submseteq _ _ Hnd Hsub)). lia.
  - exists a. apply walk_app_r in Hw. by eapply walk_reach.
Qed.

Lemma reach_forward E order u v :
  NoDup order →
  (∀ e, e ∈ E → ∃ i j, order !! i = Some (from e) ∧ order !! j = Some (to e) ∧ i < j) →
  reach E u v → ∃ i j, order !! i = Some u ∧ order !! j = Some v ∧ i < j.
Proof.
  intros Hnd Hfw. induction 1 as [e He|e w He Hr (i & j & Hi & Hj & Hlt)].
  - by apply Hfw.
  - destruct (Hfw e He) as (i' & j' & Hi' & Hj' & Hlt').
    assert (j' = i) as -> by (eapply NoDup_lookup; done).
    exists i', j. split_and!; [done|done|lia].
Qed.

Lemma forward_order_acyclic E order :
  NoDup order →
  (∀ e, e ∈ E → ∃ i j, order !! i = Some (from e) ∧ order !! j = Some (to e) ∧ i < j) →
  acyclic E.
Proof.
  intros Hnd Hfw v Hr.
  destruct (reach_forward _ _ _ _ Hnd Hfw Hr) as (i & j & Hi & Hj & Hlt).
  assert (i = j) by (eapply NoDup_lookup; done). lia.
Qed.

Lemma topological_acyclic st order : topological st order → acyclic (edges st).
Proof. intros [Hnd _ Hfw]. by eapply forward_order_acyclic. Qed.

(** * [topoSort] on a valid graph *)

Lemma edges_of_elem ns e :
  e ∈ edges_of ns ↔
  ∃ n d, Some n ∈ ns ∧ d ∈ deps_of n ∧ e = {| from := depId_of d; to := Node.id n |}.
Proof.
  unfold edges_of. rewrite list_elem_of_bind. split.
  - intros ([n|] & He & Hn); simpl in He; [|by apply elem_of_nil in He].
    apply list_elem_of_fmap in He as (d & -> & Hd). by exists n, d.
  - intros (n & d & Hn & Hd & ->). exists (Some n). split; [|done].
    simpl. apply list_elem_of_fmap. by exists d.
Qed.

Lemma valid_graph_closed st :
  valid_graph st → ∀ e, e ∈ edges st → from e ∈ node_ids st ∧ to e ∈ node_ids st.
Proof.
  intros Hv e He. rewrite (valid_edges _ Hv) in He.
  apply edges_of_elem in He as (n & d & Hn & Hd & ->). simpl. split.
  - destruct (valid_deps _ Hv _ _ Hn Hd) as (d' & -> & Hin). done.
  - apply list_elem_of_fmap. by exists (Some n).
Qed.

Lemma valid_graph_length st : valid_graph st → length (node_ids st) = length (nodes_of st).
Proof. intros _. apply length_fmap. Qed.

Lemma omap_get_const (l : list key) (d : jsnum) v :
  v ∈ l → omap_get ((λ k, (k, d)) <$> l) v = Some d.
Proof.
  induction l as [|k l IH]; [by intros ?%elem_of_nil|].
  intros Hin. simpl. destruct (decide (v = k)); [done|].
  apply IH. by apply elem_of_cons in Hin as [?|?].
Qed.

Lemma topoSort_valid st :
  valid_graph st →
  (∃ order, topoSort st = Ret {| ok := true; order := order |} ∧ topological st order) ∨
  (topoSort st = Ret {| ok := false; order := [] |} ∧ cyclic (edges st)).
Proof.
  intros Hv. pose proof (valid_graph_closed _ Hv) as Hclosed.
  pose proof (valid_nodup _ Hv) as HN. set (N := node_ids st) in *.
  unfold topoSort.
  destruct (init_tables_ok (nodes_of st) [] ∅ (valid_nodes _ Hv)) as (out0 & -> & Hout0);
    [done|]. fold (node_ids st). fold N. simpl.
  destruct (count_edges_ok N (edges st) [] ((λ k, (k, Num 0)) <$> N) out0)
    as (indeg & out & -> & Hindeg & Hout); [done| | |].
  { split.
    - rewrite <- list_fmap_compose. apply list_fmap_id.
    - intros v Hv'. by rewrite omap_get_const. }
  { intros u Hu. rewrite Hout0. by rewrite decide_True. }
  simpl in *.
  destruct (seed_queue_ok N indeg _ HN Hindeg) as [Hqnd Hq].
  destruct (drain_inv N (edges st) out Hclosed Hout (length indeg) indeg
              (seed_queue indeg) []) as (order & -> & Hnd & Hmem & Hfw).
  { apply seed_measure. }
  { done. }
  { done. }
  { done. }
  { intros i e _ Hi. by rewrite lookup_nil in Hi. }
  simpl. case_bool_decide as Hlen.
  - right. split; [done|].
    set (S := filter (λ v, v ∉ order) N).
    destruct S as [|v0 S'] eqn:HS.
    + exfalso. apply Hlen. rewrite <- (valid_graph_length _ Hv). fold N.
      apply Nat.le_antisymm.
      * apply submseteq_length, NoDup_submseteq; [done|]. by intros v [? _]%Hmem.
      * apply submseteq_length, NoDup_submseteq; [done|]. intros v Hv'.
        destruct (decide (v ∈ order)) as [|Hn]; [done|].
        assert (v ∈ S) as Hin by (apply list_elem_of_filter; done).
        rewrite HS in Hin. by apply elem_of_nil in Hin.
    + apply (no_source_cyclic _ (v0 :: S') v0); [left|].
      rewrite <- HS. intros v [Hno HvN]%list_elem_of_filter.
      destruct (pending_pos (edges st) order v) as (e & He & Ht & Hf).
      { intros Hz. apply Hno, Hmem. done. }
      exists e. split_and!; [done..|]. apply list_elem_of_filter. split; [done|].
      by apply Hclosed.
  - left. exists order. split; [done|].
    assert (Hperm : order ≡ₚ N).
    { apply submseteq_length_Permutation.
      - apply NoDup_submseteq; [done|]. by intros v [? _]%Hmem.
      - unfold N. rewrite valid_graph_length by done.
        destruct (decide (length order = length (nodes_of st))); [lia|done]. }
    split; [done| |].
    + intros k. by rewrite Hperm.
    + intros e He. destruct (Hclosed e He) as [_ Ht].
      rewrite <- Hperm in Ht. apply list_elem_of_lookup in Ht as [j Hj].
      destruct (Hfw j e He Hj) as (i & Hlt & Hi). by exists i, j.
Qed.

(** * Sample graphs *)

Lemma chain_loads : setData chain fresh = (Ret tt, chain_state).
Proof. vm_compute. reflexivity. Qed.

Lemma loop2_loads : setData loop2 fresh = (Ret tt, loop2_state).
Proof. vm_compute. reflexivity. Qed.

Lemma chain_acyclic : acyclic (edges chain_state).
Proof.
  apply (forward_order_acyclic _ [Some "A"%string; Some "B"%string]).
  - apply (bool_decide_unpack _). vm_compute. exact I.
  - change (edges chain_state) with [{| from := Some "A"%string; to := Some "B"%string |}].
    intros e ->%list_elem_of_singleton. exists 0, 1. split_and!; [done|done|lia].
Qed.

Lemma loop2_cyclic : cyclic (edges loop2_state).
Proof.
  exists (Some "A"%string).
  change (edges loop2_state) with
    [{| from := Some "B"%string; to := Some "A"%string |};
     {| from := Some "A"%string; to := Some "B"%string |}].
  apply (reach_step _ {| from := Some "A"%string; to := Some "B"%string |}).
  - right. left.
  - apply (reach_edge _ {| from := Some "B"%string; to := Some "A"%string |}). left.
Qed.

(** * Claims about loading and the topological order *)




(** C2: on every validly loaded acyclic graph [topoSort] returns [ok = true]
    with an order that holds every node id exactly once and in which every
    edge goes from a smaller index to a larger one. *)
Theorem topoSort_acyclic w st0 st :
  setData w st0 = (Ret tt, st) → acyclic (edges st) →
  ∃ order, topoSort st = Ret {| ok := true; order := order |} ∧
    NoDup order ∧ (∀ k, k ∈ order ↔ k ∈ node_ids st) ∧
    ∀ e, e ∈ edges st →
      ∃ i j, order !! i = Some (from e) ∧ order !! j = Some (to e) ∧ i < j.
Proof.
  intros Hload Hacyc.
  destruct (topoSort_valid st (setData_valid _ _ _ Hload))
    as [(order & Hsort & [Hnd Hmem Hfw])|[_ [v Hv]]].
  - by exists order.
  - by destruct (Hacyc v).
Qed.

Lemma topoSort_acyclic_witness :
  setData chain fresh = (Ret tt, chain_state) ∧ acyclic (edges chain_state) ∧
  ∃ order, topoSort chain_state = Ret {| ok := true; order := order |} ∧
    NoDup order ∧ (∀ k, k ∈ order ↔ k ∈ node_ids chain_state) ∧
    ∀ e, e ∈ edges chain_state →
      ∃ i j, order !! i = Some (from e) ∧ order !! j = Some (to e) ∧ i < j.
Proof.
  split; [vm_compute; reflexivity|]. split; [exact chain_acyclic|].
  apply (topoSort_acyclic chain fresh chain_state).
  - vm_compute. reflexivity.
  - exact chain_acyclic.
Defined.

(** C3: on every validly loaded graph whose edges contain a cycle
    [topoSort] returns [ok = false] and the empty order. *)
Theorem topoSort_cyclic w st0 st :
  setData w st0 = (Ret tt, st) → cyclic (edges st) →
  topoSort st = Ret {| ok := false; order := [] |}.
Proof.
  intros Hload Hcyc.
  destruct (topoSort_valid st (setData_valid _ _ _ Hload))
    as [(order & _ & Htopo)|[Hsort _]]; [|done].
  destruct Hcyc as [v Hv]. by destruct (topological_acyclic _ _ Htopo v).
Qed.

Lemma topoSort_cyclic_witness :
  setData loop2 fresh = (Ret tt, loop2_state) ∧ cyclic (edges loop2_state) ∧
  topoSort loop2_state = Ret {| ok := false; order := [] |}.
Proof.
  split; [vm_compute; reflexivity|]. split; [exact loop2_cyclic|].
  apply (topoSort_cyclic loop2 fresh loop2_state).
  - vm_compute. reflexivity.
  - exact loop2_cyclic.
Defined.

(** * The layout passes *)

Lemma place_row_frame r st st' sx d ids : ∀ i pos,
  same_frame st st' → place_row r st sx d i ids pos = place_row r st' sx d i ids pos.
Proof.
  intros i pos (Hd & Hw & Hh & Hx & Hy & _). revert i pos.
  induction ids as [|id ids IH]; intros i pos; simpl; [done|].
  rewrite Hd, Hw, Hh, Hx, Hy. by rewrite !IH.
Qed.

Lemma place_layers_frame r st st' layers md pos :
  same_frame st st' → place_layers r st layers md pos = place_layers r st' layers md pos.
Proof.
  intros Hf. unfold place_layers. generalize (seq 0 (S md)). intros ds. revert pos.
  induction ds as [|d ds IH]; intros pos; simpl; [done|].
  rewrite <- IH. f_equal. unfold place_layer.
  destruct Hf as (Hd & Hw & Hh & Hx & Hy & Hc) eqn:Hf'. rewrite Hw, Hx, Hc.
  case_bool_decide; [done|]. by apply place_row_frame.
Qed.

(** A pinned node is skipped by the layered pass. *)
Lemma place_row_pinned st sx d ids k : ∀ i pos,
  k ∈ dragged st → place_row false st sx d i ids pos !! k = pos !! k.
Proof.
  induction ids as [|id ids IH]; intros i pos Hk; simpl; [done|].
  case_bool_decide as Hid; simpl; [by apply IH|].
  rewrite IH by done. apply lookup_insert_ne. by intros ->.
Qed.

Lemma place_layers_pinned st layers md pos k :
  k ∈ dragged st → place_layers false st layers md pos !! k = pos !! k.
Proof.
  intros Hk. unfold place_layers. generalize (seq 0 (S md)). intros ds. revert pos.
  induction ds as [|d ds IH]; intros pos; simpl; [done|].
  rewrite IH. unfold place_layer. case_bool_decide; [done|]. by apply place_row_pinned.
Qed.

(** The placement loops only overwrite: their result is a fixed table
    laid over the table they start from. *)
Lemma place_row_overlay r st sx d ids : ∀ i pos,
  place_row r st sx d i ids pos = place_row r st sx d i ids ∅ ∪ pos.
Proof.
  induction ids as [|id ids IH]; intros i pos; simpl.
  - by rewrite (left_id_L ∅ (∪)).
  - destruct (negb r && bool_decide (id ∈ dragged st)); [apply IH|].
    rewrite IH. rewrite (IH _ (<[id:=_]> ∅)).
    rewrite <- (assoc_L (∪)). f_equal.
    rewrite insert_union_singleton_l. by rewrite insert_empty.
Qed.

Lemma place_layers_overlay r st layers md pos :
  place_layers r st layers md pos = place_layers r st layers md ∅ ∪ pos.
Proof.
  unfold place_layers. generalize (seq 0 (S md)). intros ds.
  assert (H : ∀ base, foldl (place_layer r st layers) (base ∪ pos) ds
                     = foldl (place_layer r st layers) base ds ∪ pos).
  { induction ds as [|d ds IH]; intros base; simpl; [done|].
    rewrite <- IH. f_equal. unfold place_layer. case_bool_decide; [done|].
    rewrite place_row_overlay. rewrite (place_row_overlay _ _ _ _ _ _ base).
    by rewrite (assoc_L (∪)). }
  rewrite <- H. by rewrite (left_id_L ∅ (∪)).
Qed.

Lemma pack_other st ms k : ∀ x pos, k ∉ ms → pack st ms x pos !! k = pos !! k.
Proof.
  induction ms as [|id ms IH]; intros x pos Hk; simpl; [done|].
  apply not_elem_of_cons in Hk as [Hne Hk]. rewrite IH by done.
  by apply lookup_insert_ne.
Qed.

(** Every packed node lands in the top band [y = 40]. *)
Lemma pack_band st ms k : ∀ x pos,
  (k ∈ ms ∨ ∃ x', pos !! k = Some {| Pos.x := x'; Pos.y := 40 |}) →
  ∃ x', pack st ms x pos !! k = Some {| Pos.x := x'; Pos.y := 40 |}.
Proof.
  induction ms as [|id ms IH]; intros x pos Hk; simpl.
  - destruct Hk as [Hk|Hk]; [by apply elem_of_nil in Hk|done].
  - apply IH. destruct (decide (k = id)) as [->|Hne].
    + right. eexists. apply lookup_insert_eq.
    + destruct Hk as [Hk|[x' Hk]].
      * left. by apply elem_of_cons in Hk as [?|?].
      * right. exists x'. by rewrite lookup_insert_ne.
Qed.

Lemma collect_missing_spec ns pos : ∀ acc,
  (Forall (λ n, is_Some n) ns ∧
   collect_missing ns pos acc = Ret (acc ++ filter (λ k, pos !! k = None) (ids_of ns))) ∨
  (¬ Forall (λ n, is_Some n) ns ∧ collect_missing ns pos acc = Throw TypeError).
Proof.
  induction ns as [|[n|] ns IH]; intros acc; simpl.
  - left. split; [constructor|]. by rewrite app_nil_r.
  - change (ids_of (Some n :: ns)) with (Node.id n :: ids_of ns). rewrite filter_cons.
    destruct (IH (if has pos (Node.id n) then acc else acc ++ [Node.id n]))
      as [[Hall ->]|[Hnot ->]].
    + left. split; [by constructor|]. f_equal.
      destruct (has pos (Node.id n)) eqn:Hhas.
      * apply has_true in Hhas. rewrite decide_False; [done|].
        intros Hn. rewrite Hn in Hhas. by destruct Hhas.
      * apply has_false in Hhas. rewrite decide_True by done. by rewrite <- app_assoc.
    + right. split; [|done]. intros Hall. apply Hnot. by apply Forall_cons in Hall as [_ ?].
  - right. split; [|done]. intros Hall. apply Forall_cons in Hall as [[? [=]] _].
Qed.

(** What [_ensurePositionsForMissing] does to the table. *)
Lemma ensure_spec st :
  (∃ ms, collect_missing (nodes_of st) (positions st) [] = Ret ms ∧
     ms = filter (λ k, positions st !! k = None) (node_ids st) ∧
     Forall (λ n, is_Some n) (nodes_of st) ∧
     _ensurePositionsForMissing st
     = (Ret tt, set_positions (pack st ms 40 (positions st)) st)) ∨
  (¬ Forall (λ n, is_Some n) (nodes_of st) ∧
   _ensurePositionsForMissing st = (Throw TypeError, st)).
Proof.
  unfold _ensurePositionsForMissing.
  destruct (collect_missing_spec (nodes_of st) (positions st) []) as [[Hall ->]|[Hnot ->]].
  - left. eexists. split_and!; [done..|]. simpl.
    case_bool_decide as Hlen; [|done].
    apply length_zero_iff_nil in Hlen. rewrite Hlen. simpl. by destruct st.
  - by right.
Qed.

Lemma ensure_keeps st k p :
  positions st !! k = Some p → positions (_ensurePositionsForMissing st).2 !! k = Some p.
Proof.
  intros Hk. destruct (ensure_spec st) as [(ms & _ & Hms & _ & ->)|[_ ->]]; [|done].
  simpl. rewrite pack_other; [done|]. rewrite Hms.
  intros [Hn _]%list_elem_of_filter. congruence.
Qed.

Lemma ensure_covers st st' :
  _ensurePositionsForMissing st = (Ret tt, st') →
  ∀ n, Some n ∈ nodes_of st →
    is_Some (positions st' !! Node.id n) ∧
    (positions st !! Node.id n = None →
     ∃ x, positions st' !! Node.id n = Some {| Pos.x := x; Pos.y := 40 |}).
Proof.
  intros He n Hn.
  destruct (ensure_spec st) as [(ms & _ & Hms & _ & He')|[_ He']]; [|congruence].
  rewrite He' in He. injection He as <-. simpl.
  assert (Hid : Node.id n ∈ node_ids st).
  { apply list_elem_of_fmap. by exists (Some n). }
  destruct (positions st !! Node.id n) as [p|] eqn:Hp.
  - split; [|done]. rewrite pack_other; [by rewrite Hp|].
    rewrite Hms. intros [? _]%list_elem_of_filter. congruence.
  - assert (Node.id n ∈ ms) as Hin by (rewrite Hms; by apply list_elem_of_filter).
    destruct (pack_band st ms (Node.id n) 40 (positions st)) as [x Hx]; [by left|].
    split; [by rewrite Hx|]. intros _. by exists x.
Qed.

Lemma filter_nil_intro {A} (P : A → Prop) `{∀ x, Decision (P x)} (l : list A) :
  (∀ x, x ∈ l → ¬ P x) → filter P l = [].
Proof.
  intros Hl. destruct (filter P l) as [|a l'] eqn:Hf; [done|].
  assert (a ∈ filter P l) as [Ha Hin]%list_elem_of_filter by (rewrite Hf; left).
  by destruct (Hl a Hin).
Qed.

(** A second run on the table it produced changes nothing. *)
Lemma ensure_fixpoint st st' :
  nodes_of st' = nodes_of st →
  positions st' = positions (_ensurePositionsForMissing st).2 →
  positions (_ensurePositionsForMissing st').2 = positions st'.
Proof.
  intros Hns Hpos.
  destruct (ensure_spec st') as [(ms' & _ & Hms' & Hall & ->)|[_ ->]]; [|done].
  simpl. assert (ms' = []) as ->; [|done].
  rewrite Hms'. apply filter_nil_intro. intros k Hk Hnone.
  apply list_elem_of_fmap in Hk as (n & -> & Hn).
  rewrite Forall_forall in Hall. destruct (Hall _ Hn) as [n' ->]. simpl in Hnone.
  rewrite Hns in Hn, Hall.
  destruct (_ensurePositionsForMissing st) as [r st1] eqn:He.
  destruct (ensure_spec st) as [(ms & _ & _ & _ & He')|[Hnot _]].
  - rewrite He in He'. injection He' as -> ->.
    destruct (ensure_covers _ _ He _ Hn) as [[p Hp] _].
    simpl in Hpos. rewrite Hpos in Hnone. simpl in Hp. congruence.
  - apply Hnot. by apply Forall_forall.
Qed.

(** The table the layered pass and the fallback produce is stable under a
    second layered pass. *)
Lemma place_layers_fixpoint st layers md pos :
  let st1 := set_positions (place_layers false st layers md pos) st in
  let pos1 := positions (_ensurePositionsForMissing st1).2 in
  place_layers false st layers md pos1 = pos1.
Proof.
  intros st1 pos1. rewrite place_layers_overlay. apply map_eq. intros k.
  destruct (place_layers false st layers md ∅ !! k) as [p|] eqn:HF.
  - rewrite (lookup_union_Some_l _ _ _ _ HF). symmetry. apply ensure_keeps. simpl.
    rewrite place_layers_overlay. by apply lookup_union_Some_l.
  - by rewrite lookup_union_r.
Qed.

(** * [relayout] *)

Lemma positions_log msg st : positions (log msg st) = positions st.
Proof. unfold log. by destruct (logEl st). Qed.

Lemma dragged_log msg st : dragged (log msg st) = dragged st.
Proof. unfold log. by destruct (logEl st). Qed.

Lemma topoSort_log msg st : topoSort (log msg st) = topoSort st.
Proof. unfold log. by destruct (logEl st). Qed.

Lemma ensure_frame st :
  (_ensurePositionsForMissing st).2
  = set_positions (positions (_ensurePositionsForMissing st).2) st.
Proof.
  destruct (ensure_spec st) as [(ms & _ & _ & _ & ->)|[_ ->]]; simpl; [done|by destruct st].
Qed.

Lemma relayout_cycle r st res :
  topoSort st = Ret res → ok res = false →
  relayout r st = (Ret tt, log cycle_message (if r then set_dragged ∅ st else st)).
Proof.
  intros Ht Hok. unfold relayout.
  replace (topoSort (if r then set_dragged ∅ st else st)) with (topoSort st)
    by (by destruct r).
  rewrite Ht, Hok. done.
Qed.

Lemma relayout_ok r st res depth :
  topoSort st = Ret res → ok res = true → _computeDepths (order res) st = Ret depth →
  relayout r st
  = _ensurePositionsForMissing
      (set_positions (layered r st (order res) depth) (reset_state r st)).
Proof.
  intros Ht Hok Hd. unfold relayout, layered, reset_state.
  replace (topoSort (if r then set_dragged ∅ st else st)) with (topoSort st)
    by (by destruct r).
  rewrite Ht, Hok. simpl.
  replace (_computeDepths (order res) (if r then set_dragged ∅ st else st))
    with (_computeDepths (order res) st) by (by destruct r).
  rewrite Hd. destruct (group_layers (order res) depth ∅ 0) as [layers md].
  by destruct r.
Qed.

(** The ways a call of [relayout] can go. *)
Lemma relayout_cases r st :
  (relayout r st).2 = (if r then set_dragged ∅ st else st) ∨
  (∃ res, topoSort st = Ret res ∧ ok res = false) ∨
  (∃ res depth, topoSort st = Ret res ∧ ok res = true ∧
     _computeDepths (order res) st = Ret depth).
Proof.
  unfold relayout.
  replace (topoSort (if r then set_dragged ∅ st else st)) with (topoSort st)
    by (by destruct r).
  replace (λ res : TopoResult, _computeDepths (order res) (if r then set_dragged ∅ st else st))
    with (λ res : TopoResult, _computeDepths (order res) st) by (by destruct r).
  destruct (topoSort st) as [res| |]; [|by left..].
  destruct (ok res) eqn:Hok; [|right; left; by exists res].
  replace (_computeDepths (order res) (if r then set_dragged ∅ st else st))
    with (_computeDepths (order res) st) by (by destruct r).
  destruct (_computeDepths (order res) st) as [depth| |] eqn:Hd; [|by left..].
  right. right. by exists res, depth.
Qed.

(** C6: when [topoSort] reports a cycle, [relayout] returns normally: it
    throws nothing, appends the cycle message to the log and leaves every
    entry of [positions] as it was. *)
Theorem relayout_cycle_preserves_positions resetDragged st res :
  topoSort st = Ret res → ok res = false →
  relayout resetDragged st
  = (Ret tt, log cycle_message (if resetDragged then set_dragged ∅ st else st)) ∧
  positions (relayout resetDragged st).2 = positions st.
Proof.
  intros Ht Hok. rewrite (relayout_cycle _ _ _ Ht Hok). split; [done|].
  simpl. rewrite positions_log. by destruct resetDragged.
Qed.

Lemma relayout_cycle_preserves_positions_witness :
  topoSort loop2_over_chain = Ret {| ok := false; order := [] |} ∧
  relayout true loop2_over_chain
  = (Ret tt, log cycle_message (set_dragged ∅ loop2_over_chain)) ∧
  positions (relayout true loop2_over_chain).2 = positions loop2_over_chain.
Proof.
  split; [vm_compute; reflexivity|].
  apply (relayout_cycle_preserves_positions true loop2_over_chain
           {| ok := false; order := [] |}).
  - vm_compute. reflexivity.
  - reflexivity.
Defined.

(** C9: two calls of [relayout] with [resetDragged = false] in a row, with
    nothing changed in between, leave the same [positions] table. *)
Theorem relayout_idempotent st :
  positions (relayout false (relayout false st).2).2 = positions (relayout false st).2.
Proof.
  destruct (relayout_cases false st) as [Hsame|[(res & Ht & Hok)|(res & depth & Ht & Hok & Hd)]].
  - simpl in Hsame. by rewrite !Hsame.
  - rewrite (relayout_cycle _ _ _ Ht Hok). simpl.
    rewrite (relayout_cycle false (log cycle_message st) res);
      [|by rewrite topoSort_log|done].
    simpl. by rewrite !positions_log.
  - rewrite (relayout_ok _ _ _ _ Ht Hok Hd). simpl.
    unfold layered, reset_state.
    destruct (group_layers (order res) depth ∅ 0) as [layers md] eqn:Hg.
    set (q1 := place_layers false st layers md (positions st)).
    set (st1 := (_ensurePositionsForMissing (set_positions q1 st)).2).
    assert (Hst1 : st1 = set_positions (positions st1) st).
    { unfold st1. by rewrite ensure_frame at 1. }
    assert (Ht1 : topoSort st1 = Ret res) by (rewrite Hst1; exact Ht).
    assert (Hd1 : _computeDepths (order res) st1 = Ret depth) by (rewrite Hst1; exact Hd).
    rewrite (relayout_ok false st1 res depth Ht1 Hok Hd1).
    unfold layered, reset_state. rewrite Hg.
    assert (Hq : place_layers false st1 layers md (positions st1) = positions st1).
    { rewrite (place_layers_frame _ st1 st); [|by rewrite Hst1].
      apply place_layers_fixpoint. }
    rewrite Hq.
    apply (ensure_fixpoint (set_positions q1 st) (set_positions (positions st1) st1));
      [|done].
    change (nodes_of st1 = nodes_of st). by rewrite Hst1.
Qed.

(** * Layer depths *)

Lemma deepest_ok depth deps : ∀ d,
  Forall (λ dp, is_Some dp) deps →
  deepest deps depth d
  = Ret (Nat.max d (max_list_with (λ dp, depth_at depth (depId_of dp) + 1) deps)).
Proof.
  induction deps as [|[dp|] deps IH]; intros d Hall.
  - simpl. by rewrite Nat.max_0_r.
  - apply Forall_cons in Hall as [_ Hall]. cbn [deepest]. rewrite IH by done.
    f_equal. cbn [max_list_with]. unfold depth_at. simpl. lia.
  - apply Forall_cons in Hall as [[? [=]] _].
Qed.

Lemma max_list_with_succ {A} (f : A → nat) (l : list A) :
  max_list_with (λ a, f a + 1) l
  = match l with [] => 0 | _ => 1 + max_list_with f l end.
Proof.
  induction l as [|a l IH]; [done|].
  cbn [max_list_with]. rewrite IH. destruct l; simpl; lia.
Qed.

Lemma deepest_layer_depth depth n :
  Forall (λ dp, is_Some dp) (deps_of n) →
  deepest (deps_of n) depth 0 = Ret (layer_depth depth n).
Proof.
  intros Hall. rewrite deepest_ok by done. rewrite max_list_with_succ. unfold layer_depth.
  by destruct (deps_of n).
Qed.

Lemma max_list_with_ext {A} (f g : A → nat) (l : list A) :
  (∀ a, a ∈ l → f a = g a) → max_list_with f l = max_list_with g l.
Proof.
  induction l as [|a l IH]; intros Hfg; [done|]. cbn [max_list_with].
  rewrite IH by (intros; apply Hfg; by right). rewrite Hfg; [done|left].
Qed.

Lemma max_list_with_above {A} (f : A → nat) (l : list A) a :
  a ∈ l → f a ≤ max_list_with f l.
Proof. induction 1; cbn [max_list_with]; lia. Qed.

Lemma layer_depth_agree depth depth' n :
  (∀ d, d ∈ deps_of n → depth' !! depId_of d = depth !! depId_of d) →
  layer_depth depth' n = layer_depth depth n.
Proof.
  intros Hagree. unfold layer_depth.
  destruct (deps_of n) as [|d0 l]; [done|]. f_equal.
  apply max_list_with_ext. intros d Hd. unfold depth_at. by rewrite Hagree.
Qed.

Lemma layer_depth_above depth n d :
  d ∈ deps_of n → depth_at depth (depId_of d) < layer_depth depth n.
Proof.
  unfold layer_depth. intros Hd.
  destruct (deps_of n) as [|d0 l]; [by apply elem_of_nil in Hd|].
  pose proof (max_list_with_above (λ d, depth_at depth (depId_of d)) _ _ Hd). simpl in *. lia.
Qed.

Section depth_pass.
Variables (byId : gmap key Node.t) (order : list key).
Hypothesis order_nodup : NoDup order.
Hypothesis order_nodes :
  ∀ id, id ∈ order → ∃ n, byId !! id = Some n ∧ Forall (λ dp, is_Some dp) (deps_of n).
Hypothesis order_deps :
  ∀ i id n d, order !! i = Some id → byId !! id = Some n → d ∈ deps_of n →
    ∃ j, j < i ∧ order !! j = Some (depId_of d).

Lemma deps_settled done id rest id0 n0 d :
  order = done ++ id :: rest → id0 ∈ done ++ [id] → byId !! id0 = Some n0 →
  d ∈ deps_of n0 → depId_of d ∈ done ∧ depId_of d ≠ id.
Proof.
  intros Horder Hid0 Hn0 Hd.
  assert (Hin : depId_of d ∈ done).
  { apply list_elem_of_lookup in Hid0 as [i Hi].
    assert (Hlt : i < length (done ++ [id])) by (by eapply lookup_lt_Some).
    rewrite length_app in Hlt. simpl in Hlt.
    assert (Hi' : order !! i = Some id0).
    { rewrite Horder. rewrite (app_assoc done [id] rest) || rewrite cons_middle, app_assoc.
      by apply lookup_app_l_Some. }
    destruct (order_deps _ _ _ _ Hi' Hn0 Hd) as (j & Hj & Hoj).
    rewrite Horder in Hoj. rewrite lookup_app_l in Hoj by lia.
    by eapply list_elem_of_lookup_2. }
  split; [done|]. intros Heq. rewrite Horder in order_nodup.
  apply NoDup_app in order_nodup as (_ & Hdisj & _).
  apply (Hdisj _ Hin). rewrite Heq. left.
Qed.

Lemma depth_pass_ok rest : ∀ done depth,
  order = done ++ rest → settled byId done depth →
  ∃ depth', depth_pass rest byId depth = Ret depth' ∧ settled byId order depth'.
Proof.
  induction rest as [|id rest IH]; intros done depth Horder Hset.
  - exists depth. rewrite app_nil_r in Horder. by subst.
  - simpl. destruct (order_nodes id) as (n & Hn & Hall).
    { rewrite Horder. apply elem_of_app. right. left. }
    rewrite Hn. rewrite deepest_layer_depth by done. simpl.
    apply (IH (done ++ [id])).
    + by rewrite <- app_assoc.
    + intros id0 n0 Hid0 Hn0.
      rewrite (layer_depth_agree depth (<[id:=layer_depth depth n]> depth) n0).
      2:{ intros d Hd. destruct (deps_settled _ _ _ _ _ _ Horder Hid0 Hn0 Hd) as [_ Hne].
          by apply lookup_insert_ne. }
      apply elem_of_app in Hid0 as [Hid0| ->%list_elem_of_singleton].
      * rewrite lookup_insert_ne; [by apply Hset|].
        intros <-. rewrite Horder in order_nodup.
        apply NoDup_app in order_nodup as (_ & Hdisj & _). apply (Hdisj _ Hid0). left.
      * rewrite lookup_insert_eq. congruence.
Qed.
End depth_pass.

Lemma computeDepths_valid st order :
  valid_graph st → topological st order →
  ∃ depth, _computeDepths order st = Ret depth ∧
    (∀ n, Some n ∈ nodes_of st → depth !! Node.id n = Some (layer_depth depth n)) ∧
    (∀ e, e ∈ edges st → depth_at depth (from e) < depth_at depth (to e)).
Proof.
  intros Hv [Hnd Hmem Hfw].
  assert (Hnode : ∀ id, id ∈ order → ∃ n, Some n ∈ nodes_of st ∧ Node.id n = id).
  { intros id Hid. apply Hmem in Hid. apply list_elem_of_fmap in Hid as (n0 & -> & Hn0).
    pose proof (valid_nodes _ Hv) as Hgood. rewrite Forall_forall in Hgood.
    destruct (Hgood _ Hn0) as (n & s & -> & _). by exists n. }
  destruct (depth_pass_ok (byId st) order Hnd) with (rest := order) (done := @nil key)
    (depth := foldl (λ depth id, <[id := 0]> depth) (∅ : gmap key nat) order)
    as (depth & Hpass & Hset).
  - intros id Hid. destruct (Hnode id Hid) as (n & Hn & Hidn). exists n. split.
    + by apply (valid_byId _ Hv).
    + apply Forall_forall. intros d Hd.
      destruct (valid_deps _ Hv _ _ Hn Hd) as (d' & -> & _). done.
  - intros i id n d Hi Hn Hd.
    apply (valid_byId _ Hv) in Hn as [Hn Hidn].
    destruct (Hfw {| from := depId_of d; to := Node.id n |}) as (i' & j' & Hi' & Hj' & Hlt).
    { rewrite (valid_edges _ Hv). apply edges_of_elem. by exists n, d. }
    simpl in *. rewrite Hidn in Hj'.
    assert (j' = i) as -> by (eapply NoDup_lookup; done). by exists i'.
  - done.
  - intros id n Hid. by apply elem_of_nil in Hid.
  - exists depth. split; [done|].
    assert (Hall : ∀ n, Some n ∈ nodes_of st → depth !! Node.id n = Some (layer_depth depth n)).
    { intros n Hn. apply Hset.
      - apply Hmem. apply list_elem_of_fmap. by exists (Some n).
      - by apply (valid_byId _ Hv). }
    split; [done|]. intros e He. rewrite (valid_edges _ Hv) in He.
    apply edges_of_elem in He as (n & d & Hn & Hd & ->). simpl.
    unfold depth_at at 2. rewrite (Hall _ Hn). simpl. by apply layer_depth_above.
Qed.

Lemma chain_topological : topological chain_state [Some "A"%string; Some "B"%string].
Proof.
  split.
  - apply (bool_decide_unpack _). vm_compute. exact I.
  - intros k. by change (node_ids chain_state) with [Some "A"%string; Some "B"%string].
  - change (edges chain_state) with [{| from := Some "A"%string; to := Some "B"%string |}].
    intros e ->%list_elem_of_singleton. exists 0, 1. split_and!; [done|done|lia].
Qed.

(** C7: on a validly loaded graph and a topological order of it,
    [_computeDepths] returns a table in which a node without dependencies
    has depth [0] and any other node has [1] plus the largest depth among
    its dependencies; hence along every edge the depth strictly grows. *)
Theorem computeDepths_layer_depth w st0 st order :
  setData w st0 = (Ret tt, st) → topological st order →
  ∃ depth, _computeDepths order st = Ret depth ∧
    (∀ n, Some n ∈ nodes_of st →
       depth !! Node.id n
       = Some (match deps_of n with
               | [] => 0
               | deps => 1 + max_list_with (λ d, depth_at depth (depId_of d)) deps
               end)) ∧
    (∀ e, e ∈ edges st → depth_at depth (from e) < depth_at depth (to e)).
Proof.
  intros Hload Htopo.
  exact (computeDepths_valid st order (setData_valid _ _ _ Hload) Htopo).
Qed.

Lemma computeDepths_layer_depth_witness :
  setData chain fresh = (Ret tt, chain_state) ∧
  ∃ depth, _computeDepths [Some "A"%string; Some "B"%string] chain_state = Ret depth ∧
    (∀ n, Some n ∈ nodes_of chain_state →
       depth !! Node.id n
       = Some (match deps_of n with
               | [] => 0
               | deps => 1 + max_list_with (λ d, depth_at depth (depId_of d)) deps
               end)) ∧
    (∀ e, e ∈ edges chain_state → depth_at depth (from e) < depth_at depth (to e)).
Proof.
  split; [vm_compute; reflexivity|].
  apply (computeDepths_layer_depth chain fresh chain_state).
  - vm_compute. reflexivity.
  - exact chain_topological.
Defined.

(** * Rows of the layered pass *)

Lemma layer_row_cons order depth d id :
  layer_row (id :: order) depth d
  = if decide (depth_at depth id = d) then id :: layer_row order depth d
    else layer_row order depth d.
Proof. unfold layer_row. by rewrite filter_cons. Qed.

Lemma group_layers_spec depth ids : ∀ layers md layers' md',
  group_layers ids depth layers md = (layers', md') →
  (∀ d, default [] (layers' !! d) = default [] (layers !! d) ++ layer_row ids depth d) ∧
  md ≤ md' ∧ ∀ id, id ∈ ids → depth_at depth id ≤ md'.
Proof.
  induction ids as [|id ids IH]; intros layers md layers' md' Hg; simpl in Hg.
  - injection Hg as <- <-. split_and!; [|done|by intros id ?%elem_of_nil].
    intros d. by rewrite app_nil_r.
  - apply IH in Hg as (Hrows & Hmd & Hids). fold (depth_at depth id) in *.
    split_and!.
    + intros d. rewrite Hrows, layer_row_cons, lookup_insert.
      destruct (decide (depth_at depth id = d)) as [->|Hne].
      * simpl. by rewrite <- app_assoc.
      * done.
    + lia.
    + intros id' [->|Hin]%elem_of_cons; [lia|by apply Hids].
Qed.

Lemma place_row_other r st sx d ids k : ∀ i pos,
  k ∉ ids → place_row r st sx d i ids pos !! k = pos !! k.
Proof.
  induction ids as [|id ids IH]; intros i pos Hk; simpl; [done|].
  apply not_elem_of_cons in Hk as [Hne Hk].
  destruct (negb r && bool_decide (id ∈ dragged st)); rewrite IH by done; [done|].
  by apply lookup_insert_ne.
Qed.

Lemma place_row_at st sx d ids k : ∀ i j pos,
  NoDup ids → ids !! j = Some k →
  place_row true st sx d i ids pos !! k
  = Some {| Pos.x := (sx + nat_to_float (i + j) * (NODE_W st + GAP_X st))%float;
            Pos.y := (60 + nat_to_float d * (NODE_H st + GAP_Y st))%float |}.
Proof.
  induction ids as [|id ids IH]; intros i j pos Hnd Hj; [done|].
  apply NoDup_cons in Hnd as [Hid Hnd]. simpl.
  destruct j as [|j]; simpl in Hj.
  - injection Hj as ->. rewrite place_row_other by done.
    rewrite lookup_insert_eq. by rewrite Nat.add_0_r.
  - rewrite (IH (S i) j) by done. by rewrite Nat.add_succ_r.
Qed.

Lemma place_layer_other r st layers pos d k :
  k ∉ default [] (layers !! d) → place_layer r st layers pos d !! k = pos !! k.
Proof.
  intros Hk. unfold place_layer. case_bool_decide; [done|]. by apply place_row_other.
Qed.

Lemma place_layer_at st layers pos d j k :
  NoDup (default [] (layers !! d)) → default [] (layers !! d) !! j = Some k →
  place_layer true st layers pos d !! k
  = Some (layer_slot st (length (default [] (layers !! d))) d j).
Proof.
  intros Hnd Hj. unfold place_layer. case_bool_decide as Hlen.
  - apply length_zero_iff_nil in Hlen. by rewrite Hlen in Hj.
  - by rewrite (place_row_at _ _ _ _ _ 0 j).
Qed.

Lemma place_layers_skip r st layers k ds :
  (∀ d', d' ∈ ds → k ∉ default [] (layers !! d')) →
  ∀ pos, foldl (place_layer r st layers) pos ds !! k = pos !! k.
Proof.
  induction ds as [|d ds IH]; intros Hskip pos; simpl; [done|].
  rewrite IH by (intros; apply Hskip; by right).
  apply place_layer_other, Hskip. left.
Qed.

Lemma place_layers_at st layers md pos d j k :
  (∀ d', NoDup (default [] (layers !! d'))) →
  (∀ d', k ∈ default [] (layers !! d') → d' = d) →
  default [] (layers !! d) !! j = Some k → d ≤ md →
  place_layers true st layers md pos !! k
  = Some (layer_slot st (length (default [] (layers !! d))) d j).
Proof.
  intros Hnd Honly Hj Hd. unfold place_layers.
  assert (Hds : d ∈ seq 0 (S md)) by (apply elem_of_seq; lia).
  pose proof (NoDup_seq 0 (S md)) as Hseq. revert Hds Hseq pos.
  generalize (seq 0 (S md)). intros ds. induction ds as [|d0 ds IH]; intros Hds Hseq pos.
  - by apply elem_of_nil in Hds.
  - apply NoDup_cons in Hseq as [Hd0 Hseq]. simpl.
    destruct (decide (d0 = d)) as [->|Hne].
    + rewrite place_layers_skip; [by apply place_layer_at|].
      intros d' Hd' Hin. apply Honly in Hin. congruence.
    + apply IH; [|done]. by apply elem_of_cons in Hds as [?|?].
Qed.

(** With a full reset, a node of the order gets the slot of its row. *)
Lemma layered_reset_at st order depth k :
  NoDup order → k ∈ order →
  ∃ i, layer_row order depth (depth_at depth k) !! i = Some k ∧
    layered true st order depth !! k
    = Some (layer_slot st (length (layer_row order depth (depth_at depth k)))
              (depth_at depth k) i).
Proof.
  intros Hnd Hk. unfold layered.
  destruct (group_layers order depth ∅ 0) as [layers md] eqn:Hg.
  apply group_layers_spec in Hg as (Hrows & _ & Hmd).
  assert (Hrow : ∀ d, default [] (layers !! d) = layer_row order depth d).
  { intros d. rewrite Hrows. by rewrite lookup_empty. }
  assert (Hin : k ∈ layer_row order depth (depth_at depth k)).
  { apply list_elem_of_filter. done. }
  apply list_elem_of_lookup in Hin as [i Hi]. exists i. split; [done|].
  rewrite <- !Hrow.
  apply (place_layers_at (reset_state true st)).
  - intros d'. rewrite Hrow. by apply NoDup_filter.
  - intros d'. rewrite Hrow. by intros [? _]%list_elem_of_filter.
  - by rewrite Hrow.
  - by apply Hmd.
Qed.

(** * Claims about [relayout] *)

Lemma valid_graph_frame st st' :
  data st' = data st → byId st' = byId st → edges st' = edges st →
  valid_graph st → valid_graph st'.
Proof.
  intros Hd Hb He [H1 H2 H3 H4 H5].
  assert (Hns : nodes_of st' = nodes_of st) by (unfold nodes_of; by rewrite Hd).
  split; unfold node_ids; rewrite ?Hns, ?Hb, ?He; done.
Qed.

Lemma dragged_ensure st : dragged (_ensurePositionsForMissing st).2 = dragged st.
Proof. by rewrite ensure_frame. Qed.

Lemma relayout_reset_dragged st : dragged (relayout true st).2 = ∅.
Proof.
  destruct (relayout_cases true st) as [->|[(res & Ht & Hok)|(res & depth & Ht & Hok & Hd)]].
  - done.
  - rewrite (relayout_cycle _ _ _ Ht Hok). simpl. by rewrite dragged_log.
  - rewrite (relayout_ok _ _ _ _ Ht Hok Hd). by rewrite dragged_ensure.
Qed.

Lemma chain_dragged_valid : valid_graph chain_dragged.
Proof.
  apply (valid_graph_frame chain_state); [done..|].
  apply (setData_valid chain fresh). vm_compute. reflexivity.
Qed.




(** With a full reset the last occurrence of an id in a row decides its
    slot. *)
Lemma place_row_last st sx d ids k : ∀ i pos,
  k ∈ ids →
  ∃ j, ids !! j = Some k ∧
    place_row true st sx d i ids pos !! k
    = Some {| Pos.x := (sx + nat_to_float (i + j) * (NODE_W st + GAP_X st))%float;
              Pos.y := (60 + nat_to_float d * (NODE_H st + GAP_Y st))%float |}.
Proof.
  induction ids as [|id ids IH]; intros i pos Hk; [by apply elem_of_nil in Hk|].
  simpl. destruct (decide (k ∈ ids)) as [Hin|Hout].
  - destruct (IH (S i) (<[id := {|
        Pos.x := (sx + nat_to_float i * (NODE_W st + GAP_X st))%float;
        Pos.y := (60 + nat_to_float d * (NODE_H st + GAP_Y st))%float |}]> pos) Hin)
      as (j & Hj & Hat).
    exists (S j). split; [done|]. by rewrite Hat, Nat.add_succ_r.
  - apply elem_of_cons in Hk as [->|Hk]; [|done].
    exists 0. split; [done|]. rewrite place_row_other by done.
    by rewrite lookup_insert_eq, Nat.add_0_r.
Qed.

Lemma place_layers_last st layers md pos d k :
  (∀ d', k ∈ default [] (layers !! d') → d' = d) →
  k ∈ default [] (layers !! d) → d ≤ md →
  ∃ j, default [] (layers !! d) !! j = Some k ∧
    place_layers true st layers md pos !! k
    = Some (layer_slot st (length (default [] (layers !! d))) d j).
Proof.
  intros Honly Hk Hd. unfold place_layers.
  assert (Hds : d ∈ seq 0 (S md)) by (apply elem_of_seq; lia).
  pose proof (NoDup_seq 0 (S md)) as Hseq. revert Hds Hseq pos.
  generalize (seq 0 (S md)). intros ds. induction ds as [|d0 ds IH]; intros Hds Hseq pos.
  - by apply elem_of_nil in Hds.
  - apply NoDup_cons in Hseq as [Hd0 Hseq]. simpl.
    destruct (decide (d0 = d)) as [->|Hne].
    + assert (Hlen : length (default [] (layers !! d)) ≠ 0).
      { intros Hlen%length_zero_iff_nil. rewrite Hlen in Hk. by apply elem_of_nil in Hk. }
      destruct (place_row_last st
                  (Math_max 40
                     ((clientWidth st
                       - (nat_to_float (length (default [] (layers !! d))) * NODE_W st
                          + nat_to_float (length (default [] (layers !! d)) - 1) * GAP_X st))
                      / 2)%float)
                  d (default [] (layers !! d)) k 0 pos Hk) as (j & Hj & Hat).
      exists j. split; [done|]. rewrite place_layers_skip.
      * unfold place_layer. rewrite bool_decide_eq_false_2 by done. by rewrite Hat.
      * intros d' Hd' Hin. apply Honly in Hin. congruence.
    + apply IH; [|done]. by apply elem_of_cons in Hds as [?|?].
Qed.

(** With a full reset every id of the order gets a slot of the row of its
    depth, whatever the order holds. *)
Lemma layered_reset_last st order depth k :
  k ∈ order →
  ∃ i, layer_row order depth (depth_at depth k) !! i = Some k ∧
    layered true st order depth !! k
    = Some (layer_slot st (length (layer_row order depth (depth_at depth k)))
              (depth_at depth k) i).
Proof.
  intros Hk. unfold layered.
  destruct (group_layers order depth ∅ 0) as [layers md] eqn:Hg.
  apply group_layers_spec in Hg as (Hrows & _ & Hmd).
  assert (Hrow : ∀ d, default [] (layers !! d) = layer_row order depth d).
  { intros d. rewrite Hrows. by rewrite lookup_empty. }
  assert (Hin : k ∈ layer_row order depth (depth_at depth k)).
  { apply list_elem_of_filter. done. }
  rewrite <- !Hrow.
  apply (place_layers_last (reset_state true st)).
  - intros d'. rewrite Hrow. by intros [? _]%list_elem_of_filter.
  - by rewrite Hrow.
  - by apply Hmd.
Qed.

(** C5: a node [k] pinned at [p] is still at [p] after [relayout] with
    [resetDragged = false], in every state.  [relayout] with
    [resetDragged = true] empties the pinned set in every state, and when
    [topoSort] is ok and the depths are computed it puts every id [k] of
    the order, pinned or not, in the slot the layered algorithm gives it:
    the row of its depth, at an index it has among the ids of that depth in
    topological order; on a valid graph the depths are computed.  (When
    [topoSort] is not ok, the case the cycle guard sets apart, the call
    leaves the whole table as it is.) *)
Theorem pin_preservation st k p :
  (k ∈ dragged st → positions st !! k = Some p →
   positions (relayout false st).2 !! k = Some p) ∧
  dragged (relayout true st).2 = ∅ ∧
  (∀ order, topoSort st = Ret {| ok := true; order := order |} →
   (valid_graph st → ∃ depth, _computeDepths order st = Ret depth) ∧
   ∀ depth, _computeDepths order st = Ret depth → k ∈ order →
     ∃ i, layer_row order depth (depth_at depth k) !! i = Some k ∧
       positions (relayout true st).2 !! k
       = Some (layer_slot st (length (layer_row order depth (depth_at depth k)))
                 (depth_at depth k) i)) ∧
  (∀ res, topoSort st = Ret res → ok res = false →
   positions (relayout true st).2 = positions st).
Proof.
  split_and!.
  - intros Hk Hp.
    destruct (relayout_cases false st)
      as [->|[(res & Ht & Hok)|(res & depth & Ht & Hok & Hd)]].
    + done.
    + rewrite (relayout_cycle _ _ _ Ht Hok). simpl. by rewrite positions_log.
    + rewrite (relayout_ok _ _ _ _ Ht Hok Hd). apply ensure_keeps. simpl.
      unfold layered. simpl. destruct (group_layers (order res) depth ∅ 0) as [layers md].
      by rewrite place_layers_pinned.
  - apply relayout_reset_dragged.
  - intros ord Ht. split.
    + intros Hv.
      destruct (topoSort_valid st Hv) as [(ord' & Ht' & Htopo)|[Ht' _]]; [|congruence].
      rewrite Ht in Ht'. injection Ht' as <-.
      destruct (computeDepths_valid st ord Hv Htopo) as (depth & Hd & _). by exists depth.
    + intros depth Hd Hk.
      destruct (layered_reset_last st ord depth k Hk) as (i & Hi & Hslot).
      exists i. split; [done|].
      rewrite (relayout_ok true st {| ok := true; order := ord |} depth Ht eq_refl Hd).
      by apply ensure_keeps.
  - intros res Ht Hok. rewrite (relayout_cycle _ _ _ Ht Hok). simpl.
    by rewrite positions_log.
Qed.

Lemma pin_preservation_witness :
  (Some "A"%string ∈ dragged chain_dragged ∧
   positions chain_dragged !! Some "A"%string = Some at77 ∧
   positions (relayout false chain_dragged).2 !! Some "A"%string = Some at77) ∧
  (valid_graph chain_dragged ∧
   topoSort chain_dragged
   = Ret {| ok := true; order := [Some "A"%string; Some "B"%string] |} ∧
   ∃ depth i,
     _computeDepths [Some "A"%string; Some "B"%string] chain_dragged = Ret depth ∧
     layer_row [Some "A"%string; Some "B"%string] depth
       (depth_at depth (Some "A"%string)) !! i = Some (Some "A"%string) ∧
     positions (relayout true chain_dragged).2 !! Some "A"%string
     = Some (layer_slot chain_dragged
               (length (layer_row [Some "A"%string; Some "B"%string] depth
                          (depth_at depth (Some "A"%string))))
               (depth_at depth (Some "A"%string)) i)) ∧
  ((setData dangling chain_dragged).1 = Throw (UnknownDep (Some "A"%string) (Some "Z"%string)) ∧
   topoSort dangling_dragged = Ret {| ok := true; order := [Some "A"%string] |} ∧
   _computeDepths [Some "A"%string] dangling_dragged = Ret {[Some "A"%string := 1]} ∧
   positions (relayout true dangling_dragged).2 !! Some "A"%string
   = Some (layer_slot dangling_dragged 1 1 0)) ∧
  (topoSort loop2_dragged = Ret {| ok := false; order := [] |} ∧
   positions (relayout true loop2_dragged).2 = positions loop2_dragged).
Proof.
  assert (Hin : Some "A"%string ∈ dragged chain_dragged).
  { apply (bool_decide_unpack _). vm_compute. exact I. }
  assert (Hpos : positions chain_dragged !! Some "A"%string = Some at77).
  { vm_compute. reflexivity. }
  assert (Hsort : topoSort chain_dragged
                  = Ret {| ok := true; order := [Some "A"%string; Some "B"%string] |}).
  { vm_compute. reflexivity. }
  assert (Hsort' : topoSort dangling_dragged
                   = Ret {| ok := true; order := [Some "A"%string] |}).
  { vm_compute. reflexivity. }
  assert (Hd' : _computeDepths [Some "A"%string] dangling_dragged
                = Ret {[Some "A"%string := 1]}).
  { vm_compute. reflexivity. }
  assert (Hloop : topoSort loop2_dragged = Ret {| ok := false; order := [] |}).
  { vm_compute. reflexivity. }
  split_and!.
  - exact Hin.
  - exact Hpos.
  - exact (proj1 (pin_preservation chain_dragged (Some "A"%string) at77) Hin Hpos).
  - exact chain_dragged_valid.
  - exact Hsort.
  - destruct (proj1 (proj2 (proj2 (pin_preservation chain_dragged (Some "A"%string) at77)))
                _ Hsort) as [Hex Hat].
    destruct (Hex chain_dragged_valid) as [depth Hd]. exists depth.
    destruct (Hat depth Hd) as (i & Hi & Hslot); [left|]. by exists i.
  - vm_compute. reflexivity.
  - exact Hsort'.
  - exact Hd'.
  - destruct (proj2 (proj1 (proj2 (proj2
                (pin_preservation dangling_dragged (Some "A"%string) at77))) _ Hsort')
                _ Hd') as (i & Hi & Hslot); [left|].
    destruct i as [|i]; [exact Hslot|]. vm_compute in Hi. discriminate Hi.
  - exact Hloop.
  - exact (proj2 (proj2 (proj2 (pin_preservation loop2_dragged (Some "A"%string) at77)))
             _ Hloop eq_refl).
Defined.

Lemma relayout_returns r st st' res :
  relayout r st = (Ret tt, st') → topoSort st = Ret res → ok res = true →
  ∃ depth, _computeDepths (order res) st = Ret depth.
Proof.
  unfold relayout.
  replace (topoSort (if r then set_dragged ∅ st else st)) with (topoSort st)
    by (by destruct r).
  replace (_computeDepths (order res) (if r then set_dragged ∅ st else st))
    with (_computeDepths (order res) st) by (by destruct r).
  intros Hrun Ht Hok. rewrite Ht, Hok in Hrun. simpl in Hrun.
  replace (_computeDepths (order res) (if r then set_dragged ∅ st else st))
    with (_computeDepths (order res) st) in Hrun by (by destruct r).
  destruct (_computeDepths (order res) st) as [depth| |]; [by exists depth|done..].
Qed.

Lemma computeDepths_terminates order st : _computeDepths order st ≠ OutOfFuel.
Proof.
  unfold _computeDepths.
  generalize (foldl (λ depth id, <[id := 0]> depth) (∅ : gmap key nat) order).
  assert (Hdeep : ∀ deps depth d, deepest deps depth d ≠ OutOfFuel).
  { induction deps as [|[dp|] deps IH]; intros; simpl; [done|apply IH|done]. }
  induction order as [|id order IH]; intros depth; simpl; [done|].
  destruct (byId st !! id) as [n|]; [|done].
  specialize (Hdeep (deps_of n) depth 0).
  destruct (deepest (deps_of n) depth 0); simpl; [apply IH|done..].
Qed.

(** The fuel of the queue loop never runs out: every call of [relayout]
    returns or throws. *)
Lemma relayout_terminates r st : (relayout r st).1 ≠ OutOfFuel.
Proof.
  destruct (relayout_cases r st) as [Hsame|[(res & Ht & Hok)|(res & depth & Ht & Hok & Hd)]].
  - unfold relayout in *.
    pose proof (topoSort_terminates (if r then set_dragged ∅ st else st)) as Hts.
    destruct (topoSort (if r then set_dragged ∅ st else st)) as [res| |]; [|done..].
    destruct (ok res); [|done]. simpl.
    pose proof (computeDepths_terminates (order res) (if r then set_dragged ∅ st else st)) as Hcd.
    destruct (_computeDepths (order res) (if r then set_dragged ∅ st else st)); [|done..].
    destruct (group_layers (order res) a ∅ 0) as [layers md].
    match goal with |- (_ensurePositionsForMissing ?s).1 ≠ _ =>
      destruct (ensure_spec s) as [(ms & _ & _ & _ & ->)|[_ ->]]; done end.
  - by rewrite (relayout_cycle _ _ _ Ht Hok).
  - rewrite (relayout_ok _ _ _ _ Ht Hok Hd).
    match goal with |- (_ensurePositionsForMissing ?s).1 ≠ _ =>
      destruct (ensure_spec s) as [(ms & _ & _ & _ & ->)|[_ ->]]; done end.
Qed.

(** * Self dependency *)

(** A workflow made of one node that depends on itself loads. *)
Lemma self_dependency_loads s st0 :
  trim s ≠ EmptyString → (setData (workflow [node s [s]]) st0).1 = Ret tt.
Proof.
  intros Hs. assert (Hne : s ≠ EmptyString) by (intros ->; by apply Hs).
  unfold setData, _validateAndBuildGraph. simpl.
  rewrite bool_decide_eq_false_2 by done.
  unfold has at 1. rewrite lookup_empty.
  rewrite bool_decide_eq_false_2 by (by intros [? ?]). simpl.
  unfold unknown_dep. simpl.
  rewrite (bool_decide_eq_false_2 (Some s = Some EmptyString)) by congruence.
  unfold has. rewrite lookup_insert_eq.
  rewrite bool_decide_eq_true_2 by (by eexists). done.
Qed.

(** C10: a node whose [depends_on] names its own id gets through the
    load: the reference check accepts the id because the node itself is
    registered, and the graph carries the self-loop edge; it is
    [topoSort] that then answers [ok = false] with an empty order. *)
Theorem self_dependency_found_by_topoSort w st0 st n s :
  setData w st0 = (Ret tt, st) →
  Some n ∈ nodes_of st → Node.id n = Some s → dep s ∈ deps_of n →
  unknown_dep (byId st) (Some s) = false ∧
  {| from := Some s; to := Some s |} ∈ edges st ∧
  topoSort st = Ret {| ok := false; order := [] |}.
Proof.
  intros Hload Hn Hid Hdep. pose proof (setData_valid _ _ _ Hload) as Hv.
  assert (Hedge : {| from := Some s; to := Some s |} ∈ edges st).
  { rewrite (valid_edges _ Hv). apply edges_of_elem. exists n, (dep s).
    split_and!; [done..|]. by rewrite Hid. }
  split_and!; [|done|].
  - pose proof (valid_nodes _ Hv) as Hgood. rewrite Forall_forall in Hgood.
    destruct (Hgood _ Hn) as (n' & s' & [= <-] & Hid' & Hblank).
    assert (s' = s) as -> by congruence.
    assert (Hby : byId st !! Some s = Some n) by (by apply (valid_byId _ Hv)).
    unfold unknown_dep, has. rewrite Hby.
    rewrite (bool_decide_eq_false_2 (Some s = None)) by done.
    rewrite (bool_decide_eq_false_2 (Some s = Some EmptyString)).
    + rewrite bool_decide_eq_true_2 by (by eexists). done.
    + intros [= ->]. by apply Hblank.
  - destruct (topoSort_valid st Hv) as [(order & _ & Htopo)|[Hsort _]]; [|done].
    destruct (topological_acyclic _ _ Htopo (Some s)).
    by apply (reach_edge _ {| from := Some s; to := Some s |}).
Qed.

Lemma self_dependency_found_by_topoSort_witness :
  setData selfdep fresh = (Ret tt, (setData selfdep fresh).2) ∧
  unknown_dep (byId (setData selfdep fresh).2) (Some "A"%string) = false ∧
  {| from := Some "A"%string; to := Some "A"%string |} ∈ edges (setData selfdep fresh).2 ∧
  topoSort (setData selfdep fresh).2 = Ret {| ok := false; order := [] |}.
Proof.
  split; [vm_compute; reflexivity|].
  apply (self_dependency_found_by_topoSort selfdep fresh (setData selfdep fresh).2
           {| Node.id := Some "A"%string; Node.depends_on := Some [dep "A"] |} "A").
  - vm_compute. reflexivity.
  - left.
  - reflexivity.
  - left.
Defined.

(** * More on loading *)

Lemma good_node_id n : good_node n → ∃ s, n ≫= Node.id = Some s ∧ s ≠ EmptyString.
Proof.
  intros (n' & s & -> & Hid & Hblank). exists s. split; [done|]. by intros ->.
Qed.

Lemma good_ids_nonempty ns k :
  Forall good_node ns → k ∈ ids_of ns → ∃ s, k = Some s ∧ s ≠ EmptyString.
Proof.
  intros Hgood (n & -> & Hn)%list_elem_of_fmap.
  rewrite Forall_forall in Hgood. by apply good_node_id, Hgood.
Qed.

Lemma register_nodes_complete ns : ∀ m,
  Forall good_node ns → NoDup (ids_of ns) → (∀ k, k ∈ ids_of ns → m !! k = None) →
  ∃ m', register_nodes ns m = (Ret tt, m').
Proof.
  induction ns as [|n ns IH]; intros m Hgood Hnd Hfresh; [by eexists|].
  apply Forall_cons in Hgood as [(n' & s & -> & Hid & Hblank) Hgood].
  change (ids_of (Some n' :: ns)) with (Node.id n' :: ids_of ns) in *.
  apply NoDup_cons in Hnd as [Hnotin Hnd]. simpl. rewrite Hid.
  rewrite bool_decide_eq_false_2 by done.
  assert (has m (Some s) = false) as ->.
  { apply has_false, Hfresh. rewrite Hid. left. }
  apply IH; [done..|]. intros k Hk. rewrite lookup_insert_ne.
  - apply Hfresh. by right.
  - intros <-. apply Hnotin. by rewrite Hid.
Qed.

Lemma link_deps_complete m nid deps : ∀ es,
  Forall (λ d, unknown_dep m (depId_of d) = false) deps →
  ∃ es', link_deps m nid deps es = (Ret tt, es').
Proof.
  induction deps as [|d deps IH]; intros es Hall; [by eexists|].
  apply Forall_cons in Hall as [Hd Hall]. simpl. rewrite Hd. by apply IH.
Qed.

Lemma link_nodes_complete m ns : ∀ es,
  Forall (λ n, is_Some n) ns →
  (∀ n d, Some n ∈ ns → d ∈ deps_of n → unknown_dep m (depId_of d) = false) →
  ∃ es', link_nodes m ns es = (Ret tt, es').
Proof.
  induction ns as [|n ns IH]; intros es Hsome Hdeps; [by eexists|].
  apply Forall_cons in Hsome as [[n' ->] Hsome]. simpl.
  destruct (link_deps_complete m (Node.id n') (deps_of n') es) as [es1 ->].
  { apply Forall_forall. intros d Hd. apply (Hdeps n'); [left|done]. }
  apply IH; [done|]. intros n d Hn. apply Hdeps. by right.
Qed.

Lemma unknown_dep_true m k :
  unknown_dep m k = true → k = None ∨ k = Some EmptyString ∨ m !! k = None.
Proof.
  unfold unknown_dep. intros H.
  apply orb_true_iff in H as [H|H]; [apply orb_true_iff in H as [H|H]|].
  - left. by apply bool_decide_eq_true in H.
  - right. left. by apply bool_decide_eq_true in H.
  - right. right. by apply negb_true_iff, has_false in H.
Qed.

Lemma unknown_dep_registered m ns k :
  Forall good_node ns →
  (∀ k n, m !! k = Some n ↔ Some n ∈ ns ∧ Node.id n = k) →
  unknown_dep m k = false ↔ k ∈ ids_of ns.
Proof.
  intros Hgood Hiff. split.
  - intros (s & -> & _ & [n Hn])%unknown_dep_false.
    apply Hiff in Hn as [Hn Hid]. apply list_elem_of_fmap. by exists (Some n).
  - intros Hk. destruct (good_ids_nonempty _ _ Hgood Hk) as (s & -> & Hne).
    apply list_elem_of_fmap in Hk as (n0 & Hid & Hn0).
    rewrite Forall_forall in Hgood. destruct (Hgood _ Hn0) as (n & s' & -> & Hid' & _).
    simpl in Hid. assert (Hm : m !! Some s = Some n) by (apply Hiff; split; congruence).
    unfold unknown_dep, has. rewrite Hm.
    rewrite (bool_decide_eq_false_2 (Some s = None)) by done.
    rewrite (bool_decide_eq_false_2 (Some s = Some EmptyString)) by congruence.
    by rewrite bool_decide_eq_true_2 by (by eexists).
Qed.

Lemma register_nodes_from_empty ns m :
  register_nodes ns ∅ = (Ret tt, m) →
  Forall good_node ns ∧ NoDup (ids_of ns) ∧
  ∀ k n, m !! k = Some n ↔ Some n ∈ ns ∧ Node.id n = k.
Proof.
  intros (Hgood & Hnd & _ & Hiff)%register_nodes_ok. split_and!; [done..|].
  intros k n. rewrite Hiff, lookup_empty. split; [by intros [?|?]|by right].
Qed.

(** X1: a node array loads if and only if it is well formed: every
    element is a node with a non-blank string id, no id occurs twice, and
    every entry of every [depends_on] names the id of a node of the
    array. *)
Theorem setData_accepts_iff ns st :
  (setData (workflow ns) st).1 = Ret tt ↔ well_formed ns.
Proof.
  unfold setData, _validateAndBuildGraph.
  change (nodes_of (set_data _ st)) with ns. split.
  - destruct (register_nodes ns ∅) as [r m] eqn:Hreg.
    destruct r as [[]| |]; [|done..].
    destruct (link_nodes m ns []) as [r es] eqn:Hlink. simpl. intros ->.
    apply register_nodes_from_empty in Hreg as (Hgood & Hnd & Hiff).
    apply link_nodes_ok in Hlink as [_ Hdeps].
    split_and!; [done..|]. intros n d Hn Hd.
    apply (unknown_dep_registered m ns); [done..|]. by eapply Hdeps.
  - intros (Hgood & Hnd & Hdeps).
    destruct (register_nodes_complete ns ∅ Hgood Hnd) as [m Hreg]; [done|].
    rewrite Hreg. apply register_nodes_from_empty in Hreg as (_ & _ & Hiff).
    destruct (link_nodes_complete m ns []) as [es ->]; [| |done].
    + eapply Forall_impl; [exact Hgood|]. by intros n (n' & ? & -> & _).
    + intros n d Hn Hd. apply (unknown_dep_registered m ns); [done..|]. by eapply Hdeps.
Qed.

Lemma register_nodes_throw ns : ∀ m e m',
  register_nodes ns m = (Throw e, m') →
  (e = MissingId ∧ ∃ n, n ∈ ns ∧ ¬ good_node n) ∨
  (∃ s j, e = DuplicateId s ∧ ids_of ns !! j = Some (Some s) ∧
     (is_Some (m !! Some s) ∨ ∃ i, i < j ∧ ids_of ns !! i = Some (Some s))).
Proof.
  induction ns as [|[n|] ns IH]; intros m e m' H; simpl in H; [done| |].
  - destruct (Node.id n) as [s|] eqn:Hid.
    + destruct (bool_decide (trim s = EmptyString)) eqn:Hblank.
      * injection H as <- <-. left. split; [done|]. exists (Some n). split; [left|].
        intros (n' & s' & [= <-] & Hid' & Hne). apply bool_decide_eq_true in Hblank.
        congruence.
      * destruct (has m (Some s)) eqn:Hhas.
        -- injection H as <- <-. right. exists s, 0. split_and!; [done| |].
           ++ simpl. by rewrite Hid.
           ++ left. by apply has_true.
        -- apply IH in H as [[-> (n0 & Hn0 & Hbad)]|(s' & j & -> & Hj & Hcase)].
           ++ left. split; [done|]. exists n0. split; [by right|done].
           ++ right. exists s', (S j). split_and!; [done|done|].
              destruct Hcase as [Hm|(i & Hi & Hlook)].
              ** rewrite lookup_insert in Hm. case_decide as Heq.
                 --- right. exists 0. split; [lia|]. simpl. rewrite Hid. congruence.
                 --- by left.
              ** right. exists (S i). split; [lia|done].
    + injection H as <- <-. left. split; [done|]. exists (Some n). split; [left|].
      intros (n' & s' & [= <-] & Hid' & _). congruence.
  - injection H as <- <-. left. split; [done|]. exists None. split; [left|].
    by intros (n' & s' & [=] & _).
Qed.

Lemma register_nodes_no_fuel ns : ∀ m m', register_nodes ns m ≠ (OutOfFuel, m').
Proof.
  induction ns as [|[n|] ns IH]; intros m m'; simpl; [done| |done].
  destruct (Node.id n); [|done].
  destruct (bool_decide _); [done|]. destruct (has m _); [done|]. apply IH.
Qed.

Lemma link_deps_throw m nid deps : ∀ es e es',
  link_deps m nid deps es = (Throw e, es') →
  ∃ d, d ∈ deps ∧ e = UnknownDep nid (depId_of d) ∧ unknown_dep m (depId_of d) = true.
Proof.
  induction deps as [|d deps IH]; intros es e es' H; simpl in H; [done|].
  destruct (unknown_dep m (depId_of d)) eqn:Hu.
  - injection H as <- <-. exists d. split_and!; [left|done..].
  - apply IH in H as (d' & Hd' & He & Hu'). exists d'. split_and!; [by right|done..].
Qed.

Lemma link_deps_no_fuel m nid deps : ∀ es es', link_deps m nid deps es ≠ (OutOfFuel, es').
Proof.
  induction deps as [|d deps IH]; intros es es'; simpl; [done|].
  destruct (unknown_dep m (depId_of d)); [done|apply IH].
Qed.

Lemma link_nodes_throw m ns : ∀ es e es',
  Forall (λ n, is_Some n) ns →
  link_nodes m ns es = (Throw e, es') →
  ∃ n d, Some n ∈ ns ∧ d ∈ deps_of n ∧ e = UnknownDep (Node.id n) (depId_of d) ∧
    unknown_dep m (depId_of d) = true.
Proof.
  induction ns as [|n ns IH]; intros es e es' Hsome H; [done|].
  apply Forall_cons in Hsome as [[n' ->] Hsome]. simpl in H.
  destruct (link_deps m (Node.id n') (deps_of n') es) as [r es1] eqn:Hl.
  destruct r as [[]|e1|].
  - apply IH in H as (n & d & Hn & Hd & He & Hu); [|done].
    exists n, d. split_and!; [by right|done..].
  - injection H as <- <-. apply link_deps_throw in Hl as (d & Hd & He & Hu).
    exists n', d. split_and!; [left|done..].
  - done.
Qed.

Lemma link_nodes_no_fuel m ns : ∀ es es', link_nodes m ns es ≠ (OutOfFuel, es').
Proof.
  induction ns as [|[n|] ns IH]; intros es es'; simpl; [done| |done].
  destruct (link_deps m (Node.id n) (deps_of n) es) as [r es1] eqn:Hl.
  destruct r as [[]| |]; [apply IH|done|].
  by destruct (link_deps_no_fuel _ _ _ _ _ Hl).
Qed.

(** X2: what a failed load tells.  The message about a missing id means
    that some element is not a node with a non-blank string id; the
    message about a duplicate names an id that occurs at two places of the
    array; the message about an unknown dependency is only reached when
    all nodes passed the first loop, and names a node and one of its
    references that is not the id of any node.  No other exception comes
    out of a load. *)
Theorem setData_error_meaning ns st e st' :
  setData (workflow ns) st = (Throw e, st') →
  match e with
  | MissingId => ∃ n, n ∈ ns ∧ ¬ good_node n
  | DuplicateId s =>
      ∃ i j, i < j ∧ ids_of ns !! i = Some (Some s) ∧ ids_of ns !! j = Some (Some s)
  | UnknownDep n_id depId =>
      Forall good_node ns ∧ NoDup (ids_of ns) ∧ (depId ∉ ids_of ns) ∧
      ∃ n d, Some n ∈ ns ∧ Node.id n = n_id ∧ d ∈ deps_of n ∧ depId_of d = depId
  | TypeError => False
  end.
Proof.
  unfold setData, _validateAndBuildGraph.
  change (nodes_of (set_data _ st)) with ns.
  destruct (register_nodes ns ∅) as [r m] eqn:Hreg. destruct r as [[]|e1|].
  - destruct (link_nodes m ns []) as [r es] eqn:Hlink. intros [= -> <-].
    apply register_nodes_from_empty in Hreg as (Hgood & Hnd & Hiff).
    apply link_nodes_throw in Hlink as (n & d & Hn & Hd & -> & Hu).
    2:{ eapply Forall_impl; [exact Hgood|]. by intros n (n' & ? & -> & _). }
    split_and!; [done..| |by exists n, d].
    intros Hin. apply (unknown_dep_registered m ns) in Hin; [congruence|done..].
  - intros [= -> <-].
    apply register_nodes_throw in Hreg as [[-> Hbad]|(s & j & -> & Hj & Hcase)]; [done|].
    destruct Hcase as [[? Hm]|(i & Hi & Hlook)]; [by rewrite lookup_empty in Hm|].
    by exists i, j.
  - intros [=].
Qed.

Lemma setData_error_meaning_witness :
  setData twice fresh = (Throw (DuplicateId "A"), (setData twice fresh).2) ∧
  ∃ i j, i < j ∧
    ids_of [node "A" []; node "A" []] !! i = Some (Some "A"%string) ∧
    ids_of [node "A" []; node "A" []] !! j = Some (Some "A"%string).
Proof.
  split; [vm_compute; reflexivity|].
  apply (setData_error_meaning [node "A" []; node "A" []] fresh (DuplicateId "A")
           (setData twice fresh).2).
  vm_compute. reflexivity.
Defined.

Lemma edges_of_length ns :
  length (edges_of ns)
  = sum_list_with (λ n, from_option (λ n', length (deps_of n')) 0 n) ns.
Proof.
  unfold edges_of. induction ns as [|n ns IH]; [done|].
  rewrite bind_cons, length_app, IH. simpl. f_equal.
  destruct n as [n|]; simpl; [|done]. unfold node_edges. by rewrite length_fmap.
Qed.

(** X3: after a successful load there is exactly one edge for every entry
    of every [depends_on] array, repeated entries included, in the order of
    the declarations; [edgeCount()] is the total number of entries. *)
Theorem setData_one_edge_per_dependency w st0 st :
  setData w st0 = (Ret tt, st) →
  edges st
  = (nodes_of st ≫= from_option
       (λ n, (λ d, {| from := depId_of d; to := Node.id n |}) <$> deps_of n) []) ∧
  edgeCount st
  = sum_list_with (λ n, from_option (λ n', length (deps_of n')) 0 n) (nodes_of st).
Proof.
  intros Hload%setData_valid. unfold edgeCount.
  rewrite (valid_edges _ Hload). split; [done|apply edges_of_length].
Qed.

Lemma setData_one_edge_per_dependency_witness :
  setData chain fresh = (Ret tt, chain_state) ∧ edgeCount chain_state = 1.
Proof.
  split; [vm_compute; reflexivity|].
  apply (setData_one_edge_per_dependency chain fresh chain_state).
  vm_compute. reflexivity.
Defined.

(** * More on the topological order *)

Lemma release_extends succs : ∀ indeg q, ∃ extra, (release succs indeg q).2 = q ++ extra.
Proof.
  induction succs as [|nxt succs IH]; intros indeg q; simpl.
  - exists []. by rewrite app_nil_r.
  - destruct (jsnum_is_zero (jsnum_pred (omap_get indeg nxt))).
    + destruct (IH (omap_set nxt (jsnum_pred (omap_get indeg nxt)) indeg) (q ++ [nxt]))
        as [extra ->].
      exists (nxt :: extra). by rewrite <- app_assoc.
    + apply IH.
Qed.

(** The queue is first in, first out: what is listed or queued comes out
    in that order. *)
Lemma drain_prefix out fuel : ∀ indeg q done order,
  drain fuel out indeg q done = Ret order → (done ++ q) `prefix_of` order.
Proof.
  induction fuel as [|fuel IH]; intros indeg q done order H.
  - destruct q; [|done]. injection H as <-. by rewrite app_nil_r.
  - destruct q as [|id q]; [injection H as <-; by rewrite app_nil_r|]. simpl in H.
    destruct (out !! id) as [succs|]; [|done].
    destruct (release_extends succs indeg q) as [extra Hext].
    destruct (release succs indeg q) as [indeg' q'']. simpl in Hext. subst q''.
    apply IH in H.
    replace ((done ++ [id]) ++ q ++ extra) with ((done ++ id :: q) ++ extra) in H
      by (by rewrite <- !app_assoc).
    by eapply prefix_app_l.
Qed.

Lemma seed_queue_filter (f : key → nat) (m : list (key * jsnum)) :
  (∀ k d, (k, d) ∈ m → d = Num (Z.of_nat (f k))) →
  seed_queue m = filter (λ k, f k = 0) m.*1.
Proof.
  induction m as [|[k d] m IH]; intros Hval; [done|].
  simpl. rewrite filter_cons. rewrite (Hval k d) by left. simpl.
  rewrite IH by (intros; apply Hval; by right).
  destruct (decide (f k = 0)) as [Hz|Hz].
  - rewrite bool_decide_eq_true_2 by lia. done.
  - rewrite bool_decide_eq_false_2 by lia. done.
Qed.

Lemma sources_pending st :
  sources st = filter (λ k, pending (edges st) [] k = 0) (node_ids st).
Proof.
  unfold sources. apply list_filter_iff. intros k. rewrite pending_zero, Forall_forall.
  split.
  - intros H e He Ht. by destruct (H e He).
  - intros H e He Ht. apply H in Ht; [|done]. by apply elem_of_nil in Ht.
Qed.

(** X4: on a validly loaded graph for which [topoSort] is ok, the order
    begins with the nodes without incoming edge, in the order of their
    declaration; without any edge the order is the declaration order. *)
Theorem topoSort_sources_first w st0 st order :
  setData w st0 = (Ret tt, st) →
  topoSort st = Ret {| ok := true; order := order |} →
  sources st `prefix_of` order ∧ (edges st = [] → order = node_ids st).
Proof.
  intros Hv%setData_valid Hsort.
  assert (Hpre : sources st `prefix_of` order).
  { revert Hsort. unfold topoSort.
    pose proof (valid_graph_closed _ Hv) as Hclosed.
    pose proof (valid_nodup _ Hv) as HN. set (N := node_ids st) in *.
    destruct (init_tables_ok (nodes_of st) [] ∅ (valid_nodes _ Hv)) as (out0 & -> & Hout0);
      [done|]. fold (node_ids st). fold N. simpl.
    destruct (count_edges_ok N (edges st) [] ((λ k, (k, Num 0)) <$> N) out0)
      as (indeg & out & -> & Hindeg & Hout); [done| | |].
    { split.
      - rewrite <- list_fmap_compose. apply list_fmap_id.
      - intros v Hv'. by rewrite omap_get_const. }
    { intros u Hu. rewrite Hout0. by rewrite decide_True. }
    simpl in *.
    destruct (drain (length indeg) out indeg (seed_queue indeg) []) as [order'| |] eqn:Hd;
      simpl; [|done..].
    case_bool_decide; [done|]. intros [= ->].
    apply drain_prefix in Hd. simpl in Hd.
    rewrite sources_pending. fold N. destruct Hindeg as [Hkeys Hval].
    rewrite (seed_queue_filter (pending (edges st) [])) in Hd.
    - by rewrite Hkeys in Hd.
    - intros k d Hkd. pose proof Hkd as Hin.
      apply omap_get_elem in Hkd; [|rewrite Hkeys; exact HN].
      rewrite Hval in Hkd; [congruence|].
      rewrite <- Hkeys. apply list_elem_of_fmap. by exists (k, d). }
  split; [done|]. intros Hnone.
  destruct (topoSort_valid st Hv) as [(order' & Hsort' & Htopo)|[Hsort' _]]; [|congruence].
  rewrite Hsort in Hsort'. injection Hsort' as <-.
  assert (Hall : sources st = node_ids st).
  { unfold sources. rewrite Hnone. induction (node_ids st) as [|k l IH]; [done|].
    rewrite filter_cons. rewrite decide_True by constructor. by rewrite IH. }
  rewrite Hall in Hpre. symmetry. apply prefix_length_eq; [done|].
  assert (order ≡ₚ node_ids st) as ->; [|done].
  apply NoDup_Permutation; [apply Htopo|apply (valid_nodup _ Hv)|apply Htopo].
Qed.

Lemma topoSort_sources_first_witness :
  setData chain fresh = (Ret tt, chain_state) ∧
  sources chain_state `prefix_of` [Some "A"%string; Some "B"%string].
Proof.
  split; [vm_compute; reflexivity|].
  apply (topoSort_sources_first chain fresh chain_state [Some "A"%string; Some "B"%string]).
  - vm_compute. reflexivity.
  - vm_compute. reflexivity.
Defined.

(** X5: the queue loop of [topoSort] comes to an end in every state, valid
    or not: neither [topoSort] nor [relayout] ever exhausts the bound the
    loop runs under. *)
Theorem queue_loop_terminates resetDragged st :
  topoSort st ≠ OutOfFuel ∧ (relayout resetDragged st).1 ≠ OutOfFuel.
Proof. split; [apply topoSort_terminates|apply relayout_terminates]. Qed.

(** * More on layer depths *)

Lemma max_list_with_le {A} (f : A → nat) (l : list A) b :
  (∀ a, a ∈ l → f a ≤ b) → max_list_with f l ≤ b.
Proof.
  induction l as [|a l IH]; intros Hb; cbn [max_list_with]; [lia|].
  pose proof (Hb a ltac:(left)). pose proof (IH ltac:(intros; apply Hb; by right)). lia.
Qed.

Lemma max_list_with_attained {A} (f : A → nat) (l : list A) :
  l ≠ [] → ∃ a, a ∈ l ∧ f a = max_list_with f l.
Proof.
  induction l as [|a l IH]; [done|]. intros _. cbn [max_list_with].
  destruct l as [|b l].
  - exists a. split; [left|]. simpl. lia.
  - destruct IH as (c & Hc & Hmax); [done|].
    destruct (decide (f a ≤ max_list_with f (b :: l))).
    + exists c. split; [by right|]. lia.
    + exists a. split; [left|]. lia.
Qed.

Lemma valid_order_node st order k :
  valid_graph st → topological st order → k ∈ order →
  ∃ n, Some n ∈ nodes_of st ∧ Node.id n = k.
Proof.
  intros Hv Htopo Hk. apply (topo_nodes _ _ Htopo) in Hk.
  apply list_elem_of_fmap in Hk as (n0 & -> & Hn0).
  pose proof (valid_nodes _ Hv) as Hgood. rewrite Forall_forall in Hgood.
  destruct (Hgood _ Hn0) as (n & s & -> & _). by exists n.
Qed.

Lemma valid_dep_edge st n d :
  valid_graph st → Some n ∈ nodes_of st → d ∈ deps_of n →
  {| from := depId_of d; to := Node.id n |} ∈ edges st.
Proof.
  intros Hv Hn Hd. rewrite (valid_edges _ Hv). apply edges_of_elem. by exists n, d.
Qed.

(** What [_computeDepths] returns on a valid graph, for any caller that
    holds its result. *)
Lemma computeDepths_result st order depth :
  valid_graph st → topological st order → _computeDepths order st = Ret depth →
  (∀ n, Some n ∈ nodes_of st → depth !! Node.id n = Some (layer_depth depth n)) ∧
  (∀ e, e ∈ edges st → depth_at depth (from e) < depth_at depth (to e)).
Proof.
  intros Hv Htopo Hd.
  destruct (computeDepths_valid st order Hv Htopo) as (depth' & Hd' & H1 & H2).
  rewrite Hd in Hd'. by injection Hd' as <-.
Qed.

(** X6: the depth of a node is at most its index in the topological
    order the depths were computed from; so every depth is below the
    number of nodes. *)
Theorem computeDepths_bounded w st0 st order depth :
  setData w st0 = (Ret tt, st) → topological st order →
  _computeDepths order st = Ret depth →
  (∀ i k, order !! i = Some k → depth_at depth k ≤ i) ∧
  (∀ k, k ∈ order → depth_at depth k < length (nodes_of st)).
Proof.
  intros Hv%setData_valid Htopo Hd.
  destruct (computeDepths_result _ _ _ Hv Htopo Hd) as [Hall _].
  assert (Hidx : ∀ i k, order !! i = Some k → depth_at depth k ≤ i).
  { induction i as [i IH] using lt_wf_ind. intros k Hi.
    destruct (valid_order_node st order k Hv Htopo) as (n & Hn & Hid);
      [by eapply list_elem_of_lookup_2|].
    unfold depth_at. rewrite <- Hid, (Hall _ Hn). simpl. unfold layer_depth.
    destruct (deps_of n) as [|d0 l] eqn:Hdeps; [lia|].
    assert (Hlt : ∀ d, d ∈ d0 :: l → depth_at depth (depId_of d) < i).
    { intros d Hin. rewrite <- Hdeps in Hin.
      destruct (topo_edges _ _ Htopo _ (valid_dep_edge _ _ _ Hv Hn Hin))
        as (i' & j' & Hi' & Hj' & Hlt). simpl in *. rewrite Hid in Hj'.
      assert (j' = i) as -> by (eapply NoDup_lookup; [apply Htopo|done..]).
      pose proof (IH i' Hlt _ Hi'). lia. }
    pose proof (Hlt d0 ltac:(left)).
    pose proof (max_list_with_le (λ d, depth_at depth (depId_of d)) (d0 :: l) (i - 1)
                  ltac:(intros a Ha; pose proof (Hlt a Ha); lia)). lia. }
  split; [done|]. intros k [i Hi]%list_elem_of_lookup.
  pose proof (Hidx _ _ Hi). apply lookup_lt_Some in Hi.
  assert (length order = length (nodes_of st)) as <-; [|lia].
  rewrite <- (valid_graph_length _ Hv). apply Permutation_length.
  apply NoDup_Permutation; [apply Htopo|apply (valid_nodup _ Hv)|apply Htopo].
Qed.

Lemma chain_depths :
  _computeDepths [Some "A"%string; Some "B"%string] chain_state
  = Ret (<[Some "B"%string := 1]> (<[Some "A"%string := 0]> ∅)).
Proof. vm_compute. reflexivity. Qed.

Lemma computeDepths_bounded_witness :
  setData chain fresh = (Ret tt, chain_state) ∧
  ∀ k, k ∈ [Some "A"%string; Some "B"%string] →
    depth_at (<[Some "B"%string := 1]> (<[Some "A"%string := 0]> ∅)) k
    < length (nodes_of chain_state).
Proof.
  split; [vm_compute; reflexivity|].
  apply (computeDepths_bounded chain fresh chain_state [Some "A"%string; Some "B"%string]).
  - vm_compute. reflexivity.
  - exact chain_topological.
  - exact chain_depths.
Defined.

(** X7: depth grows strictly along every path: a node that is reached from
    another one through one or more edges lies in a strictly deeper
    layer. *)
Theorem computeDepths_ancestors_above w st0 st order depth u v :
  setData w st0 = (Ret tt, st) → topological st order →
  _computeDepths order st = Ret depth →
  reach (edges st) u v → depth_at depth u < depth_at depth v.
Proof.
  intros Hv%setData_valid Htopo Hd Hr.
  destruct (computeDepths_result _ _ _ Hv Htopo Hd) as [_ Hedge].
  induction Hr as [e He|e x He Hr IH].
  - by apply Hedge.
  - pose proof (Hedge e He). lia.
Qed.

Lemma computeDepths_ancestors_above_witness :
  setData chain fresh = (Ret tt, chain_state) ∧
  depth_at (<[Some "B"%string := 1]> (<[Some "A"%string := 0]> ∅)) (Some "A"%string)
  < depth_at (<[Some "B"%string := 1]> (<[Some "A"%string := 0]> ∅)) (Some "B"%string).
Proof.
  split; [vm_compute; reflexivity|].
  apply (computeDepths_ancestors_above chain fresh chain_state
           [Some "A"%string; Some "B"%string]).
  - vm_compute. reflexivity.
  - exact chain_topological.
  - exact chain_depths.
  - apply (reach_edge _ {| from := Some "A"%string; to := Some "B"%string |}). left.
Defined.

(** X8: the layers have no gap: below the depth of any node every depth is
    the depth of some node, so no row between the first and the deepest is
    empty. *)
Theorem computeDepths_no_empty_layer w st0 st order depth k d :
  setData w st0 = (Ret tt, st) → topological st order →
  _computeDepths order st = Ret depth →
  k ∈ order → d ≤ depth_at depth k → layer_row order depth d ≠ [].
Proof.
  intros Hv%setData_valid Htopo Hd Hk Hle.
  destruct (computeDepths_result _ _ _ Hv Htopo Hd) as [Hall _].
  assert (Hstep : ∀ k m, k ∈ order → depth_at depth k = S m →
                   ∃ k', k' ∈ order ∧ depth_at depth k' = m).
  { intros k0 m Hk0 Hm.
    destruct (valid_order_node st order k0 Hv Htopo Hk0) as (n & Hn & Hid).
    unfold depth_at in Hm. rewrite <- Hid, (Hall _ Hn) in Hm. simpl in Hm.
    unfold layer_depth in Hm. destruct (deps_of n) as [|d0 l] eqn:Hdeps; [done|].
    destruct (max_list_with_attained (λ d, depth_at depth (depId_of d)) (d0 :: l))
      as (dp & Hdp & Hmax); [done|].
    exists (depId_of dp). split; [|lia]. rewrite <- Hdeps in Hdp.
    destruct (valid_deps _ Hv _ _ Hn Hdp) as (d' & -> & Hin).
    by apply (topo_nodes _ _ Htopo). }
  assert (Hdown : ∀ g k, k ∈ order → depth_at depth k = d + g →
                   ∃ k', k' ∈ order ∧ depth_at depth k' = d).
  { induction g as [|g IH]; intros k0 Hk0 Hg.
    - exists k0. split; [done|lia].
    - destruct (Hstep k0 (d + g) Hk0) as (k1 & Hk1 & Hd1); [lia|]. by eapply IH. }
  destruct (Hdown (depth_at depth k - d) k Hk) as (k' & Hk' & Hd'); [lia|].
  intros Hnil. assert (k' ∈ layer_row order depth d) as Hin
    by (by apply list_elem_of_filter).
  rewrite Hnil in Hin. by apply elem_of_nil in Hin.
Qed.

Lemma computeDepths_no_empty_layer_witness :
  setData chain fresh = (Ret tt, chain_state) ∧
  layer_row [Some "A"%string; Some "B"%string]
    (<[Some "B"%string := 1]> (<[Some "A"%string := 0]> ∅)) 0 ≠ [].
Proof.
  split; [vm_compute; reflexivity|].
  apply (computeDepths_no_empty_layer chain fresh chain_state
           [Some "A"%string; Some "B"%string] _ (Some "B"%string)).
  - vm_compute. reflexivity.
  - exact chain_topological.
  - exact chain_depths.
  - right. left.
  - unfold depth_at. lia.
Defined.

(** * More on [relayout] *)

Lemma same_graph_log msg st : same_graph st (log msg st).
Proof. unfold log. by destruct (logEl st). Qed.

Lemma same_graph_ensure st : same_graph st (_ensurePositionsForMissing st).2.
Proof. by rewrite ensure_frame. Qed.

Lemma same_graph_trans st1 st2 st3 :
  same_graph st1 st2 → same_graph st2 st3 → same_graph st1 st3.
Proof.
  intros (?&?&?&?&?&?&?&?) (?&?&?&?&?&?&?&?). split_and!; congruence.
Qed.

Lemma relayout_false_dragged st : dragged (relayout false st).2 = dragged st.
Proof.
  destruct (relayout_cases false st)
    as [->|[(res & Ht & Hok)|(res & depth & Ht & Hok & Hd)]].
  - done.
  - rewrite (relayout_cycle _ _ _ Ht Hok). simpl. apply dragged_log.
  - rewrite (relayout_ok _ _ _ _ Ht Hok Hd). by rewrite dragged_ensure.
Qed.

(** X9: [relayout] reads the graph and never writes it: [data], [byId],
    the edge list, the style constants and the viewport width are the same
    after any call, whatever its outcome; with [resetDragged = false] the
    pinned set is untouched as well. *)
Theorem relayout_keeps_graph resetDragged st :
  same_graph st (relayout resetDragged st).2 ∧
  dragged (relayout false st).2 = dragged st.
Proof.
  split.
  - destruct (relayout_cases resetDragged st)
      as [->|[(res & Ht & Hok)|(res & depth & Ht & Hok & Hd)]].
    + by destruct resetDragged.
    + rewrite (relayout_cycle _ _ _ Ht Hok). simpl.
      eapply same_graph_trans; [|apply same_graph_log]. by destruct resetDragged.
    + rewrite (relayout_ok _ _ _ _ Ht Hok Hd).
      eapply same_graph_trans; [|apply same_graph_ensure]. by destruct resetDragged.
  - apply relayout_false_dragged.
Qed.

Lemma valid_nodes_some st : valid_graph st → Forall (λ n, is_Some n) (nodes_of st).
Proof.
  intros Hv. eapply Forall_impl; [apply (valid_nodes _ Hv)|]. by intros n (n' & ? & -> & _).
Qed.

Lemma ensure_returns st :
  Forall (λ n, is_Some n) (nodes_of st) → (_ensurePositionsForMissing st).1 = Ret tt.
Proof.
  intros Hall. by destruct (ensure_spec st) as [(ms & _ & _ & _ & ->)|[Hnot _]].
Qed.

Lemma relayout_sorted r st ord depth :
  topoSort st = Ret {| ok := true; order := ord |} → _computeDepths ord st = Ret depth →
  relayout r st
  = _ensurePositionsForMissing (set_positions (layered r st ord depth) (reset_state r st)).
Proof. intros Ht Hd. by apply (relayout_ok r st {| ok := true; order := ord |}). Qed.

(** X10: on a valid graph, cyclic or not, [relayout] never throws. *)
Theorem relayout_never_throws resetDragged st :
  valid_graph st → (relayout resetDragged st).1 = Ret tt.
Proof.
  intros Hv.
  destruct (topoSort_valid st Hv) as [(order & Ht & Htopo)|[Ht _]].
  - destruct (computeDepths_valid st order Hv Htopo) as (depth & Hd & _).
    rewrite (relayout_sorted resetDragged st order depth Ht Hd).
    apply ensure_returns.
    replace (nodes_of (set_positions _ (reset_state resetDragged st))) with (nodes_of st)
      by (by destruct resetDragged).
    by apply valid_nodes_some.
  - by rewrite (relayout_cycle _ _ _ Ht eq_refl).
Qed.

Lemma relayout_never_throws_witness :
  valid_graph chain_dragged ∧ (relayout false chain_dragged).1 = Ret tt.
Proof.
  split; [exact chain_dragged_valid|].
  apply (relayout_never_throws false chain_dragged). exact chain_dragged_valid.
Defined.

(** The rows of the layered pass hold ids of the order only. *)
Lemma place_row_dom r st sx d ids k : ∀ i pos,
  is_Some (place_row r st sx d i ids pos !! k) → is_Some (pos !! k) ∨ k ∈ ids.
Proof.
  induction ids as [|id ids IH]; intros i pos; simpl; [by left|].
  destruct (negb r && bool_decide (id ∈ dragged st)).
  - intros [?|?]%IH; [by left|right; by right].
  - intros [Hs|?]%IH; [|right; by right].
    rewrite lookup_insert in Hs. case_decide; [right; subst; left|by left].
Qed.

Lemma place_layers_dom r st layers md pos k :
  is_Some (place_layers r st layers md pos !! k) →
  is_Some (pos !! k) ∨ ∃ d, k ∈ default [] (layers !! d).
Proof.
  unfold place_layers. generalize (seq 0 (S md)). intros ds. revert pos.
  induction ds as [|d ds IH]; intros pos; simpl; [by left|].
  intros [Hs|?]%IH; [|by right]. unfold place_layer in Hs.
  case_bool_decide; [by left|].
  apply place_row_dom in Hs as [?|?]; [by left|right; by exists d].
Qed.

Lemma layered_dom r st order depth k :
  is_Some (layered r st order depth !! k) →
  is_Some (positions (reset_state r st) !! k) ∨ k ∈ order.
Proof.
  unfold layered. destruct (group_layers order depth ∅ 0) as [layers md] eqn:Hg.
  apply group_layers_spec in Hg as (Hrows & _ & _).
  intros [?|[d Hd]]%place_layers_dom; [by left|right].
  rewrite Hrows, lookup_empty in Hd. simpl in Hd.
  by apply list_elem_of_filter in Hd as [_ ?].
Qed.

Lemma layered_stale st order depth k :
  k ∉ order → layered false st order depth !! k = positions st !! k.
Proof.
  intros Hk. unfold layered. simpl.
  destruct (group_layers order depth ∅ 0) as [layers md] eqn:Hg.
  apply group_layers_spec in Hg as (Hrows & _ & _).
  unfold place_layers. apply place_layers_skip. intros d _ Hin.
  rewrite Hrows, lookup_empty in Hin. simpl in Hin.
  by apply list_elem_of_filter in Hin as [_ ?].
Qed.

(** X11: a full reset on a valid graph for which [topoSort] is ok leaves
    a table that holds exactly the nodes of the graph: every node has its
    layered position, entries of ids that are not in the graph are gone,
    and the fallback pass has nothing to place. *)
Theorem relayout_reset_exact st order :
  valid_graph st → topoSort st = Ret {| ok := true; order := order |} →
  ∃ depth, _computeDepths order st = Ret depth ∧
    positions (relayout true st).2 = layered true st order depth ∧
    ∀ k, is_Some (positions (relayout true st).2 !! k) ↔ k ∈ node_ids st.
Proof.
  intros Hv Ht.
  destruct (topoSort_valid st Hv) as [(order' & Ht' & Htopo)|[Ht' _]]; [|congruence].
  rewrite Ht in Ht'. injection Ht' as <-.
  destruct (computeDepths_valid st order Hv Htopo) as (depth & Hd & _).
  exists depth. split; [done|].
  assert (Hdom : ∀ k, is_Some (layered true st order depth !! k) ↔ k ∈ node_ids st).
  { intros k. rewrite <- (topo_nodes _ _ Htopo). split.
    - intros [Hs|?]%layered_dom; [|done]. simpl in Hs. rewrite lookup_empty in Hs.
      by destruct Hs.
    - intros Hk.
      destruct (layered_reset_at st order depth k (topo_nodup _ _ Htopo) Hk) as (i & _ & ->).
      by eexists. }
  assert (Hpos : positions (relayout true st).2 = layered true st order depth).
  { rewrite (relayout_sorted true st order depth Ht Hd).
    destruct (ensure_spec (set_positions (layered true st order depth) (reset_state true st)))
      as [(ms & _ & Hms & _ & ->)|[_ ->]]; [|done].
    simpl. assert (ms = []) as ->; [|done].
    rewrite Hms. apply filter_nil_intro. intros k Hk Hnone. simpl in Hnone.
    apply Hdom in Hk as [p Hp]. congruence. }
  split; [done|]. intros k. by rewrite Hpos.
Qed.

Lemma relayout_reset_exact_witness :
  valid_graph chain_dragged ∧
  topoSort chain_dragged
  = Ret {| ok := true; order := [Some "A"%string; Some "B"%string] |} ∧
  ∃ depth, _computeDepths [Some "A"%string; Some "B"%string] chain_dragged = Ret depth ∧
    positions (relayout true chain_dragged).2
    = layered true chain_dragged [Some "A"%string; Some "B"%string] depth ∧
    ∀ k, is_Some (positions (relayout true chain_dragged).2 !! k)
         ↔ k ∈ node_ids chain_dragged.
Proof.
  split; [exact chain_dragged_valid|]. split; [vm_compute; reflexivity|].
  apply (relayout_reset_exact chain_dragged).
  - exact chain_dragged_valid.
  - vm_compute. reflexivity.
Defined.

(** X12: [relayout] with [resetDragged = false] never drops an entry of
    the table, and on a valid graph it leaves the entry of every id that
    is not a node of the graph exactly as it was: positions of nodes that a
    later load removed stay in the table until a full reset. *)
Theorem relayout_keeps_stale_entries st k :
  (is_Some (positions st !! k) → is_Some (positions (relayout false st).2 !! k)) ∧
  (valid_graph st → k ∉ node_ids st →
   positions (relayout false st).2 !! k = positions st !! k).
Proof.
  split.
  - intros [p Hp].
    destruct (relayout_cases false st)
      as [->|[(res & Ht & Hok)|(res & depth & Ht & Hok & Hd)]].
    + by exists p.
    + rewrite (relayout_cycle _ _ _ Ht Hok). simpl. rewrite positions_log. by exists p.
    + rewrite (relayout_ok _ _ _ _ Ht Hok Hd).
      assert (is_Some (layered false st (order res) depth !! k)) as [p' Hp'].
      { unfold layered. simpl. destruct (group_layers (order res) depth ∅ 0) as [layers md].
        rewrite place_layers_overlay. apply lookup_union_is_Some. right. by exists p. }
      exists p'. by apply ensure_keeps.
  - intros Hv Hk.
    destruct (topoSort_valid st Hv) as [(order & Ht & Htopo)|[Ht _]].
    + destruct (computeDepths_valid st order Hv Htopo) as (depth & Hd & _).
      rewrite (relayout_sorted false st order depth Ht Hd).
      destruct (ensure_spec (set_positions (layered false st order depth) (reset_state false st)))
        as [(ms & _ & Hms & _ & ->)|[_ ->]]; simpl.
      * rewrite pack_other.
        -- apply layered_stale. by rewrite (topo_nodes _ _ Htopo).
        -- rewrite Hms. by intros [_ ?]%list_elem_of_filter.
      * apply layered_stale. by rewrite (topo_nodes _ _ Htopo).
    + rewrite (relayout_cycle _ _ _ Ht eq_refl). simpl. by rewrite positions_log.
Qed.

Lemma solo_over_chain_valid : valid_graph solo_over_chain.
Proof. apply (setData_valid solo chain_laid). vm_compute. reflexivity. Qed.

Lemma relayout_keeps_stale_entries_witness :
  valid_graph solo_over_chain ∧ (Some "A"%string ∉ node_ids solo_over_chain) ∧
  is_Some (positions solo_over_chain !! Some "A"%string) ∧
  positions (relayout false solo_over_chain).2 !! Some "A"%string
  = positions solo_over_chain !! Some "A"%string.
Proof.
  assert (Hstale : Some "A"%string ∉ node_ids solo_over_chain).
  { apply (bool_decide_unpack _). vm_compute. exact I. }
  split; [exact solo_over_chain_valid|]. split; [exact Hstale|].
  split; [vm_compute; by eexists|].
  exact (proj2 (relayout_keeps_stale_entries solo_over_chain (Some "A"%string))
           solo_over_chain_valid Hstale).
Defined.

(** A node that is not skipped gets the slot of its place in the row. *)
Lemma place_row_at_free r st sx d ids k : ∀ i j pos,
  r = true ∨ k ∉ dragged st → NoDup ids → ids !! j = Some k →
  place_row r st sx d i ids pos !! k
  = Some {| Pos.x := (sx + nat_to_float (i + j) * (NODE_W st + GAP_X st))%float;
            Pos.y := (60 + nat_to_float d * (NODE_H st + GAP_Y st))%float |}.
Proof.
  intros i j pos Hfree. revert i j pos.
  induction ids as [|id ids IH]; intros i j pos Hnd Hj; [done|].
  apply NoDup_cons in Hnd as [Hid Hnd]. simpl.
  destruct j as [|j]; simpl in Hj.
  - injection Hj as ->.
    assert (negb r && bool_decide (k ∈ dragged st) = false) as ->.
    { destruct Hfree as [->|Hn]; [done|]. rewrite (bool_decide_eq_false_2 _ Hn).
      by destruct r. }
    rewrite place_row_other by done. rewrite lookup_insert_eq. by rewrite Nat.add_0_r.
  - destruct (negb r && bool_decide (id ∈ dragged st));
      rewrite (IH (S i) j) by done; by rewrite Nat.add_succ_r.
Qed.

Lemma layered_at_free r st order depth k :
  r = true ∨ k ∉ dragged st → NoDup order → k ∈ order →
  ∃ i, layer_row order depth (depth_at depth k) !! i = Some k ∧
    layered r st order depth !! k
    = Some (layer_slot st (length (layer_row order depth (depth_at depth k)))
              (depth_at depth k) i).
Proof.
  intros Hfree Hnd Hk. unfold layered.
  destruct (group_layers order depth ∅ 0) as [layers md] eqn:Hg.
  apply group_layers_spec in Hg as (Hrows & _ & Hmd).
  assert (Hrow : ∀ d, default [] (layers !! d) = layer_row order depth d).
  { intros d. rewrite Hrows. by rewrite lookup_empty. }
  assert (Hin : k ∈ layer_row order depth (depth_at depth k)).
  { apply list_elem_of_filter. done. }
  apply list_elem_of_lookup in Hin as [i Hi]. exists i. split; [done|].
  set (st2 := reset_state r st).
  assert (Hfree2 : r = true ∨ k ∉ dragged st2).
  { destruct Hfree as [->|?]; [by left|]. right. unfold st2. by destruct r. }
  set (dk := depth_at depth k) in *.
  assert (Hds : dk ∈ seq 0 (S md)) by (apply elem_of_seq; specialize (Hmd k Hk); lia).
  pose proof (NoDup_seq 0 (S md)) as Hseq. unfold place_layers.
  revert Hds Hseq. generalize (positions st2). generalize (seq 0 (S md)).
  intros ds. induction ds as [|d0 ds IH]; intros pos Hds Hseq.
  - by apply elem_of_nil in Hds.
  - apply NoDup_cons in Hseq as [Hd0 Hseq]. simpl.
    destruct (decide (d0 = dk)) as [->|Hne].
    + rewrite place_layers_skip.
      * unfold place_layer. rewrite Hrow. case_bool_decide as Hlen.
        -- apply length_zero_iff_nil in Hlen. by rewrite Hlen in Hi.
        -- rewrite (place_row_at_free r st2 _ _ _ k 0 i); [|done| |done].
           ++ unfold layer_slot, st2. by destruct r.
           ++ by apply NoDup_filter.
      * intros d' Hd' Hin. rewrite Hrow in Hin.
        apply list_elem_of_filter in Hin as [Heq _]. fold dk in Heq. congruence.
    + apply IH; [|done]. by apply elem_of_cons in Hds as [?|?].
Qed.

(** X13: an incremental layout agrees with a full reset on every node
    that is not pinned: on a valid graph for which [topoSort] is ok, such a
    node gets from [relayout] with [resetDragged = false] the very position
    a full reset would give it; pinned nodes keep their slot reserved. *)
Theorem relayout_agrees_with_reset st order k :
  valid_graph st → topoSort st = Ret {| ok := true; order := order |} →
  k ∈ order → k ∉ dragged st →
  positions (relayout false st).2 !! k = positions (relayout true st).2 !! k.
Proof.
  intros Hv Ht Hk Hfree.
  destruct (topoSort_valid st Hv) as [(order' & Ht' & Htopo)|[Ht' _]]; [|congruence].
  rewrite Ht in Ht'. injection Ht' as <-.
  destruct (computeDepths_valid st order Hv Htopo) as (depth & Hd & _).
  pose proof (topo_nodup _ _ Htopo) as Hnd.
  destruct (layered_at_free false st order depth k (or_intror Hfree) Hnd Hk)
    as (i & Hi & Hfalse).
  destruct (layered_at_free true st order depth k (or_introl eq_refl) Hnd Hk)
    as (i' & Hi' & Htrue).
  assert (i' = i) as ->.
  { eapply NoDup_lookup; [|done..]. by apply NoDup_filter. }
  rewrite (relayout_sorted false st order depth Ht Hd).
  rewrite (relayout_sorted true st order depth Ht Hd).
  rewrite (ensure_keeps (set_positions _ (reset_state false st)) k _ Hfalse).
  by rewrite (ensure_keeps (set_positions _ (reset_state true st)) k _ Htrue).
Qed.

Lemma relayout_agrees_with_reset_witness :
  valid_graph chain_dragged ∧ (Some "B"%string ∉ dragged chain_dragged) ∧
  positions (relayout false chain_dragged).2 !! Some "B"%string
  = positions (relayout true chain_dragged).2 !! Some "B"%string.
Proof.
  assert (Hfree : Some "B"%string ∉ dragged chain_dragged).
  { apply (bool_decide_unpack _). vm_compute. exact I. }
  split; [exact chain_dragged_valid|]. split; [exact Hfree|].
  apply (relayout_agrees_with_reset chain_dragged [Some "A"%string; Some "B"%string]).
  - exact chain_dragged_valid.
  - vm_compute. reflexivity.
  - right. left.
  - exact Hfree.
Defined.

(** * More on the fallback pass *)

(** X14: [_ensurePositionsForMissing] fills gaps only: an entry that is
    there is never overwritten, and when every node has a position the
    call changes nothing at all. *)
Theorem ensure_fills_gaps_only st :
  (∀ k p, positions st !! k = Some p →
     positions (_ensurePositionsForMissing st).2 !! k = Some p) ∧
  ((∀ k, k ∈ node_ids st → is_Some (positions st !! k)) →
   (_ensurePositionsForMissing st).2 = st).
Proof.
  split; [intros k p; apply ensure_keeps|].
  intros Hall.
  destruct (ensure_spec st) as [(ms & Hc & Hms & _ & _)|[_ ->]]; [|done].
  unfold _ensurePositionsForMissing. rewrite Hc.
  assert (ms = []) as ->; [|done].
  rewrite Hms. apply filter_nil_intro. intros k [p Hp]%Hall. congruence.
Qed.

Lemma ensure_fills_gaps_only_witness :
  (∀ k, k ∈ node_ids chain_laid → is_Some (positions chain_laid !! k)) ∧
  (_ensurePositionsForMissing chain_laid).2 = chain_laid.
Proof.
  assert (Hall : ∀ k, k ∈ node_ids chain_laid → is_Some (positions chain_laid !! k)).
  { change (node_ids chain_laid) with [Some "A"%string; Some "B"%string].
    intros k [->|[->|Hk]%elem_of_cons]%elem_of_cons.
    - vm_compute. by eexists.
    - vm_compute. by eexists.
    - by apply elem_of_nil in Hk. }
  split; [exact Hall|].
  exact (proj2 (ensure_fills_gaps_only chain_laid) Hall).
Defined.

(** X15: the first node that lacks a position is put at the left margin of
    the top band, (40, 40), whatever the node width and the viewport width
    are. *)
Theorem ensure_first_at_margin st k rest :
  Forall (λ n, is_Some n) (nodes_of st) → NoDup (node_ids st) →
  filter (λ k, positions st !! k = None) (node_ids st) = k :: rest →
  positions (_ensurePositionsForMissing st).2 !! k
  = Some {| Pos.x := 40; Pos.y := 40 |}.
Proof.
  intros Hall Hnd Hms.
  destruct (ensure_spec st) as [(ms & _ & Hms' & _ & ->)|[Hnot _]]; [|done].
  rewrite Hms in Hms'. subst ms. simpl.
  assert (Hk : k ∉ rest).
  { pose proof (NoDup_filter (λ k, positions st !! k = None) _ Hnd) as Hf.
    rewrite Hms in Hf. by apply NoDup_cons in Hf as [? _]. }
  rewrite pack_other by done.
  destruct (clientWidth st - 40 <? 40 + NODE_W st)%float; apply lookup_insert_eq.
Qed.

Lemma ensure_first_at_margin_witness :
  Forall (λ n, is_Some n) (nodes_of chain_state) ∧ NoDup (node_ids chain_state) ∧
  positions (_ensurePositionsForMissing chain_state).2 !! Some "A"%string
  = Some {| Pos.x := 40; Pos.y := 40 |}.
Proof.
  assert (Hall : Forall (λ n, is_Some n) (nodes_of chain_state)).
  { apply (bool_decide_unpack _). vm_compute. exact I. }
  assert (Hnd : NoDup (node_ids chain_state)).
  { apply (bool_decide_unpack _). vm_compute. exact I. }
  split; [exact Hall|]. split; [exact Hnd|].
  apply (ensure_first_at_margin chain_state (Some "A"%string) [Some "B"%string] Hall Hnd).
  vm_compute. reflexivity.
Defined.

(** * The fallback pass *)

Lemma band_from_shift st i : ∀ x,
  band_from st (band_wrap st x + (NODE_W st + 20))%float i = band_from st x (S i).
Proof. induction i as [|i IH]; intros x; [done|]. simpl. by rewrite IH. Qed.

Lemma band_x_first st : band_x st 0 = 40%float.
Proof. unfold band_x, band_from, band_wrap. by destruct (_ <? _)%float. Qed.

Lemma band_from_frame st st' x i :
  NODE_W st = NODE_W st' → clientWidth st = clientWidth st' →
  band_from st x i = band_from st' x i.
Proof.
  intros Hw Hc. induction i as [|i IH]; simpl; unfold band_wrap; rewrite ?IH, Hw, Hc; done.
Qed.

(** The loop of the fallback puts the id at index [i] of [missing], where
    it stands there for the last time, at place [i] of the band. *)
Lemma pack_at st ms : ∀ x pos i k,
  ms !! i = Some k → k ∉ drop (S i) ms →
  pack st ms x pos !! k = Some {| Pos.x := band_from st x i; Pos.y := 40 |}.
Proof.
  induction ms as [|id ms IH]; intros x pos i k Hi Hlast; [done|].
  simpl. fold (band_wrap st x). destruct i as [|i]; simpl in Hi, Hlast.
  - injection Hi as ->. rewrite drop_0 in Hlast. rewrite pack_other by done.
    by rewrite lookup_insert_eq.
  - rewrite (IH _ _ i k Hi Hlast). by rewrite band_from_shift.
Qed.

Lemma ensure_band st :
  Forall (λ n, is_Some n) (nodes_of st) →
  let missing := filter (λ k, positions st !! k = None) (node_ids st) in
  let st' := (_ensurePositionsForMissing st).2 in
  (_ensurePositionsForMissing st).1 = Ret tt ∧
  (∀ k, k ∈ node_ids st → is_Some (positions st' !! k)) ∧
  (∀ k p, positions st !! k = Some p → positions st' !! k = Some p) ∧
  (∀ k, positions st !! k = None → k ∉ missing → positions st' !! k = None) ∧
  (∀ i k, missing !! i = Some k → k ∉ drop (S i) missing →
     positions st' !! k = Some {| Pos.x := band_x st i; Pos.y := 40 |}).
Proof.
  intros Hall missing st'. subst st'.
  destruct (ensure_spec st) as [(ms & _ & Hms & _ & He)|[Hnot _]]; [|done].
  fold missing in Hms. subst ms. rewrite He. simpl. split_and!.
  - done.
  - intros k Hk. destruct (positions st !! k) as [p|] eqn:Hp.
    + rewrite pack_other; [by rewrite Hp|].
      intros [? _]%list_elem_of_filter. congruence.
    + destruct (pack_band st missing k 40 (positions st)) as [x' ->]; [|done].
      left. by apply list_elem_of_filter.
  - intros k p Hp. rewrite pack_other; [done|].
    intros [? _]%list_elem_of_filter. congruence.
  - intros k Hp Hk. by rewrite pack_other.
  - intros i k Hi Hlast. by apply pack_at.
Qed.

(** C8: after a call of [relayout] that returned on a graph for which
    [topoSort] is ok, every node of the current graph has a position: the
    call ends with the fallback pass on the table of the layered pass.
    The fallback pass, in [relayout] and on its own, keeps every entry it
    finds and puts the nodes without one, in declaration order, into the
    top band [y = 40]: the first at the left margin [x = 40], every further
    one [NODE_W + 20] to the right of the one before, and back at the left
    margin when it would end beyond [40] short of the viewport width.  On
    a valid graph in which every pinned node has a position the layered
    pass leaves no node for the fallback. *)
Theorem relayout_places_every_node resetDragged st :
  (Forall (λ n, is_Some n) (nodes_of st) →
   let missing := filter (λ k, positions st !! k = None) (node_ids st) in
   let st' := (_ensurePositionsForMissing st).2 in
   (_ensurePositionsForMissing st).1 = Ret tt ∧
   (∀ k, k ∈ node_ids st → is_Some (positions st' !! k)) ∧
   (∀ k p, positions st !! k = Some p → positions st' !! k = Some p) ∧
   (∀ k, positions st !! k = None → k ∉ missing → positions st' !! k = None) ∧
   (∀ i k, missing !! i = Some k → k ∉ drop (S i) missing →
      positions st' !! k = Some {| Pos.x := band_x st i; Pos.y := 40 |})) ∧
  (∀ st' res,
     relayout resetDragged st = (Ret tt, st') → topoSort st = Ret res → ok res = true →
     ∃ depth, _computeDepths (order res) st = Ret depth ∧
       let table := layered resetDragged st (order res) depth in
       let missing := filter (λ k, table !! k = None) (node_ids st) in
       (∀ n, Some n ∈ nodes_of st → is_Some (positions st' !! Node.id n)) ∧
       (∀ k p, table !! k = Some p → positions st' !! k = Some p) ∧
       (∀ k, table !! k = None → k ∉ missing → positions st' !! k = None) ∧
       (∀ i k, missing !! i = Some k → k ∉ drop (S i) missing →
          positions st' !! k = Some {| Pos.x := band_x st i; Pos.y := 40 |}) ∧
       (valid_graph st → pinned_placed st → missing = [])).
Proof.
  split; [apply ensure_band|].
  intros st' res Hrun Ht Hok.
  destruct (relayout_returns _ _ _ _ Hrun Ht Hok) as [depth Hd].
  exists depth. split; [done|]. intros table missing.
  rewrite (relayout_ok _ _ _ _ Ht Hok Hd) in Hrun. fold table in Hrun.
  set (laid := set_positions table (reset_state resetDragged st)) in *.
  assert (Hns : nodes_of laid = nodes_of st) by (by destruct resetDragged).
  assert (Hall : Forall (λ n, is_Some n) (nodes_of laid)).
  { destruct (ensure_spec laid) as [(ms & _ & _ & Hall & _)|[_ He]]; [done|congruence]. }
  destruct (ensure_band laid Hall) as (_ & Hsome & Hkeep & Hnone & Hband).
  rewrite Hrun in Hsome, Hkeep, Hnone, Hband. simpl in Hsome, Hkeep, Hnone, Hband.
  unfold node_ids in Hsome, Hnone, Hband. rewrite Hns in Hsome, Hnone, Hband.
  fold (node_ids st) in Hsome, Hnone, Hband. fold missing in Hnone, Hband.
  split_and!.
  - intros n Hn. apply Hsome. apply list_elem_of_fmap. by exists (Some n).
  - done.
  - done.
  - intros i k Hi Hlast. rewrite (Hband i k Hi Hlast). do 2 f_equal.
    apply band_from_frame; by destruct resetDragged.
  - intros Hv Hpin. apply filter_nil_intro. intros k Hk Hnone'.
    destruct (topoSort_valid st Hv) as [(ord & Ht' & Htopo)|[Ht' _]];
      [|rewrite Ht in Ht'; injection Ht' as ->; done].
    rewrite Ht in Ht'. injection Ht' as ->. simpl in *.
    assert (Hfree : resetDragged = true ∨ k ∉ dragged st →
                    is_Some (layered resetDragged st ord depth !! k)).
    { intros Hfree.
      destruct (layered_at_free resetDragged st ord depth k Hfree
                  (topo_nodup _ _ Htopo)) as (i & _ & Hat); [|by eexists].
      by apply (topo_nodes _ _ Htopo). }
    assert (is_Some (table !! k)) as [p Hp]; [|congruence].
    destruct resetDragged; [apply Hfree; by left|].
    destruct (decide (k ∈ dragged st)) as [Hin|Hout]; [|apply Hfree; by right].
    destruct (Hpin k Hin) as [p Hp]. exists p.
    unfold table, layered. simpl.
    destruct (group_layers ord depth ∅ 0) as [layers md].
    by rewrite place_layers_pinned.
Qed.

Lemma relayout_places_every_node_witness :
  (Forall (λ n, is_Some n) (nodes_of chain_state) ∧
   positions (_ensurePositionsForMissing chain_state).2 !! Some "A"%string
   = Some {| Pos.x := 40; Pos.y := 40 |} ∧
   positions (_ensurePositionsForMissing chain_state).2 !! Some "B"%string
   = Some {| Pos.x := 240; Pos.y := 40 |}) ∧
  (Forall (λ n, is_Some n) (nodes_of chain_narrow) ∧
   positions (_ensurePositionsForMissing chain_narrow).2 !! Some "A"%string
   = Some {| Pos.x := 40; Pos.y := 40 |} ∧
   positions (_ensurePositionsForMissing chain_narrow).2 !! Some "B"%string
   = Some {| Pos.x := 40; Pos.y := 40 |}) ∧
  (relayout false chain_dragged = (Ret tt, (relayout false chain_dragged).2) ∧
   topoSort chain_dragged
   = Ret {| ok := true; order := [Some "A"%string; Some "B"%string] |} ∧
   ∀ n, Some n ∈ nodes_of chain_dragged →
     is_Some (positions (relayout false chain_dragged).2 !! Node.id n)).
Proof.
  assert (Hwide : Forall (λ n, is_Some n) (nodes_of chain_state)).
  { repeat constructor; by eexists. }
  assert (Hnarrow : Forall (λ n, is_Some n) (nodes_of chain_narrow)).
  { repeat constructor; by eexists. }
  assert (Hlast : ∀ st i k, filter (λ k, positions st !! k = None) (node_ids st)
                            = [Some "A"%string; Some "B"%string] →
                    [Some "A"%string; Some "B"%string] !! i = Some k →
                    k ∉ drop (S i) [Some "A"%string; Some "B"%string] →
                    filter (λ k, positions st !! k = None) (node_ids st) !! i = Some k ∧
                    k ∉ drop (S i) (filter (λ k, positions st !! k = None) (node_ids st))).
  { intros st i k ->. done. }
  split_and!.
  - exact Hwide.
  - destruct (Hlast chain_state 0 (Some "A"%string)) as [Hi Hl];
      [vm_compute; reflexivity|reflexivity|
       apply (bool_decide_unpack (_ ∉ _)); vm_compute; exact I|].
    exact (proj2 (proj2 (proj2 (proj2
             (proj1 (relayout_places_every_node false chain_state) Hwide)))) _ _ Hi Hl).
  - destruct (Hlast chain_state 1 (Some "B"%string)) as [Hi Hl];
      [vm_compute; reflexivity|reflexivity|
       apply (bool_decide_unpack (_ ∉ _)); vm_compute; exact I|].
    exact (proj2 (proj2 (proj2 (proj2
             (proj1 (relayout_places_every_node false chain_state) Hwide)))) _ _ Hi Hl).
  - exact Hnarrow.
  - destruct (Hlast chain_narrow 0 (Some "A"%string)) as [Hi Hl];
      [vm_compute; reflexivity|reflexivity|
       apply (bool_decide_unpack (_ ∉ _)); vm_compute; exact I|].
    exact (proj2 (proj2 (proj2 (proj2
             (proj1 (relayout_places_every_node false chain_narrow) Hnarrow)))) _ _ Hi Hl).
  - destruct (Hlast chain_narrow 1 (Some "B"%string)) as [Hi Hl];
      [vm_compute; reflexivity|reflexivity|
       apply (bool_decide_unpack (_ ∉ _)); vm_compute; exact I|].
    exact (proj2 (proj2 (proj2 (proj2
             (proj1 (relayout_places_every_node false chain_narrow) Hnarrow)))) _ _ Hi Hl).
  - vm_compute. reflexivity.
  - vm_compute. reflexivity.
  - destruct (proj2 (relayout_places_every_node false chain_dragged)
                (relayout false chain_dragged).2
                {| ok := true; order := [Some "A"%string; Some "B"%string] |})
      as (depth & _ & Hsome & _); [vm_compute; reflexivity..|reflexivity|].
    exact Hsome.
Defined.

(** * Dragging *)

Lemma on_pointermoves_snoc id evs ev : ∀ dr st,
  on_pointermoves id (evs ++ [ev]) dr st
  = on_pointermove id ev (on_pointermoves id evs dr st).1 (on_pointermoves id evs dr st).2.
Proof.
  induction evs as [|e evs IH]; intros dr st; simpl.
  - by destruct (on_pointermove id ev dr st).
  - destruct (on_pointermove id e dr st) as [dr' st']. apply IH.
Qed.

Lemma on_pointermoves_dragging id evs : ∀ dr st,
  (on_pointermoves id evs dr st).1 = dr ∧
  dragged (on_pointermoves id evs dr st).2 = dragged st ∧
  (∀ k, k ≠ id →
     positions (on_pointermoves id evs dr st).2 !! k = positions st !! k) ∧
  same_graph st (on_pointermoves id evs dr st).2.
Proof.
  induction evs as [|e evs IH]; intros dr st; simpl; [done|].
  unfold on_pointermove. destruct (negb (Drag.dragging dr)); [apply IH|].
  destruct (IH dr (pointermove id {|
      Pos.x := (Drag.originX dr + (PointerEvent.clientX e - Drag.startX dr))%float;
      Pos.y := (Drag.originY dr + (PointerEvent.clientY e - Drag.startY dr))%float |}
      st)) as (H1 & H2 & H3 & H4).
  split_and!; [done|done| |done].
  intros k Hk. rewrite H3 by done. simpl. by apply lookup_insert_ne.
Qed.

(** X16: a drag is free of drift.  After [pointerdown] took hold of a
    node that stood at [p], any run of [pointermove] events leaves the node
    at [p] shifted by the way of the pointer from the [pointerdown] to the
    last event, whatever happened in between; the node is pinned and no
    other entry of the table has moved. *)
Theorem drag_follows_pointer id ev0 evs ev dr st p :
  positions st !! id = Some p → PointerEvent.on_icon ev0 = false →
  let grabbed := on_pointerdown id ev0 dr st in
  let dropped := (on_pointermoves id (evs ++ [ev]) grabbed.1 grabbed.2).2 in
  positions dropped !! id = Some (dragged_to p ev0 ev) ∧
  id ∈ dragged dropped ∧
  ∀ k, k ≠ id → positions dropped !! k = positions st !! k.
Proof.
  intros Hp Hicon grabbed dropped. unfold dropped, grabbed, on_pointerdown.
  rewrite Hicon, Hp. unfold pointerdown. rewrite Hp. simpl.
  rewrite on_pointermoves_snoc.
  match goal with |- context [on_pointermoves id evs ?d ?s] =>
    destruct (on_pointermoves_dragging id evs d s) as (H1 & H2 & H3 & ?) end.
  rewrite H1. unfold on_pointermove. simpl. split_and!.
  - apply lookup_insert_eq.
  - rewrite H2. simpl. apply elem_of_union_l. by apply elem_of_singleton.
  - intros k Hk. rewrite lookup_insert_ne by done. by rewrite H3.
Qed.

Lemma drag_follows_pointer_witness :
  positions chain_laid !! Some "A"%string = Some {| Pos.x := 410; Pos.y := 60 |} ∧
  positions
    (on_pointermoves (Some "A"%string) ([ev_at 500 500] ++ [ev_at 110 130])
       (on_pointerdown (Some "A"%string) (ev_at 100 100) Drag.idle chain_laid).1
       (on_pointerdown (Some "A"%string) (ev_at 100 100) Drag.idle chain_laid).2).2
    !! Some "A"%string
  = Some (dragged_to {| Pos.x := 410; Pos.y := 60 |} (ev_at 100 100) (ev_at 110 130)).
Proof.
  split; [vm_compute; reflexivity|].
  apply (drag_follows_pointer (Some "A"%string) (ev_at 100 100) [ev_at 500 500]
           (ev_at 110 130) Drag.idle chain_laid {| Pos.x := 410; Pos.y := 60 |}).
  - vm_compute. reflexivity.
  - reflexivity.
Defined.

(** X17: pointer moves change nothing unless a [pointerdown] took hold:
    not before any, not after a [pointerdown] on the icon or on a node
    without a position, and not after [pointerup] or [pointercancel]. *)
Theorem drag_inert_unless_grabbed id ev0 evs dr st :
  Drag.dragging dr = false →
  on_pointermoves id evs dr st = (dr, st) ∧
  (PointerEvent.on_icon ev0 = true ∨ positions st !! id = None →
   on_pointerdown id ev0 dr st = (dr, st)) ∧
  ∀ dr', on_pointermoves id evs (on_pointerend dr') st = (on_pointerend dr', st).
Proof.
  intros Hidle.
  assert (Hinert : ∀ d, Drag.dragging d = false → on_pointermoves id evs d st = (d, st)).
  { intros d Hd. induction evs as [|e evs IH]; simpl; [done|].
    unfold on_pointermove. by rewrite Hd. }
  split_and!.
  - by apply Hinert.
  - unfold on_pointerdown. intros [Hi | Hn]; rewrite ?Hi, ?Hn; [done|].
    by destruct (PointerEvent.on_icon ev0).
  - intros dr'. apply Hinert. unfold on_pointerend. by destruct (Drag.dragging dr') eqn:?.
Qed.

Lemma drag_inert_unless_grabbed_witness :
  Drag.dragging Drag.idle = false ∧
  on_pointermoves (Some "A"%string) [ev_at 1 2] Drag.idle chain_laid = (Drag.idle, chain_laid).
Proof.
  split; [reflexivity|].
  apply (drag_inert_unless_grabbed (Some "A"%string) (ev_at 0 0) [ev_at 1 2] Drag.idle
           chain_laid).
  reflexivity.
Defined.

Lemma relayout_false_entries st k :
  is_Some (positions st !! k) → is_Some (positions (relayout false st).2 !! k).
Proof.
  intros [p Hp].
  destruct (relayout_cases false st)
    as [->|[(res & Ht & Hok)|(res & depth & Ht & Hok & Hd)]].
  - by exists p.
  - rewrite (relayout_cycle _ _ _ Ht Hok). simpl. rewrite positions_log. by exists p.
  - rewrite (relayout_ok _ _ _ _ Ht Hok Hd).
    assert (is_Some (layered false st (order res) depth !! k)) as [p' Hp'].
    { unfold layered. simpl. destruct (group_layers (order res) depth ∅ 0) as [layers md].
      rewrite place_layers_overlay. apply lookup_union_is_Some. right. by exists p. }
    exists p'. by apply ensure_keeps.
Qed.

Lemma relayout_false_pinned st k p :
  k ∈ dragged st → positions st !! k = Some p →
  positions (relayout false st).2 !! k = Some p.
Proof.
  intros Hk Hp.
  destruct (relayout_cases false st)
    as [->|[(res & Ht & Hok)|(res & depth & Ht & Hok & Hd)]].
  - done.
  - rewrite (relayout_cycle _ _ _ Ht Hok). simpl. by rewrite positions_log.
  - rewrite (relayout_ok _ _ _ _ Ht Hok Hd). apply ensure_keeps. simpl.
    unfold layered. simpl. destruct (group_layers (order res) depth ∅ 0) as [layers md].
    by rewrite place_layers_pinned.
Qed.

Lemma setData_keeps_layout w st :
  positions (setData w st).2 = positions st ∧ dragged (setData w st).2 = dragged st.
Proof.
  unfold setData, _validateAndBuildGraph.
  destruct (register_nodes _ ∅) as [r m]. destruct r as [[]| |]; [|done..].
  by destruct (link_nodes m _ []).
Qed.

Lemma reachable_pinned_placed st : reachable st → pinned_placed st.
Proof.
  induction 1 as [w h gx gy width l|w st _ IH|r st _ IH|id st _ IH|id p st _ IH
                  |msg st _ IH|st _ IH]; intros k.
  - simpl. set_solver.
  - destruct (setData_keeps_layout w st) as [-> ->]. apply IH.
  - destruct r.
    + rewrite relayout_reset_dragged. set_solver.
    + rewrite relayout_false_dragged. intros Hk.
      by apply relayout_false_entries, IH.
  - unfold pointerdown. destruct (positions st !! id) as [p|] eqn:Hp; [|apply IH].
    simpl. intros [->%elem_of_singleton|Hk]%elem_of_union; [by rewrite Hp|by apply IH].
  - simpl. intros Hk. rewrite lookup_insert. case_decide; [by eexists|by apply IH].
  - unfold log. destruct (logEl st); apply IH.
  - unfold clearLog. destruct (logEl st); apply IH.
Qed.

(** X18: every pinned node has a position, in every state the instance
    can reach from the constructor by [setData] (whatever its outcome),
    [relayout] (with either flag), the pointer handlers and the log; so
    there [relayout] without reset leaves the entry of every pinned id as
    it is, and never has to place a pinned node in the fallback pass. *)
Theorem pinned_nodes_have_positions st k :
  reachable st → k ∈ dragged st →
  is_Some (positions st !! k) ∧
  positions (relayout false st).2 !! k = positions st !! k.
Proof.
  intros Hreach Hk. destruct (reachable_pinned_placed st Hreach k Hk) as [p Hp].
  split; [by exists p|]. rewrite Hp. by apply relayout_false_pinned.
Qed.

Lemma pinned_nodes_have_positions_witness :
  reachable chain_dragged ∧ Some "A"%string ∈ dragged chain_dragged ∧
  positions (relayout false chain_dragged).2 !! Some "A"%string
  = positions chain_dragged !! Some "A"%string.
Proof.
  assert (Hreach : reachable chain_dragged).
  { apply reachable_pointermove, reachable_pointerdown, reachable_relayout,
      reachable_setData, reachable_initial. }
  assert (Hin : Some "A"%string ∈ dragged chain_dragged).
  { apply (bool_decide_unpack (Some "A"%string ∈ dragged chain_dragged)).
    vm_compute. reflexivity. }
  split; [exact Hreach|]. split; [exact Hin|].
  apply (pinned_nodes_have_positions chain_dragged (Some "A"%string) Hreach Hin).
Defined.

(** * The simulated run *)

Lemma append_assoc (a b c : string) : ((a +:+ b) +:+ c = a +:+ (b +:+ c))%string.
Proof.
  induction a as [|x a IH]; [done|].
  change (String x ((a +:+ b) +:+ c) = String x (a +:+ (b +:+ c)))%string.
  by rewrite IH.
Qed.

Lemma topoSort_clearLog st : topoSort (clearLog st) = topoSort st.
Proof. unfold clearLog. by destruct (logEl st). Qed.

Lemma log_with_log msg text st :
  log msg (with_log text st) = with_log ((λ t, t +:+ msg +:+ newline)%string <$> text) st.
Proof. by destruct text. Qed.

Lemma clearLog_with_log st :
  clearLog st = with_log ((λ _, EmptyString) <$> logEl st) st.
Proof. unfold clearLog. by destruct st as [????? [t|] ?????]. Qed.

Lemma run_on_spec rest : ∀ c a text,
  run_on rest {| core := with_log text c; activeId := a; running := true |}
  = {| core := with_log ((λ t, t +:+ running_lines rest +:+ newline +:+ "Done." +:+ newline)%string
                           <$> text) c;
       activeId := None; running := false |} ∧
  run_actives rest {| core := with_log text c; activeId := a; running := true |}
  = (Some <$> rest) ++ [None].
Proof.
  induction rest as [|id rest IH]; intros c a text.
  - simpl. unfold set_core, set_running. simpl. rewrite log_with_log. split; [|done].
    by do 2 f_equal.
  - cbn [run_on run_actives run_visit]. unfold set_core, setActive. cbn [core activeId running snd].
    rewrite log_with_log.
    destruct (IH c (Some id)
                ((λ t, t +:+ ("Running: " +:+ concat_item id) +:+ newline)%string <$> text))
      as [-> ->].
    split; [|done]. do 2 f_equal. destruct text; [|done]. simpl. f_equal.
    cbn [running_lines]. by rewrite !append_assoc.
Qed.

(** X19: on a validly loaded acyclic graph a run that is let to its end
    makes the nodes active one after the other in an order that is
    topological, every node once, then none; it ends with [running] off
    and no active node, and it leaves in the log element, whatever was
    there before, the order and one line for each node. No other field of
    the instance changes. *)
Theorem run_visits_in_topological_order s :
  valid_graph (core s) → acyclic (edges (core s)) → running s = false →
  ∃ ord p s1, topological (core s) ord ∧ run s = (Ret p, s1) ∧
    activeId s1 :: actives p s1 = (Some <$> ord) ++ [None] ∧
    resume p s1
    = {| core := with_log ((λ _, run_log ord) <$> logEl (core s)) (core s);
         activeId := None; running := false |}.
Proof.
  intros Hv Hacyc Hrun.
  destruct (topoSort_valid _ Hv) as [(ord & Hsort & Htopo)|[_ [v Hv']]];
    [|by destruct (Hacyc v)].
  exists ord. unfold run. rewrite Hrun. cbn [core set_core set_running].
  rewrite topoSort_clearLog, Hsort. cbn [ok negb order].
  rewrite clearLog_with_log, !log_with_log.
  destruct ord as [|id rest].
  - eexists _, _. split; [done|]. split; [done|]. split; [done|].
    simpl. unfold set_core, set_running, setActive. simpl. rewrite log_with_log.
    do 2 f_equal. unfold with_log. destruct (logEl (core s)); done.
  - cbn [run_visit]. unfold set_core, setActive. cbn [core activeId running].
    rewrite log_with_log.
    eexists _, _. split; [done|]. split; [done|]. cbn [resume actives activeId].
    change (running (set_running true s)) with true.
    match goal with |- context [run_actives rest {| core := with_log ?t ?c; activeId := ?a |}] =>
      destruct (run_on_spec rest c a t) as [-> ->] end.
    split; [done|]. do 2 f_equal. destruct (logEl (core s)); [|done]. simpl. f_equal.
    unfold run_log. cbn [running_lines]. rewrite !append_assoc. done.
Qed.

Lemma run_visits_in_topological_order_witness :
  valid_graph (core (idle_on chain_laid)) ∧
  ∃ ord p s1, topological chain_laid ord ∧ run (idle_on chain_laid) = (Ret p, s1) ∧
    activeId s1 :: actives p s1 = (Some <$> ord) ++ [None] ∧
    resume p s1
    = {| core := with_log ((λ _, run_log ord) <$> logEl chain_laid) chain_laid;
         activeId := None; running := false |}.
Proof.
  assert (Hv : valid_graph chain_laid).
  { apply (valid_graph_frame chain_state); [done..|].
    apply (setData_valid chain fresh). vm_compute. reflexivity. }
  split; [exact Hv|].
  apply (run_visits_in_topological_order (idle_on chain_laid) Hv chain_acyclic).
  reflexivity.
Defined.

(** X20: on a validly loaded graph with a cycle [run] makes no node
    active: it leaves the error line as the whole text of the log element,
    turns [running] off again and is over without waiting. *)
Theorem run_refuses_cyclic_graph s :
  valid_graph (core s) → cyclic (edges (core s)) → running s = false →
  run s = (Ret Finished,
           {| core := with_log ((λ _, cycle_log) <$> logEl (core s)) (core s);
              activeId := activeId s; running := false |}).
Proof.
  intros Hv [v Hcyc] Hrun.
  destruct (topoSort_valid _ Hv) as [(ord & _ & Htopo)|[Hsort _]];
    [by destruct (topological_acyclic _ _ Htopo v)|].
  unfold run. rewrite Hrun. cbn [core set_core set_running].
  rewrite topoSort_clearLog, Hsort. cbn [ok negb].
  rewrite clearLog_with_log, log_with_log. unfold set_running. cbn [core activeId].
  do 3 f_equal. by destruct (logEl (core s)).
Qed.

Lemma run_refuses_cyclic_graph_witness :
  valid_graph (core (idle_on loop2_state)) ∧
  run (idle_on loop2_state)
  = (Ret Finished,
     {| core := with_log ((λ _, cycle_log) <$> logEl loop2_state) loop2_state;
        activeId := None; running := false |}).
Proof.
  assert (Hv : valid_graph loop2_state).
  { apply (setData_valid loop2 fresh). vm_compute. reflexivity. }
  split; [exact Hv|].
  apply (run_refuses_cyclic_graph (idle_on loop2_state) Hv loop2_cyclic).
  reflexivity.
Defined.

(** X21: when [topoSort] throws inside [run], [running] stays on: from
    then on every call of [run] returns at once and changes nothing,
    whatever is loaded or laid out in between. *)
Theorem run_stuck_after_throw s e :
  running s = false → topoSort (core s) = Throw e →
  ∃ s1, run s = (Throw e, s1) ∧ running s1 = true ∧
    ∀ c, run (set_core c s1) = (Ret Finished, set_core c s1).
Proof.
  intros Hrun Hthrow. unfold run at 1. rewrite Hrun. cbn [core set_core set_running].
  rewrite topoSort_clearLog, Hthrow. eexists. split; [done|]. split; [done|].
  intros c. done.
Qed.

Lemma run_stuck_after_throw_witness :
  running (idle_on holed_state) = false ∧
  topoSort (core (idle_on holed_state)) = Throw TypeError ∧
  ∃ s1, run (idle_on holed_state) = (Throw TypeError, s1) ∧ running s1 = true ∧
    ∀ c, run (set_core c s1) = (Ret Finished, set_core c s1).
Proof.
  split; [reflexivity|]. split; [vm_compute; reflexivity|].
  apply (run_stuck_after_throw (idle_on holed_state) TypeError).
  - reflexivity.
  - vm_compute. reflexivity.
Defined.

(** * Escaping *)

Lemma append_cons a (s t : string) : (String a s +:+ t)%string = String a (s +:+ t)%string.
Proof. done. Qed.

Lemma chars_append (s t : string) : chars (s +:+ t)%string = chars s ++ chars t.
Proof. induction s as [|a s IH]; [done|]. rewrite append_cons. simpl. by rewrite IH. Qed.

Lemma replaceAll_append c r (s t : string) :
  replaceAll c r (s +:+ t)%string = (replaceAll c r s +:+ replaceAll c r t)%string.
Proof.
  induction s as [|a s IH]; [done|]. rewrite append_cons. simpl.
  case_decide; rewrite IH; [by rewrite append_assoc|done].
Qed.

Lemma escapeHtml_cons a s : escapeHtml (String a s) = (escape_char a +:+ escapeHtml s)%string.
Proof.
  unfold escapeHtml, escape_char.
  cbn [replaceAll].
  repeat (case_decide; [subst a; rewrite ?replaceAll_append; try done|]);
    repeat (cbn [replaceAll]; rewrite ?replaceAll_append;
            first [rewrite decide_False by done | rewrite decide_True by done]);
    try done.
Qed.

Lemma escapeHtml_append (s t : string) :
  escapeHtml (s +:+ t)%string = (escapeHtml s +:+ escapeHtml t)%string.
Proof.
  induction s as [|a s IH]; [done|].
  by rewrite append_cons, !escapeHtml_cons, IH, append_assoc.
Qed.

(** X22: the five passes of [escapeHtml] together replace every
    character on its own and once: [&], [<], [>], the double quote and the
    apostrophe by their entities, any other character by itself; no pass
    touches what an earlier one has written. *)
Theorem escapeHtml_per_character s :
  escapeHtml s = foldr (λ a r, escape_char a +:+ r)%string EmptyString (chars s).
Proof.
  induction s as [|a s IH]; [done|]. rewrite escapeHtml_cons, IH. done.
Qed.

Lemma escape_char_safe a :
  Forall (λ c, c ∉ [chr_lt; chr_gt; chr_quot; chr_apos]) (chars (escape_char a)).
Proof.
  unfold escape_char.
  repeat (case_decide;
          [apply (bool_decide_unpack (Forall _ _)); vm_compute; exact I|]).
  apply Forall_singleton. rewrite !not_elem_of_cons. split_and!; [done..|].
  apply not_elem_of_nil.
Qed.

Lemma escape_char_plain a :
  a ∉ [chr_amp; chr_lt; chr_gt; chr_quot; chr_apos] → escape_char a = String a EmptyString.
Proof.
  rewrite !not_elem_of_cons. intros (? & ? & ? & ? & ? & _).
  unfold escape_char. by repeat (case_decide; [done|]).
Qed.

(** X23: the text [escapeHtml] returns holds no [<], no [>], no double
    quote and no apostrophe, and a text without these and without [&] is
    returned as it is. *)
Theorem escapeHtml_output_safe s :
  (∀ c, c ∈ chars (escapeHtml s) → c ∉ [chr_lt; chr_gt; chr_quot; chr_apos]) ∧
  ((∀ c, c ∈ chars s → c ∉ [chr_amp; chr_lt; chr_gt; chr_quot; chr_apos]) →
   escapeHtml s = s).
Proof.
  split.
  - induction s as [|a s IH]; intros c; [by intros ?%elem_of_nil|].
    rewrite escapeHtml_cons, chars_append. intros [Hc|Hc]%elem_of_app; [|by apply IH].
    pose proof (escape_char_safe a) as Hsafe. rewrite Forall_forall in Hsafe.
    by apply Hsafe.
  - induction s as [|a s IH]; intros Hs; [done|].
    rewrite escapeHtml_cons, IH.
    + rewrite escape_char_plain; [done|]. apply Hs. simpl. apply elem_of_cons. by left.
    + intros c Hc. apply Hs. simpl. apply elem_of_cons. by right.
Qed.

Lemma escapeHtml_output_safe_witness :
  (∀ c, c ∈ chars "a-b"%string → c ∉ [chr_amp; chr_lt; chr_gt; chr_quot; chr_apos]) ∧
  escapeHtml "a-b" = "a-b"%string.
Proof.
  assert (H : ∀ c, c ∈ chars "a-b"%string →
                c ∉ [chr_amp; chr_lt; chr_gt; chr_quot; chr_apos]).
  { apply Forall_forall. apply (bool_decide_unpack (Forall _ _)). vm_compute. exact I. }
  split; [exact H|].
  apply (proj2 (escapeHtml_output_safe "a-b")). exact H.
Defined.

Lemma escape_char_inj a b s t :
  (escape_char a +:+ s)%string = (escape_char b +:+ t)%string → a = b ∧ s = t.
Proof.
  unfold escape_char.
  repeat case_decide; subst; rewrite ?append_cons; intros Heq;
    unfold chr_amp, chr_lt, chr_gt, chr_quot, chr_apos in *;
    by simplify_eq.
Qed.

(** X24: [escapeHtml] loses nothing: two texts with the same escaped
    form are the same text. *)
Theorem escapeHtml_injective s t : escapeHtml s = escapeHtml t → s = t.
Proof.
  revert t. induction s as [|a s IH]; intros [|b t].
  - done.
  - rewrite escapeHtml_cons. unfold escape_char.
    repeat case_decide; rewrite ?append_cons; intros Heq; by simplify_eq.
  - rewrite escapeHtml_cons. unfold escape_char.
    repeat case_decide; rewrite ?append_cons; intros Heq; by simplify_eq.
  - rewrite !escapeHtml_cons. intros [-> Heq]%escape_char_inj. f_equal. by apply IH.
Qed.

Lemma escapeHtml_injective_witness :
  escapeHtml "a<b" = escapeHtml "a<b" ∧ "a<b"%string = "a<b"%string.
Proof.
  split; [reflexivity|]. apply (escapeHtml_injective "a<b" "a<b"). reflexivity.
Defined.

(** * Zooming *)

Lemma SFcompare_antisym x y :
  SpecFloat.SFcompare y x = option_map CompOpp (SpecFloat.SFcompare x y).
Proof.
  destruct x as [s1| s1| |s1 m1 e1], y as [s2| s2| |s2 m2 e2]; simpl;
    try done; try (by destruct s1); try (by destruct s2);
    try (by destruct s1, s2).
  destruct s1, s2; simpl; try done.
  - rewrite (Z.compare_antisym e1 e2). destruct (e1 ?= e2)%Z; simpl; try done.
    by rewrite (ZC4 m1 m2), !CompOpp_involutive.
  - rewrite (Z.compare_antisym e1 e2). destruct (e1 ?= e2)%Z; simpl; try done.
    by rewrite (ZC4 m1 m2), CompOpp_involutive.
Qed.

Lemma is_nan_compare x :
  PrimFloat.is_nan x = false →
  SpecFloat.SFcompare (FloatOps.Prim2SF x) (FloatOps.Prim2SF x) = Some Eq.
Proof.
  unfold PrimFloat.is_nan. rewrite FloatAxioms.eqb_spec. unfold SpecFloat.SFeqb.
  destruct (SpecFloat.SFcompare _ _) as [[]|]; done.
Qed.

Lemma compare_defined x y :
  PrimFloat.is_nan x = false → PrimFloat.is_nan y = false →
  ∃ c, SpecFloat.SFcompare (FloatOps.Prim2SF x) (FloatOps.Prim2SF y) = Some c.
Proof.
  intros Hx%is_nan_compare Hy%is_nan_compare.
  destruct (FloatOps.Prim2SF x) as [| | |], (FloatOps.Prim2SF y) as [| | |];
    simpl in *; try done; by eexists.
Qed.

(** [a <=? b] from the comparison [H] of the two numbers. *)
Ltac leb_by H := rewrite FloatAxioms.leb_spec; unfold SpecFloat.SFleb; by rewrite H.

Lemma fle_refl x : PrimFloat.is_nan x = false → fle x x.
Proof. intros Hx%is_nan_compare. unfold fle. leb_by Hx. Qed.

Lemma is_nan_nan : PrimFloat.is_nan PrimFloat.nan = true.
Proof. reflexivity. Qed.

(** [Math.min] is [NaN] when an argument is, and otherwise one of its
    arguments and below both. *)
Lemma Math_min_spec a b :
  (PrimFloat.is_nan a || PrimFloat.is_nan b = true ∧ Math_min a b = PrimFloat.nan) ∨
  (PrimFloat.is_nan a = false ∧ PrimFloat.is_nan b = false ∧
   (Math_min a b = a ∨ Math_min a b = b) ∧ fle (Math_min a b) a ∧ fle (Math_min a b) b).
Proof.
  unfold Math_min. destruct (PrimFloat.is_nan a) eqn:Ha; [by left|].
  destruct (PrimFloat.is_nan b) eqn:Hb; [by left|]. right. simpl.
  split; [done|]. split; [done|].
  pose proof (fle_refl a Ha) as Haa. pose proof (fle_refl b Hb) as Hbb.
  destruct (compare_defined a b Ha Hb) as [c Hc].
  pose proof (SFcompare_antisym (FloatOps.Prim2SF a) (FloatOps.Prim2SF b)) as Hanti.
  rewrite Hc in Hanti. simpl in Hanti.
  unfold fle in *. rewrite !FloatAxioms.ltb_spec. unfold SpecFloat.SFltb. rewrite Hc, Hanti.
  destruct c; simpl.
  - destruct (PrimFloat.get_sign b).
    + split; [by right|]. split; [|done]. leb_by Hanti.
    + split; [by left|]. split; [done|]. leb_by Hc.
  - split; [by left|]. split; [done|]. leb_by Hc.
  - split; [by right|]. split; [|done]. leb_by Hanti.
Qed.

(** [Math.max] is [NaN] when an argument is, and otherwise one of its
    arguments and above both. *)
Lemma Math_max_spec a b :
  (PrimFloat.is_nan a || PrimFloat.is_nan b = true ∧ Math_max a b = PrimFloat.nan) ∨
  (PrimFloat.is_nan a = false ∧ PrimFloat.is_nan b = false ∧
   (Math_max a b = a ∨ Math_max a b = b) ∧ fle a (Math_max a b) ∧ fle b (Math_max a b)).
Proof.
  unfold Math_max. destruct (PrimFloat.is_nan a) eqn:Ha; [by left|].
  destruct (PrimFloat.is_nan b) eqn:Hb; [by left|]. right. simpl.
  split; [done|]. split; [done|].
  pose proof (fle_refl a Ha) as Haa. pose proof (fle_refl b Hb) as Hbb.
  destruct (compare_defined a b Ha Hb) as [c Hc].
  pose proof (SFcompare_antisym (FloatOps.Prim2SF a) (FloatOps.Prim2SF b)) as Hanti.
  rewrite Hc in Hanti. simpl in Hanti.
  unfold fle in *. rewrite !FloatAxioms.ltb_spec. unfold SpecFloat.SFltb. rewrite Hc, Hanti.
  destruct c; simpl.
  - destruct (PrimFloat.get_sign a).
    + split; [by right|]. split; [|done]. leb_by Hc.
    + split; [by left|]. split; [done|]. leb_by Hanti.
  - split; [by right|]. split; [|done]. leb_by Hc.
  - split; [by left|]. split; [done|]. leb_by Hanti.
Qed.

Lemma clamp_spec lo hi x :
  fle lo hi → PrimFloat.is_nan lo = false → PrimFloat.is_nan hi = false →
  if PrimFloat.is_nan x then Math_min hi (Math_max lo x) = PrimFloat.nan
  else fle lo (Math_min hi (Math_max lo x)) ∧ fle (Math_min hi (Math_max lo x)) hi.
Proof.
  intros Hlh Hlo Hhi. destruct (PrimFloat.is_nan x) eqn:Hx.
  - destruct (Math_max_spec lo x) as [[_ ->]|(_ & Hx' & _)]; [|congruence].
    destruct (Math_min_spec hi PrimFloat.nan) as [[_ ->]|(_ & Hn & _)]; [done|].
    by rewrite is_nan_nan in Hn.
  - destruct (Math_max_spec lo x) as [[Hn _]|(_ & _ & Hm & Hge & _)].
    { by rewrite Hlo, Hx in Hn. }
    assert (Hmn : PrimFloat.is_nan (Math_max lo x) = false) by (by destruct Hm as [-> | ->]).
    destruct (Math_min_spec hi (Math_max lo x)) as [[Hn _]|(_ & _ & Hr & Hle & _)].
    { by rewrite Hhi, Hmn in Hn. }
    split; [|done]. by destruct Hr as [-> | ->].
Qed.

(** X25: the zoom controls keep the scale within their bounds: after
    [zoomIn] the scale is at most 2, after [zoomOut] at least 0.3, after a
    wheel event between 0.3 and 2; unless the scaled value is [NaN], and
    then so is the new scale. *)
Theorem zoom_scale_bounded v :
  (if PrimFloat.is_nan (View.scale v * lit_1_2)
   then View.scale (zoomIn v) = PrimFloat.nan
   else fle (View.scale (zoomIn v)) 2) ∧
  (if PrimFloat.is_nan (View.scale v / lit_1_2)
   then View.scale (zoomOut v) = PrimFloat.nan
   else fle lit_0_3 (View.scale (zoomOut v))) ∧
  ∀ deltaY clientX clientY rect_left rect_top,
    let v' := on_wheel deltaY clientX clientY rect_left rect_top v in
    let delta := if (0 <? deltaY)%float then lit_0_9 else lit_1_1 in
    if PrimFloat.is_nan (View.scale v * delta)
    then View.scale v' = PrimFloat.nan
    else fle lit_0_3 (View.scale v') ∧ fle (View.scale v') 2.
Proof.
  split_and!.
  - simpl. destruct (Math_min_spec 2 (View.scale v * lit_1_2)) as [[Hn ->]|(_ & -> & _ & Hle & _)];
      [|done]. simpl in Hn. by rewrite Hn.
  - simpl. destruct (Math_max_spec lit_0_3 (View.scale v / lit_1_2))
      as [[Hn ->]|(_ & -> & _ & Hle & _)]; [|done]. simpl in Hn. by rewrite Hn.
  - intros deltaY clientX clientY rect_left rect_top. simpl.
    by apply clamp_spec.
Qed.

Lemma bounding_box_unplaced st ns a b c d :
  Forall (unplaced st) ns → bounding_box st ns a b c d = Ret (a, b, c, d).
Proof.
  induction 1 as [|[n|] ns Hn _ IH]; simpl in *; [done| |done]. by rewrite Hn.
Qed.

(** X26: [fitToView] never zooms in: the scale it sets is at most 1 (or
    [NaN]), when it sets one; and it leaves the view as it is when no node
    of the array has a position, the empty array included. *)
Theorem fitToView_never_zooms_in clientHeight st v :
  (Forall (unplaced st) (nodes_of st) → fitToView clientHeight st v = Ret v) ∧
  ∀ v', fitToView clientHeight st v = Ret v' →
    v' = v ∨ PrimFloat.is_nan (View.scale v') = true ∨ fle (View.scale v') 1.
Proof.
  split.
  - intros Hun. unfold fitToView. case_bool_decide; [done|].
    by rewrite bounding_box_unplaced.
  - intros v'. unfold fitToView. case_bool_decide; [intros; simplify_eq; by left|].
    destruct (bounding_box _ _ _ _ _ _) as [[[[minX minY] maxX] maxY]| |];
      simpl; [|done..].
    destruct (minX =? infinity)%float; [intros; simplify_eq; by left|].
    intros Hret. simplify_eq. right. simpl.
    match goal with |- context [Math_min 1 ?x] =>
      destruct (Math_min_spec 1 x) as [[_ ->]|(_ & _ & _ & Hle & _)] end.
    + by left.
    + by right.
Qed.

Lemma fitToView_never_zooms_in_witness :
  Forall (unplaced chain_state) (nodes_of chain_state) ∧
  fitToView 600 chain_state {| View.scale := 2; View.panX := 5; View.panY := 5 |}
  = Ret {| View.scale := 2; View.panX := 5; View.panY := 5 |}.
Proof.
  assert (H : Forall (unplaced chain_state) (nodes_of chain_state)).
  { apply (bool_decide_unpack (Forall _ _)). vm_compute. exact I. }
  split; [exact H|].
  apply (proj1 (fitToView_never_zooms_in 600 chain_state
                  {| View.scale := 2; View.panX := 5; View.panY := 5 |})).
  exact H.
Defined.
